(** * LexChat: retrieval core and provider fallback chain

    A shallow embedding of the embedding / ranking / passage-selection code of
    [app/api/chat/route.ts] and of the summary chain of the document route
    ([generateSummary], [generateBasicSummary]), followed by the two [POST]
    handlers, the question generator, the de-duplication of entities, the
    chat submission of the page and the string and array helpers of
    [lib/utils.ts].

    Conventions.
    - A JavaScript string is a sequence of UTF-16 code units.  The model uses
      [string], whose characters are the code units [0 .. 255] (Latin-1);
      [toLowerCase], [trim], [\w], [\s] are exact on that range.
    - A JavaScript number is an IEEE-754 binary64 value.  Word counts, hash
      values and bucket indices are integers far below [2^53], where the
      arithmetic of doubles is exact; they are kept in [Z].  The cosine
      similarity takes square roots and divides; it is kept in [float]
      (Rocq's primitive binary64 numbers).
    - A remote call ([fetch]) is a node of a finite interaction tree, so that
      "which provider was attempted, with which prompt" is a property of the
      tree. *)

From Stdlib Require Import ZArith List Bool Ascii String Lia Floats.
From Stdlib Require Import Permutation Sorted DecimalString Reals Lra Psatz.
From Stdlib Require Uint63.
Import ListNotations.

Set Warnings "-abstract-large-number".

Local Open Scope string_scope.
Local Open Scope list_scope.
Local Open Scope Z_scope.

(* ================================================================== *)
(** ** JavaScript strings *)

Definition charCodeAt (c : ascii) : Z := Z.of_N (N_of_ascii c).

Definition in_range (lo hi : N) (c : ascii) : bool :=
  (N.leb lo (N_of_ascii c) && N.leb (N_of_ascii c) hi)%bool.

(** [String.prototype.toLowerCase] on one Latin-1 code unit: [A-Z] and the
    accented capitals [U+00C0 .. U+00DE] (the multiplication sign [U+00D7]
    apart) move up by 32; everything else is unchanged. *)
Definition lower_unit (c : ascii) : ascii :=
  if (in_range 65 90 c
      || (in_range 192 222 c && negb (N.eqb (N_of_ascii c) 215)))%bool
  then ascii_of_N (N_of_ascii c + 32)
  else c.

Fixpoint toLowerCase (s : string) : string :=
  match s with
  | EmptyString => EmptyString
  | String c s' => String (lower_unit c) (toLowerCase s')
  end.

(** The class [\w] of a regular expression without the [u] and [i] flags:
    [[A-Za-z0-9_]]. *)
Definition is_word_char (c : ascii) : bool :=
  (in_range 97 122 c || in_range 65 90 c || in_range 48 57 c
   || N.eqb (N_of_ascii c) 95)%bool.

(** White space and line terminators below [U+0100]: TAB, LF, VT, FF, CR,
    SPACE and NBSP.  This is both what [trim] strips and the class [\s]. *)
Definition is_space (c : ascii) : bool :=
  (in_range 9 13 c || N.eqb (N_of_ascii c) 32 || N.eqb (N_of_ascii c) 160)%bool.

(** The separator class of [/[.!?]+/]. *)
Definition is_terminator (c : ascii) : bool :=
  (N.eqb (N_of_ascii c) 46 || N.eqb (N_of_ascii c) 33
   || N.eqb (N_of_ascii c) 63)%bool.

Fixpoint trimStart (s : string) : string :=
  match s with
  | EmptyString => EmptyString
  | String c s' => if is_space c then trimStart s' else s
  end.

Fixpoint trimEnd (s : string) : string :=
  match s with
  | EmptyString => EmptyString
  | String c s' =>
      match trimEnd s' with
      | EmptyString => if is_space c then EmptyString else String c EmptyString
      | t => String c t
      end
  end.

Definition trim (s : string) : string := trimEnd (trimStart s).

(** [s.substring(0, n)]: the first [n] code units, all of [s] when it is
    shorter. *)
Definition substring0 (n : nat) (s : string) : string := String.substring 0 n s.

(** [xs.join(sep)]. *)
Definition join (sep : string) (xs : list string) : string := String.concat sep xs.

(** [s.split(/[C]+/)] for a character class [C]: the pieces between the
    maximal runs of separator characters.  A run at the very start or the very
    end leaves an empty first or last piece, and the empty string splits into
    one empty piece.  [in_run] says that the previous character was a
    separator. *)
Fixpoint split_go (sep : ascii -> bool) (in_run : bool) (s : string) : list string :=
  match s with
  | EmptyString => [EmptyString]
  | String c s' =>
      if sep c then
        if in_run then split_go sep true s'
        else EmptyString :: split_go sep true s'
      else
        match split_go sep false s' with
        | p :: ps => String c p :: ps
        | [] => [String c EmptyString]
        end
  end.

Definition split_on (sep : ascii -> bool) (s : string) : list string :=
  split_go sep false s.

Definition nonempty (s : string) : bool :=
  match s with EmptyString => false | _ => true end.

(** [s.match(/\b\w+\b/g) || []]: the maximal runs of word characters, left to
    right.  ([\w+] is greedy and a match can only start and end at a word
    boundary, so each match is a whole run.) *)
Definition match_words (s : string) : list string :=
  filter nonempty (split_on (fun c => negb (is_word_char c)) s).

(** Decimal rendering of a number that holds an integer. *)
Definition string_of_Z (z : Z) : string := NilZero.string_of_int (Z.to_int z).
Definition string_of_nat (n : nat) : string := string_of_Z (Z.of_nat n).

(* ================================================================== *)
(** ** JavaScript values met by the frequency table *)

(** [wordFreq] is declared [{ [key: string]: number }] but created as the
    object literal [{}], whose prototype is [Object.prototype].  A read of a
    key that is not an own property therefore sees the inherited members.  The
    values that can be read are numbers, strings (after a [+] on a non-number),
    [undefined], the built-in functions and [Object.prototype] itself. *)
Inductive value :=
| VUndefined
| VNaN
| VNum (n : Z)
| VStr (s : string)
| VNative (name : string)
| VObjectPrototype.

(** Function-valued members of [Object.prototype]. *)
Definition prototype_methods : list string :=
  [ "constructor"; "hasOwnProperty"; "isPrototypeOf"; "propertyIsEnumerable";
    "toLocaleString"; "toString"; "valueOf";
    "__defineGetter__"; "__defineSetter__"; "__lookupGetter__"; "__lookupSetter__" ].

Definition mem_string (k : string) (ks : list string) : bool :=
  existsb (String.eqb k) ks.

(** What a key resolves to on [Object.prototype]. *)
Definition inherited (k : string) : value :=
  if String.eqb k "__proto__" then VObjectPrototype
  else if String.eqb k "constructor" then VNative "Object"
  else if mem_string k prototype_methods then VNative k
  else VUndefined.

(** Own properties in creation order. *)
Definition object := list (string * value).

Fixpoint own (o : object) (k : string) : option value :=
  match o with
  | [] => None
  | (k', v) :: o' => if String.eqb k k' then Some v else own o' k
  end.

(** [o[k]]. *)
Definition get (o : object) (k : string) : value :=
  match own o k with
  | Some v => v
  | None => inherited k
  end.

Fixpoint set_own (o : object) (k : string) (v : value) : object :=
  match o with
  | [] => [(k, v)]
  | (k', v') :: o' =>
      if String.eqb k k' then (k', v) :: o' else (k', v') :: set_own o' k v
  end.

(** [o[k] = v].  The key [__proto__] is the accessor of [Object.prototype]:
    its setter ignores a value that is neither an object nor [null].  (An
    object never reaches it here: the assigned value is the result of a [+].) *)
Definition put (o : object) (k : string) (v : value) : object :=
  if String.eqb k "__proto__" then o else set_own o k v.

Definition truthy (v : value) : bool :=
  match v with
  | VUndefined | VNaN => false
  | VNum n => negb (Z.eqb n 0)
  | VStr s => nonempty s
  | VNative _ | VObjectPrototype => true
  end.

(** [a || b]. *)
Definition js_or (a b : value) : value := if truthy a then a else b.

(** [ToPrimitive]: a built-in function prints as its source text, and
    [Object.prototype] as ["[object Object]"]. *)
Definition ToPrimitive (v : value) : value :=
  match v with
  | VNative name => VStr ("function " ++ name ++ "() { [native code] }")%string
  | VObjectPrototype => VStr "[object Object]"
  | _ => v
  end.

Definition ToString (v : value) : string :=
  match ToPrimitive v with
  | VUndefined => "undefined"
  | VNaN => "NaN"
  | VNum n => string_of_Z n
  | VStr s => s
  | _ => ""
  end.

(** [a + b]: concatenation as soon as one side is a string after
    [ToPrimitive], numeric addition otherwise. *)
Definition js_add (a b : value) : value :=
  match ToPrimitive a, ToPrimitive b with
  | VStr s, y => VStr (s ++ ToString y)%string
  | x, VStr s => VStr (ToString x ++ s)%string
  | VNum m, VNum n => VNum (m + n)
  | _, _ => VNaN
  end.

(* ================================================================== *)
(** ** Embedder: [createSimpleEmbedding] *)

(** [ToInt32]: reduction to the signed 32-bit range. *)
Definition ToInt32 (z : Z) : Z :=
  let m := z mod 2 ^ 32 in
  if 2 ^ 31 <=? m then m - 2 ^ 32 else m.

(** [a << n] and [a & b] on 32-bit integers. *)
Definition shl32 (a : Z) (n : Z) : Z := ToInt32 (Z.shiftl (ToInt32 a) n).
Definition and32 (a b : Z) : Z := Z.land (ToInt32 a) (ToInt32 b).

(** The reducer [(a, b) => { a = (a << 5) - a + b.charCodeAt(0); return a & a }]. *)
Definition hash_step (a : Z) (b : ascii) : Z :=
  let a' := shl32 a 5 - a + charCodeAt b in
  and32 a' a'.

Definition hashWord (word : string) : Z :=
  fold_left hash_step (list_ascii_of_string word) 0.

(** [Math.abs(hash) % 100]. *)
Definition bucket (word : string) : nat :=
  Z.to_nat (Z.rem (Z.abs (hashWord word)) 100).

(** [words.forEach(word => { wordFreq[word] = (wordFreq[word] || 0) + 1 })]. *)
Definition count_word (wordFreq : object) (word : string) : object :=
  put wordFreq word (js_add (js_or (get wordFreq word) (VNum 0)) (VNum 1)).

Definition countWords (words : list string) : object :=
  fold_left count_word words [].

(** A key is an array index when it is the canonical decimal form of an
    integer below [2^32 - 1]; [Object.entries] lists those keys first, in
    increasing numeric order, and then the other keys in creation order. *)
Definition is_digit (c : ascii) : bool := in_range 48 57 c.

Fixpoint all_digits (s : string) : bool :=
  match s with
  | EmptyString => true
  | String c s' => (is_digit c && all_digits s')%bool
  end.

Definition digits_value (s : string) : Z :=
  fold_left (fun acc c => 10 * acc + (charCodeAt c - 48)) (list_ascii_of_string s) 0.

Definition is_array_index (k : string) : bool :=
  match k with
  | EmptyString => false
  | String c rest =>
      (all_digits k
       && (negb (N.eqb (N_of_ascii c) 48) || negb (nonempty rest))
       && (digits_value k <? 2 ^ 32 - 1))%bool
  end.

Fixpoint insert_index (e : string * value) (es : list (string * value))
  : list (string * value) :=
  match es with
  | [] => [e]
  | e' :: es' =>
      if digits_value (fst e) <=? digits_value (fst e')
      then e :: es
      else e' :: insert_index e es'
  end.

Definition sort_index (es : list (string * value)) : list (string * value) :=
  fold_right insert_index [] es.

Definition entries (o : object) : list (string * value) :=
  sort_index (filter (fun e => is_array_index (fst e)) o)
  ++ filter (fun e => negb (is_array_index (fst e))) o.

(** [embedding[i] += freq].  The index is a bucket, hence below 100 and
    inside the array ([bucket_bound]): the array is never extended. *)
Fixpoint add_at (i : nat) (freq : value) (embedding : list value) : list value :=
  match embedding, i with
  | [], _ => []
  | x :: xs, O => js_add x freq :: xs
  | x :: xs, S i' => x :: add_at i' freq xs
  end.

Definition accumulate (embedding : list value) (e : string * value) : list value :=
  add_at (bucket (fst e)) (snd e) embedding.

Definition zeros : list value := repeat (VNum 0) 100%nat.

Definition createSimpleEmbedding (text : string) : list value :=
  let words := match_words (toLowerCase text) in
  let wordFreq := countWords words in
  fold_left accumulate (entries wordFreq) zeros.

(* ================================================================== *)
(** ** Similarity ranker: [cosineSimilarity] *)

(** The arithmetic used by [cosineSimilarity].  The program runs it on
    doubles; the second instance reads the same expressions over the real
    numbers, that is, without rounding. *)
Class Arith (num : Type) := {
  zero : num;
  add : num -> num -> num;
  mul : num -> num -> num;
  div : num -> num -> num;
  sqrt : num -> num;
  (** [x === 0] *)
  is_zero : num -> bool;
  (** what [undefined] (an index past the end of an array) becomes in a
      product *)
  undefined_num : num
}.

#[export] Instance Double : Arith float := {
  zero := 0%float;
  add := PrimFloat.add;
  mul := PrimFloat.mul;
  div := PrimFloat.div;
  sqrt := PrimFloat.sqrt;
  is_zero := fun x => PrimFloat.eqb x 0%float;
  undefined_num := nan
}.

#[export] Instance Exact : Arith R := {
  zero := 0%R;
  add := Rplus;
  mul := Rmult;
  div := Rdiv;
  sqrt := R_sqrt.sqrt;
  is_zero := fun x => if Req_dec_T x 0%R then true else false;
  undefined_num := 0%R
}.

Section Ranker.
Context {num : Type} `{Arith num}.

(** [xs.reduce((acc, val, i) => f(acc, val, i), init)], the index starting
    at [i]. *)
Fixpoint reduce_from {A : Type} (f : A -> num -> nat -> A) (i : nat)
         (xs : list num) (acc : A) : A :=
  match xs with
  | [] => acc
  | x :: xs' => reduce_from f (S i) xs' (f acc x i)
  end.

Definition reduce {A : Type} (f : A -> num -> nat -> A) (xs : list num) (init : A) : A :=
  reduce_from f 0%nat xs init.

(** [b[i]] *)
Definition at_index (b : list num) (i : nat) : num := nth i b undefined_num.

Definition dotProduct (a b : list num) : num :=
  reduce (fun sum val i => add sum (mul val (at_index b i))) a zero.

Definition magnitude (a : list num) : num :=
  sqrt (reduce (fun sum val _ => add sum (mul val val)) a zero).

Definition cosineSimilarity (a b : list num) : num :=
  let magnitudeA := magnitude a in
  let magnitudeB := magnitude b in
  if (is_zero magnitudeA || is_zero magnitudeB)%bool then zero
  else div (dotProduct a b) (mul magnitudeA magnitudeB).
End Ranker.

(* ================================================================== *)
(** ** Passage selector: [findRelevantPassages] *)

(** A count (a non-negative integer) as a double; exact below [2^53]. *)
Definition float_of_Z (n : Z) : float := PrimFloat.of_uint63 (Uint63.of_Z n).

(** [ToNumber] on the entries of an embedding.  A string entry only arises
    from a [+] on a built-in function, so it contains the text [function] and
    is no numeric literal: it converts to [NaN]. *)
Definition ToNumber (v : value) : float :=
  match v with
  | VNum n => float_of_Z n
  | _ => nan
  end.

Definition numbers (embedding : list value) : list float := map ToNumber embedding.

Record scored := { sentence : string; similarity : float }.

(** The comparator [(a, b) => b.similarity - a.similarity]. *)
Definition comparator (a b : scored) : float :=
  PrimFloat.sub (similarity b) (similarity a).

(** [Array.prototype.sort] is stable, reads a [NaN] from the comparator as
    [+0], and moves [x] behind [y] only when [comparator x y > 0].  For a
    consistent comparator the result is the stable sorted arrangement, which
    this insertion sort computes; when some similarity is [NaN] the comparator
    is not consistent and the language leaves the order to the engine. *)
Fixpoint insert_scored (x : scored) (l : list scored) : list scored :=
  match l with
  | [] => [x]
  | y :: l' =>
      if PrimFloat.ltb 0%float (comparator x y) then y :: insert_scored x l'
      else x :: l
  end.

Definition sort (l : list scored) : list scored := fold_right insert_scored [] l.

(** The filter [s => s.trim().length > 30]. *)
Definition long_enough (s : string) : bool :=
  Nat.ltb 30 (String.length (trim s)).

Definition sentences_of (documentText : string) : list string :=
  filter long_enough (split_on is_terminator documentText).

Definition score (queryEmbedding : list value) (s : string) : scored :=
  {| sentence := trim s;
     similarity := cosineSimilarity (numbers queryEmbedding)
                                    (numbers (createSimpleEmbedding s)) |}.

(** [topK] is a count: [slice(0, topK)] keeps the first [topK] items. *)
Definition findRelevantPassages (query documentText : string) (topK : nat)
  : list string :=
  let queryEmbedding := createSimpleEmbedding query in
  let sentences := sentences_of documentText in
  match sentences with
  | [] => [substring0 1000 documentText]
  | _ =>
      let similarities := map (score queryEmbedding) sentences in
      map sentence (firstn topK (sort similarities))
  end.

(** The default argument [topK = 5]. *)
Definition default_topK : nat := 5.

Definition scenario_B_document : string :=
  "John Smith signed the agreement. Payment of $500 is due January 1, 2024. The warranty expires after one year.".

(* ================================================================== *)
(** ** Provider chain *)

Definition nl : string := String (ascii_of_N 10) EmptyString.
Definition dquote : string := String (ascii_of_N 34) EmptyString.

(** Lines of a template literal, joined by line feeds. *)
Definition unlines (ls : list string) : string := String.concat nl ls.

(** [process.env]: a variable is a string or [undefined]. *)
Record environment := {
  GEMINI_API_KEY : option string;
  OPENROUTER_API_KEY : option string
}.

(** [if (key)]: the key when it is a non-empty string. *)
Definition configured (key : option string) : option string :=
  match key with
  | Some k => if nonempty k then Some k else None
  | None => None
  end.

Inductive provider := Gemini | OpenRouter.

(** A template literal keeps track of where each piece comes from: the fixed
    text of the program, the document, or the user's message. *)
Inductive fragment :=
| Fixed (s : string)
| FromDocument (s : string)
| FromUser (s : string).

Definition prompt := list fragment.

Definition fragment_text (f : fragment) : string :=
  match f with Fixed s | FromDocument s | FromUser s => s end.

Definition render (p : prompt) : string :=
  String.concat EmptyString (map fragment_text p).

(** One [fetch]: the provider, the credential it is sent with and the texts
    of the body (one part for Gemini; a system and a user message for
    OpenRouter). *)
Record request := {
  target : provider;
  credential : string;
  messages : list prompt
}.

(** What a [fetch] and the reading of its body come to: an exception (network
    failure, a body that is not JSON or lacks the expected array), or a status
    with the text found at the provider's path in the body, if any. *)
Inductive response :=
| Threw
| Http (ok : bool) (text : option string).

(** The text a response yields, when the chain stops at it: the status is a
    success and the extracted text is truthy. *)
Definition usable (r : response) : option string :=
  match r with
  | Http true (Some s) => if nonempty s then Some s else None
  | _ => None
  end.

(** A computation that performs remote calls. *)
Inductive remote (A : Type) : Type :=
| Return (a : A)
| Fetch (r : request) (k : response -> remote A).

Arguments Return {A} a.
Arguments Fetch {A} r k.

(** Running a computation against a network, recording the requests sent. *)
Fixpoint run {A : Type} (network : request -> response) (c : remote A)
  : list request * A :=
  match c with
  | Return a => ([], a)
  | Fetch r k =>
      let '(sent, a) := run network (k (network r)) in (r :: sent, a)
  end.

Definition attempts {A : Type} (network : request -> response) (c : remote A)
  : list request := fst (run network c).

Definition result {A : Type} (network : request -> response) (c : remote A)
  : A := snd (run network c).

(** *** Summarisation *)

Inductive label := PERSON | DATE | MONEY | ORGANIZATION | LEGAL_TERM.

Record entity := {
  entity_text : string;
  entity_label : label;
  entity_start : nat;
  entity_end : nat
}.

Definition label_eqb (a b : label) : bool :=
  match a, b with
  | PERSON, PERSON | DATE, DATE | MONEY, MONEY
  | ORGANIZATION, ORGANIZATION | LEGAL_TERM, LEGAL_TERM => true
  | _, _ => false
  end.

Definition summary_header : string := "DOCUMENT ANALYSIS SUMMARY".

Definition gemini_summary_instructions : string :=
  unlines [
    "You are an expert legal document analyst. Provide comprehensive, professional summaries of legal documents that include:";
    "";
    "1. Document Type & Purpose";
    "2. Key Parties Involved";
    "3. Main Terms & Conditions";
    "4. Important Dates & Deadlines";
    "5. Financial Obligations";
    "6. Legal Implications";
    "7. Risk Factors";
    "";
    "Structure your response clearly and use professional legal terminology.";
    "";
    "Please provide a comprehensive executive summary of this legal document:";
    "";
    "" ].

Definition openrouter_summary_system : string :=
  "You are an expert legal document analyst. Provide comprehensive, professional summaries of legal documents.".

Definition openrouter_summary_user : string :=
  ("Please provide a comprehensive executive summary of this legal document:" ++ nl ++ nl)%string.

Definition gemini_summary_request (key text : string) : request :=
  {| target := Gemini;
     credential := key;
     messages := [ [Fixed gemini_summary_instructions;
                    FromDocument (substring0 6000 text)] ] |}.

Definition openrouter_summary_request (key text : string) : request :=
  {| target := OpenRouter;
     credential := key;
     messages := [ [Fixed openrouter_summary_system];
                   [Fixed openrouter_summary_user;
                    FromDocument (substring0 6000 text)] ] |}.

Section Summary.
(** The entity extractor of the document route is a catalogue of regular
    expressions wrapped in a [try]; it returns a list for every string.  The
    summary code only filters its result by label, so it is taken as a
    parameter. *)
Variable extractLegalEntities : string -> list entity.

Definition texts_of (l : label) (entities : list entity) : list string :=
  map entity_text (filter (fun e => label_eqb (entity_label e) l) entities).

(** [if (xs.length > 0) summary += `${title}: ${xs.slice(0, 5).join(", ")}\n\n`] *)
Definition section_of (title : string) (xs : list string) : string :=
  match xs with
  | [] => EmptyString
  | _ => (title ++ ": " ++ join ", " (firstn 5 xs) ++ nl ++ nl)%string
  end.

Definition generateBasicSummary (text : string) : string :=
  let words := split_on is_space text in
  let sentences :=
    filter (fun s => Nat.ltb 10 (String.length (trim s)))
           (split_on is_terminator text) in
  let entities := extractLegalEntities text in
  let persons := texts_of PERSON entities in
  let organizations := texts_of ORGANIZATION entities in
  let dates := texts_of DATE entities in
  let amounts := texts_of MONEY entities in
  (summary_header ++ nl ++ nl
   ++ "Document Length: " ++ string_of_nat (List.length words) ++ " words, "
   ++ string_of_nat (List.length sentences) ++ " sentences" ++ nl ++ nl
   ++ section_of "Key Individuals" persons
   ++ section_of "Organizations" organizations
   ++ section_of "Important Dates" dates
   ++ section_of "Financial Amounts" amounts
   ++ "Content Preview: "
   ++ substring0 500 (join ". " (firstn 3 sentences)) ++ "...")%string.

(** The tail of both chains: OpenRouter when its key is set, then
    [otherwise]. *)
Definition openrouter_then (env : environment) (req : string -> request)
           (otherwise : string) : remote string :=
  match configured (OPENROUTER_API_KEY env) with
  | Some key =>
      Fetch (req key) (fun r =>
        match usable r with
        | Some summary => Return summary
        | None => Return otherwise
        end)
  | None => Return otherwise
  end.

Definition generateSummary (env : environment) (text : string) : remote string :=
  match configured (GEMINI_API_KEY env) with
  | None => Return (generateBasicSummary text)
  | Some geminiApiKey =>
      Fetch (gemini_summary_request geminiApiKey text) (fun r =>
        match usable r with
        | Some summary => Return summary
        | None =>
            openrouter_then env (fun key => openrouter_summary_request key text)
                            (generateBasicSummary text)
        end)
  end.
End Summary.

(** *** Chat *)

Definition gemini_chat_head : string :=
  unlines [
    "You are LexChat, an expert legal assistant AI specializing in document analysis. You provide precise, professional, and insightful answers about legal documents.";
    "";
    "INSTRUCTIONS:";
    "- Answer questions based ONLY on the provided document context";
    "- Be concise but comprehensive in your responses";
    "- Use professional legal terminology when appropriate";
    "- If information isn't in the document, clearly state this";
    "- Provide specific references to document sections when possible";
    "- Highlight key legal implications and considerations";
    "- Structure your responses clearly with bullet points or numbered lists when helpful";
    "";
    "DOCUMENT CONTEXT:";
    "" ].

Definition gemini_chat_question : string :=
  unlines [ ""; ""; "USER QUESTION: " ].

Definition gemini_chat_tail : string :=
  unlines [ ""; "";
    "Please provide a detailed, professional response based on the document context above." ].

Definition openrouter_chat_system : string :=
  unlines [
    "You are an expert legal assistant AI. Answer questions about the provided legal document accurately and professionally.";
    "";
    "Document Context:";
    "" ].

Definition gemini_chat_request (key context message : string) : request :=
  {| target := Gemini;
     credential := key;
     messages := [ [Fixed gemini_chat_head; FromDocument context;
                    Fixed gemini_chat_question; FromUser message;
                    Fixed gemini_chat_tail] ] |}.

Definition openrouter_chat_request (key context message : string) : request :=
  {| target := OpenRouter;
     credential := key;
     messages := [ [Fixed openrouter_chat_system; FromDocument context];
                   [FromUser message] ] |}.

(** The answer when [GEMINI_API_KEY] is not set. *)
Definition chat_not_configured (message context : string) : string :=
  ("Based on the document context, I can see information related to your question about "
   ++ dquote ++ message ++ dquote
   ++ ". However, the AI service is not configured. Please set up your GEMINI_API_KEY in the .env file to get detailed AI-powered responses."
   ++ nl ++ nl
   ++ "Here's the relevant context from the document:" ++ nl
   ++ substring0 500 context ++ "...")%string.

(** The answer when every provider failed. *)
Definition chat_context_dump (message context : string) : string :=
  ("Based on your question about " ++ dquote ++ message ++ dquote
   ++ ", here's what I found in the document:" ++ nl ++ nl
   ++ context ++ nl ++ nl
   ++ "Note: AI services are currently unavailable. This is a basic context-based response. For detailed AI analysis, please configure your API keys in the .env file.")%string.

Definition chat_context (message documentText : string) : string :=
  join (nl ++ nl)%string (findRelevantPassages message documentText default_topK).

Definition generateChatResponse (env : environment) (message documentText : string)
  : remote string :=
  let context := chat_context message documentText in
  match configured (GEMINI_API_KEY env) with
  | None => Return (chat_not_configured message context)
  | Some geminiApiKey =>
      Fetch (gemini_chat_request geminiApiKey context message) (fun r =>
        match usable r with
        | Some chatResponse => Return chatResponse
        | None =>
            openrouter_then env (fun key => openrouter_chat_request key context message)
                            (chat_context_dump message context)
        end)
  end.

(** The document-derived pieces of a request. *)
Definition document_content (r : request) : list string :=
  flat_map (fun p => flat_map (fun f => match f with FromDocument s => [s] | _ => [] end) p)
           (messages r).

(** The polynomial hash in the words of the design: [hash = hash*31 + charCode],
    wrapped to the signed 32-bit range at each step. *)
Definition hash32 (word : string) : Z :=
  fold_left (fun h c => ToInt32 (h * 31 + charCodeAt c)) (list_ascii_of_string word) 0.

(** The vector that holds [x] in bucket [i], [y] in bucket [j] and [0]
    elsewhere. *)
Definition two_buckets (i : nat) (x : Z) (j : nat) (y : Z) : list value :=
  map (fun n => if Nat.eqb n i then VNum x else if Nat.eqb n j then VNum y else VNum 0)
      (seq 0 100).

Definition is_number (v : value) : bool :=
  match v with VNum _ => true | _ => false end.

(** A document whose only fragment has exactly 30 characters. *)
Definition thirty_document : string := "Payment is due within ten days.".

(** A document that is one unpunctuated run of 6001 letters. *)
Definition long_document : string :=
  string_of_list_ascii (repeat "a"%char 6001).

Definition no_keys : environment :=
  {| GEMINI_API_KEY := None; OPENROUTER_API_KEY := None |}.

Definition only_openrouter : environment :=
  {| GEMINI_API_KEY := None; OPENROUTER_API_KEY := Some "sk-or-v1-key" |}.

Definition both_keys : environment :=
  {| GEMINI_API_KEY := Some "gemini-key"; OPENROUTER_API_KEY := Some "sk-or-v1-key" |}.

(** A network on which every call fails. *)
Definition unreachable : request -> response := fun _ => Threw.

(** A network on which every call succeeds with a text. *)
Definition answering : request -> response := fun _ => Http true (Some "An answer.").

(** An extractor that finds nothing. *)
Definition no_entities : string -> list entity := fun _ => [].

(** The sums behind [dotProduct] and [magnitude], over the reals. *)
Fixpoint dot_sum (a b : list R) : R :=
  match a with
  | [] => 0%R
  | x :: a' => (x * hd 0%R b + dot_sum a' (tl b))%R
  end.

Fixpoint square_sum (a : list R) : R :=
  match a with
  | [] => 0%R
  | x :: a' => (x * x + square_sum a')%R
  end.

(** A vector of length 100 with non-negative components: three ones. *)
Definition three_ones : list float := [1; 1; 1]%float ++ repeat 0%float 97.

Definition zero_vector : list float := repeat 0%float 100.

(** [Number.isNaN]: a double differs from itself exactly when it is [NaN]. *)
Definition is_NaN (x : float) : bool := negb (PrimFloat.eqb x x).

(** The similarity of a passage to a query, from their embeddings. *)
Definition passage_similarity (query passage : string) : float :=
  cosineSimilarity (numbers (createSimpleEmbedding query))
                   (numbers (createSimpleEmbedding passage)).

(** A word that resolves to nothing on [Object.prototype]. *)
Definition plain_word (w : string) : Prop := inherited w = VUndefined.

(** The number held by a value, 0 when it is not a number. *)
Definition number_of (v : value) : Z :=
  match v with VNum n => n | _ => 0 end.

Definition total (o : object) : Z :=
  fold_right (fun e acc => number_of (snd e) + acc) 0 o.

Definition is_count (e : string * value) : Prop :=
  exists n, snd e = VNum n /\ 1 <= n.

Definition sum_Z (ns : list Z) : Z := fold_right Z.add 0 ns.

Fixpoint has_capital (s : string) : bool :=
  match s with
  | EmptyString => false
  | String c s' => (in_range 65 90 c || has_capital s')%bool
  end.

(** Non-increasing order of two ranked passages, and of two passages ranked
    against a query. *)
Definition descending (x y : scored) : Prop :=
  PrimFloat.leb (similarity y) (similarity x) = true.

Definition descending_for (query : string) (p p' : string) : Prop :=
  PrimFloat.leb (passage_similarity query p') (passage_similarity query p) = true.

Definition not_NaN (x : scored) : Prop := is_NaN (similarity x) = false.

(** Outcomes of a rounding that carry the sign they were given. *)
Definition positive_result (x : spec_float) : Prop :=
  match x with
  | S754_finite false _ _ | S754_infinity false => True
  | _ => False
  end.

Definition nonpositive_result (x : spec_float) : Prop :=
  match x with
  | S754_finite true _ _ | S754_infinity true | S754_zero _ | S754_nan => True
  | _ => False
  end.

(** The environment variable that holds the key of a provider. *)
Definition key_of (env : environment) (p : provider) : option string :=
  match p with
  | Gemini => GEMINI_API_KEY env
  | OpenRouter => OPENROUTER_API_KEY env
  end.

(** A request failed on a network: no usable text came back. *)
Definition failed (network : request -> response) (r : request) : Prop :=
  usable (network r) = None.

(** How a run of a chain ends: either every request sent failed and the
    answer is the local one, or the last request sent succeeded, the ones
    before it failed, and the answer is its text. *)
Definition chain_outcome (network : request -> response) (local : string)
           (sent : list request) (answer : string) : Prop :=
  (Forall (failed network) sent /\ answer = local)
  \/ (exists before r,
        sent = before ++ [r]
        /\ Forall (failed network) before
        /\ usable (network r) = Some answer).

(** The local answer of the chat path: the "not configured" text without a
    Gemini key, the context dump otherwise. *)
Definition chat_local_answer (env : environment) (message documentText : string)
  : string :=
  match configured (GEMINI_API_KEY env) with
  | None => chat_not_configured message (chat_context message documentText)
  | Some _ => chat_context_dump message (chat_context message documentText)
  end.

(** A network that answers with HTTP 200 and an empty text. *)
Definition empty_answers : request -> response := fun _ => Http true (Some EmptyString).
(* ================================================================== *)
(** ** The chat endpoint: [POST] of [app/api/chat/route.ts] *)

(** Sequencing of computations that perform remote calls ([await]). *)
Fixpoint bind {A B : Type} (c : remote A) (f : A -> remote B) : remote B :=
  match c with
  | Return a => f a
  | Fetch r k => Fetch r (fun x => bind (k x) f)
  end.

(** A field of the parsed JSON body, as the handler sees it. *)
Inductive json :=
| JUndefined
| JNull
| JBoolean (b : bool)
| JNumber (x : float)
| JString (s : string)
| JObject.

(** [!v] *)
Definition json_falsy (v : json) : bool :=
  match v with
  | JUndefined | JNull => true
  | JBoolean b => negb b
  | JNumber x => (PrimFloat.eqb x 0%float || is_NaN x)%bool
  | JString s => negb (nonempty s)
  | JObject => false
  end.

(** [typeof v !== "string"] *)
Definition not_a_string (v : json) : bool :=
  match v with JString _ => false | _ => true end.

(** The guard [!v || typeof v !== "string"]. *)
Definition missing (v : json) : bool := (json_falsy v || not_a_string v)%bool.

(** The string held by a field that passed the guard. *)
Definition string_of_json (v : json) : string :=
  match v with JString s => s | _ => EmptyString end.

(** What [await request.json()] and the destructuring
    [const { message, documentText } = body] come to: an exception (the body
    is not JSON, or it is [null]), or the two fields, [undefined] when the
    body has no such member. *)
Inductive chat_body :=
| Unreadable
| Fields (message documentText : json).

(** [NextResponse.json(...)]: an error with its status, or an answer. *)
Inductive chat_reply :=
| Rejected (status : nat) (error : string)
| Answered (status : nat) (response model : string).

Definition chat_apology : string :=
  "I apologize, but I encountered an error while processing your question. Please try rephrasing your question or check if the document was uploaded correctly.".

Module ChatRoute.
Definition POST (env : environment) (body : chat_body) : remote chat_reply :=
  match body with
  | Unreadable => Return (Answered 200 chat_apology "fallback")
  | Fields message documentText =>
      if missing message then Return (Rejected 400 "No message provided")
      else if missing documentText
      then Return (Rejected 400 "No document context available")
      else
        bind (generateChatResponse env (string_of_json message)
                                   (string_of_json documentText))
             (fun response => Return (Answered 200 response "gemini-2.0-flash"))
  end.
End ChatRoute.

(** A network on which Gemini fails and OpenRouter answers. *)
Definition only_openrouter_answers : request -> response :=
  fun r => match target r with
           | Gemini => Http false None
           | OpenRouter => Http true (Some "From OpenRouter.")
           end.
(* ================================================================== *)
(** ** Suggested questions: [generateSuggestedQuestions] *)

(** [hay.includes(needle)] *)
Fixpoint includes (needle hay : string) : bool :=
  (String.prefix needle hay
   || match hay with
      | EmptyString => false
      | String _ hay' => includes needle hay'
      end)%bool.

(** [[...new Set(xs)]]: the elements in the order of their first occurrence.
    [seen] holds what the set already contains. *)
Fixpoint unique_from {A : Type} (same : A -> A -> bool) (seen xs : list A) : list A :=
  match xs with
  | [] => []
  | x :: xs' =>
      if existsb (same x) seen then unique_from same seen xs'
      else x :: unique_from same (x :: seen) xs'
  end.

Definition unique_strings (xs : list string) : list string :=
  unique_from String.eqb [] xs.

Definition with_label (l : label) (entities : list entity) : list entity :=
  filter (fun e => label_eqb (entity_label e) l) entities.

(** [if (xs.length > 0) { questions.push(general); questions.push(about(xs[0].text)) }] *)
Definition entity_questions (xs : list entity) (general : string)
           (about : string -> string) : list string :=
  match xs with
  | [] => []
  | x :: _ => [general; about (entity_text x)]
  end.

(** [if (xs.length > 0) { questions.push(q1); questions.push(q2) }] *)
Definition presence_questions (xs : list entity) (q1 q2 : string) : list string :=
  match xs with
  | [] => []
  | _ :: _ => [q1; q2]
  end.

(** [if (textLower.includes(a) || textLower.includes(b)) { ...push(q1); ...push(q2) }] *)
Definition topic_questions (textLower a b q1 q2 : string) : list string :=
  if (includes a textLower || includes b textLower)%bool then [q1; q2] else [].

Definition responsibilities_of (name : string) : string :=
  ("What are the responsibilities of " ++ name ++ "?")%string.

Definition role_of (name : string) : string :=
  ("What is the role of " ++ name ++ "?")%string.

(** The questions pushed, in order, before the set and the slice.  (The [try]
    of the source guards operations that are total on a string and an array
    of entities.) *)
Definition candidate_questions (text : string) (entities : list entity) : list string :=
  let persons := with_label PERSON entities in
  let organizations := with_label ORGANIZATION entities in
  let dates := with_label DATE entities in
  let amounts := with_label MONEY entities in
  let textLower := toLowerCase text in
  [ "What is the main purpose of this document?";
    "What are the key terms and conditions?" ]
  ++ entity_questions persons
       "Who are the main parties involved in this document?" responsibilities_of
  ++ entity_questions organizations
       "What organizations are mentioned in this document?" role_of
  ++ presence_questions dates
       "What are the important dates and deadlines?"
       "When does this agreement take effect?"
  ++ presence_questions amounts
       "What are the financial obligations mentioned?"
       "What payment terms are specified?"
  ++ topic_questions textLower "contract" "agreement"
       "What happens if either party breaches this contract?"
       "How can this agreement be terminated?"
  ++ topic_questions textLower "lease" "rental"
       "What are the lease terms and rental amount?"
       "What are the tenant's and landlord's responsibilities?"
  ++ topic_questions textLower "employment" "job"
       "What are the employment terms and benefits?"
       "What are the grounds for termination?"
  ++ topic_questions textLower "privacy" "data"
       "How is personal data collected and used?"
       "What are the privacy rights and protections?"
  ++ topic_questions textLower "liability" "insurance"
       "What are the liability limitations?"
       "What insurance requirements are specified?".

Definition generateSuggestedQuestions (text : string) (entities : list entity)
  : list string :=
  firstn 6 (unique_strings (candidate_questions text entities)).

Definition sample_person : entity :=
  {| entity_text := "John Smith"; entity_label := PERSON;
     entity_start := 0; entity_end := 10 |}.

Definition sample_organization : entity :=
  {| entity_text := "Acme Holdings"; entity_label := ORGANIZATION;
     entity_start := 40; entity_end := 53 |}.

Definition sample_amount : entity :=
  {| entity_text := "$500"; entity_label := MONEY;
     entity_start := 70; entity_end := 74 |}.

Definition sample_entities : list entity :=
  [sample_person; sample_organization; sample_amount].
(* ================================================================== *)
(** ** What the embedding holds *)

(** The number of words that fall into bucket [i]. *)
Definition bucket_count (i : nat) (words : list string) : Z :=
  Z.of_nat (List.length (filter (fun w => Nat.eqb (bucket w) i) words)).

(** The counts of a frequency table that go to bucket [i]. *)
Definition bucket_total (i : nat) (o : object) : Z :=
  total (filter (fun e => Nat.eqb (bucket (fst e)) i) o).

(** Every character of a string satisfies [p]. *)
Fixpoint every_char (p : ascii -> bool) (s : string) : bool :=
  match s with
  | EmptyString => true
  | String c s' => (p c && every_char p s')%bool
  end.

(* ================================================================== *)
(** ** The ranking behind [findRelevantPassages] *)

(** The array [similarities] after [sort]: every qualifying fragment with its
    score, best first. *)
Definition ranking (query documentText : string) : list scored :=
  sort (map (score (createSimpleEmbedding query)) (sentences_of documentText)).

(** The ranked passages whose similarity equals [v]. *)
Definition scoring (v : float) (l : list scored) : list scored :=
  filter (fun x => PrimFloat.eqb (similarity x) v) l.

(** A passage as the selector returns it: no sentence terminator inside, no
    white space around, more than 30 characters. *)
Definition well_formed_passage (p : string) : Prop :=
  every_char (fun c => negb (is_terminator c)) p = true
  /\ trim p = p
  /\ (31 <= String.length p)%nat.

Definition tie_document : string :=
  "The tenant pays the rent monthly. The landlord pays the tax yearly. The rent is due on the first day".

(* ================================================================== *)
(** ** Entity de-duplication: the tail of [extractLegalEntities] *)

(** [self.findIndex(p)]: the index of the first element that satisfies [p],
    [-1] when there is none. *)
Fixpoint findIndex_from {A : Type} (p : A -> bool) (i : nat) (self : list A) : Z :=
  match self with
  | [] => -1
  | x :: self' => if p x then Z.of_nat i else findIndex_from p (S i) self'
  end.

Definition findIndex {A : Type} (p : A -> bool) (self : list A) : Z :=
  findIndex_from p 0 self.

(** [self.filter((x, index) => p(x, index))] *)
Fixpoint filter_from {A : Type} (p : A -> nat -> bool) (i : nat) (self : list A) : list A :=
  match self with
  | [] => []
  | x :: self' =>
      if p x i then x :: filter_from p (S i) self' else filter_from p (S i) self'
  end.

Definition filter_indexed {A : Type} (p : A -> nat -> bool) (self : list A) : list A :=
  filter_from p 0 self.

(** [e.text === entity.text && e.label === entity.label] *)
Definition same_entity (e entity : entity) : bool :=
  (String.eqb (entity_text e) (entity_text entity)
   && label_eqb (entity_label e) (entity_label entity))%bool.

(** [entities.filter((entity, index, self) => index === self.findIndex(...))] *)
Definition first_pushed (entities : list entity) : list entity :=
  filter_indexed
    (fun entity index =>
       Z.eqb (Z.of_nat index) (findIndex (fun e => same_entity e entity) entities))
    entities.

(** The filter of [first_pushed], run on the part [l] of [entities] that
    follows [pre]. *)
Definition pushed_after (entities pre l : list entity) : list entity :=
  filter_from (fun entity index =>
                 Z.eqb (Z.of_nat index) (findIndex (fun e => same_entity e entity) entities))
              (List.length pre) l.

(** The comparator [(a, b) => a.start - b.start]. *)
Definition by_start (a b : entity) : Z :=
  Z.of_nat (entity_start a) - Z.of_nat (entity_start b).

(** The stable sort under [by_start]: [x] moves behind [y] only when
    [by_start x y > 0]. *)
Fixpoint insert_entity (x : entity) (l : list entity) : list entity :=
  match l with
  | [] => [x]
  | y :: l' => if Z.ltb 0 (by_start x y) then y :: insert_entity x l' else x :: l
  end.

Definition sort_entities (l : list entity) : list entity :=
  fold_right insert_entity [] l.

(** [const uniqueEntities = entities.filter(...).sort(...)] *)
Definition uniqueEntities (entities : list entity) : list entity :=
  sort_entities (first_pushed entities).

(** What identifies an entity for the filter: its text and its label. *)
Definition entity_key (e : entity) : string * label :=
  (entity_text e, entity_label e).

Definition starts_ascend (a b : entity) : Prop :=
  (entity_start a <= entity_start b)%nat.

(** The same party matched twice, by a later pattern at an earlier place. *)
Definition pushed_entities : list entity :=
  [ {| entity_text := "Acme Corp"; entity_label := ORGANIZATION;
       entity_start := 40; entity_end := 49 |};
    {| entity_text := "John Smith"; entity_label := PERSON;
       entity_start := 12; entity_end := 22 |};
    {| entity_text := "Acme Corp"; entity_label := ORGANIZATION;
       entity_start := 3; entity_end := 12 |} ].

(* ================================================================== *)
(** ** Document upload: [POST] of the document route *)

(** [s.endsWith(suffix)] *)
Definition endsWith (suffix s : string) : bool :=
  let n := String.length s in
  let m := String.length suffix in
  (Nat.leb m n && String.eqb (String.substring (n - m) m s) suffix)%bool.

(** [s.replace(/[C]+/g, fill)] for a character class [C] and a replacement
    of one character: every maximal run of the class becomes [fill].
    [in_run] says that the previous character was in the class. *)
Fixpoint replace_runs (class : ascii -> bool) (fill : ascii) (in_run : bool) (s : string)
  : string :=
  match s with
  | EmptyString => EmptyString
  | String c s' =>
      if class c
      then if in_run then replace_runs class fill true s'
           else String fill (replace_runs class fill true s')
      else String c (replace_runs class fill false s')
  end.

(** [s.replace(/\s+/g, " ")] *)
Definition collapse_spaces (s : string) : string :=
  replace_runs is_space " "%char false s.

(** An uploaded [File]; the content is the buffer, one character per byte. *)
Record file := {
  file_name : string;
  file_type : string;
  file_size : Z;
  file_content : string
}.

(** What [request.formData()] and [formData.get("file")] give the handler:
    [formData()] throws, there is no entry, the entry is a text field, or it
    is a file. *)
Inductive upload :=
| NoForm
| NoEntry
| TextEntry (s : string)
| FileEntry (f : file).

(** The state of the [uploads] directory and the outcome of the two file
    system calls. *)
Record disk := {
  uploads_exists : bool;
  mkdir_succeeds : bool;
  writeFile_succeeds : bool
}.

(** The file system calls made: [mkdir(uploadsDir)] and
    [writeFile(path.join(uploadsDir, name), buffer)]. *)
Inductive disk_call :=
| Mkdir
| WriteFile (name content : string).

Record fileInfo := {
  info_name : string;
  info_type : string;
  info_size : Z;
  textLength : nat
}.

Record analysis := {
  entities : list entity;
  summary : string;
  fullText : string;
  processingMethod : string;
  suggestedQuestions : list string;
  info : fileInfo
}.

Inductive document_reply :=
| Refused (status : Z) (error : string)
| Analysed (result : analysis).

(** The text extractors that the handler calls and that are not embedded: the
    PDF scraper, the match of the readable-text pattern on the ASCII reading
    of the buffer ([null] or the matches), the [mammoth] and [tesseract.js]
    wrappers, and UTF-8 decoding.  Each of them catches its own exceptions
    and returns a string. *)
Record extractors := {
  extractTextFromPDF : string -> string;
  readable_runs : string -> option (list string);
  processWord : string -> string;
  processImage : string -> string;
  utf8 : string -> string
}.

Inductive extraction :=
| Unsupported
| Extracted (extractedText processingMethod : string).

Definition size_limit : Z := 10 * 1024 * 1024.

(** The reply of the outer [catch]. *)
Definition error_recovery : analysis :=
  {| entities := [];
     summary := "Document processing encountered an error. The file may be corrupted or in an unsupported format. Please try uploading a different file or contact support if the issue persists.";
     fullText := "Error processing document";
     processingMethod := "Error Recovery";
     suggestedQuestions :=
       [ "What file formats are supported?";
         "How can I convert my document to a supported format?";
         "What should I do if my file won't process?" ];
     info := {| info_name := "Unknown"; info_type := "Unknown";
                info_size := 0; textLength := 0 |} |}.

(** The text put in place of a blank extraction. *)
Definition file_analysis (f : file) (method : string) : string :=
  unlines
    [ "File Analysis: " ++ file_name f;
      "File Type: " ++ file_type f;
      "File Size: " ++ string_of_Z (file_size f) ++ " bytes";
      "Processing Method: " ++ method;
      "";
      "This file could not be processed for text extraction. It may be:";
      "- An image-only PDF or scanned document";
      "- A corrupted file";
      "- An unsupported format variant";
      "- A file requiring specialized processing";
      "";
      "Please try:";
      "1. Converting to a text-based PDF";
      "2. Using a different file format";
      "3. Ensuring the file is not corrupted" ]%string.

(** [!extractedText || extractedText.trim().length === 0] *)
Definition blank (text : string) : bool :=
  (String.eqb text EmptyString || Nat.eqb (String.length (trim text)) 0)%bool.

Definition unsupported_type (f : file) : string :=
  ("Unsupported file type: " ++ file_type f
   ++ ". Supported formats: PDF, Word (.docx, .doc), images, and text files.")%string.

Module DocumentRoute.
Section Handler.
Variable extractLegalEntities : string -> list entity.
Variable tools : extractors.

(** The dispatch on the type and the name of the file.  No call inside the
    inner [try] throws, so its [catch] is not entered. *)
Definition extract (f : file) : extraction :=
  let buffer := file_content f in
  if (String.eqb (file_type f) "application/pdf"
      || endsWith ".pdf" (toLowerCase (file_name f)))%bool
  then
    let extractedText := extractTextFromPDF tools buffer in
    if Nat.ltb (String.length extractedText) 50
    then match readable_runs tools buffer with
         | Some readableText =>
             Extracted (trim (collapse_spaces (join " " readableText)))
                       "PDF ASCII Extraction"
         | None => Extracted extractedText "Enhanced PDF Analysis"
         end
    else Extracted extractedText "Enhanced PDF Analysis"
  else if (includes "word" (file_type f)
           || endsWith ".docx" (file_name f)
           || endsWith ".doc" (file_name f))%bool
  then Extracted (processWord tools buffer) "Word Document Analysis"
  else if String.prefix "image/" (file_type f)
  then Extracted (processImage tools buffer) "OCR Text Recognition"
  else if (String.eqb (file_type f) "text/plain"
           || endsWith ".txt" (toLowerCase (file_name f)))%bool
  then Extracted (utf8 tools buffer) "Plain Text Analysis"
  else Unsupported.

(** From the blank check to the reply. *)
Definition analyse (env : environment) (f : file) (extracted method : string)
  : remote document_reply :=
  let extractedText :=
    if blank extracted then file_analysis f method else extracted in
  let entities := extractLegalEntities extractedText in
  let suggestedQuestions := generateSuggestedQuestions extractedText entities in
  bind (generateSummary extractLegalEntities env extractedText)
       (fun summary =>
          Return (Analysed
                    {| entities := entities;
                       summary := summary;
                       fullText := extractedText;
                       processingMethod := method;
                       suggestedQuestions := suggestedQuestions;
                       info := {| info_name := file_name f;
                                  info_type := file_type f;
                                  info_size := file_size f;
                                  textLength := String.length extractedText |} |})).

(** The handler: the file system calls it makes, then the remote part.  A
    text field has no [size], passes the size check and fails at
    [file.arrayBuffer()], after the directory has been created. *)
Definition POST (env : environment) (d : disk) (u : upload)
  : list disk_call * remote document_reply :=
  let made := if uploads_exists d then [] else [Mkdir] in
  let directory_ready := (uploads_exists d || mkdir_succeeds d)%bool in
  match u with
  | NoForm => ([], Return (Analysed error_recovery))
  | NoEntry => ([], Return (Refused 400 "No file provided"))
  | TextEntry s =>
      if String.eqb s EmptyString then ([], Return (Refused 400 "No file provided"))
      else (made, Return (Analysed error_recovery))
  | FileEntry f =>
      if Z.ltb size_limit (file_size f)
      then ([], Return (Refused 400 "File too large. Maximum size is 10MB."))
      else if negb directory_ready then (made, Return (Analysed error_recovery))
      else
        let saved := made ++ [WriteFile (file_name f) (file_content f)] in
        if negb (writeFile_succeeds d) then (saved, Return (Analysed error_recovery))
        else match extract f with
             | Unsupported => (saved, Return (Refused 400 (unsupported_type f)))
             | Extracted extractedText method =>
                 (saved, analyse env f extractedText method)
             end
  end.

End Handler.
End DocumentRoute.

(** Uploads that are answered before the file system is touched. *)
Definition turned_away (u : upload) : Prop :=
  match u with
  | NoForm | NoEntry => True
  | TextEntry s => s = EmptyString
  | FileEntry f => size_limit < file_size f
  end.

Definition working_disk : disk :=
  {| uploads_exists := false; mkdir_succeeds := true; writeFile_succeeds := true |}.

Definition no_tools : extractors :=
  {| extractTextFromPDF := fun _ => EmptyString;
     readable_runs := fun _ => None;
     processWord := fun _ => EmptyString;
     processImage := fun _ => EmptyString;
     utf8 := fun buffer => buffer |}.

Definition huge_file : file :=
  {| file_name := "scan.pdf"; file_type := "application/pdf";
     file_size := 10485761; file_content := "%PDF" |}.

Definition archive_file : file :=
  {| file_name := "bundle.zip"; file_type := "application/zip";
     file_size := 4; file_content := "PK34" |}.

(* ================================================================== *)
(** ** The word count of the basic summary *)

(** The words of a text: the non-empty pieces between runs of white space. *)
Definition words_of (text : string) : list string :=
  filter nonempty (split_on is_space text).

Definition starts_with_space (s : string) : bool :=
  match s with
  | EmptyString => false
  | String c _ => is_space c
  end.

(** The last character of [s] is in the class [sep]. *)
Fixpoint ends_in (sep : ascii -> bool) (s : string) : bool :=
  match s with
  | EmptyString => false
  | String c EmptyString => sep c
  | String _ s' => ends_in sep s'
  end.

Definition ends_with_space (s : string) : bool := ends_in is_space s.

(** What [text.split(/\s+/).length] counts besides the words: the empty
    piece before leading and after trailing white space, and the single empty
    piece of the empty text. *)
Definition margin_pieces (text : string) : nat :=
  match text with
  | EmptyString => 1
  | _ => Nat.b2n (starts_with_space text) + Nat.b2n (ends_with_space text)
  end.

Definition count_empty (pieces : list string) : nat :=
  List.length (filter (fun p => negb (nonempty p)) pieces).

(* ================================================================== *)
(** ** The page: from an upload to a chat request *)

(** [onDrop]: the analysis held by the page after an upload.  It is reset to
    [null] when the upload starts and set to the reply only when the status
    is a success. *)
Definition analysis_after (reply : document_reply) : option analysis :=
  match reply with
  | Analysed result => Some result
  | Refused _ _ => None
  end.

(** [handleChatSubmit]: the body posted to the chat route, after the guard
    [if (!chatInput.trim() || !analysis) return]. *)
Definition handleChatSubmit (chatInput : string) (held : option analysis)
  : option chat_body :=
  match held with
  | Some analysis =>
      if String.eqb (trim chatInput) EmptyString then None
      else Some (Fields (JString chatInput) (JString (fullText analysis)))
  | None => None
  end.

(* ================================================================== *)
(** ** Helpers of [lib/utils.ts]: [slugify] *)

Definition is_dash (c : ascii) : bool := N.eqb (N_of_ascii c) 45.

(** The class [[\w\s-]]: what [replace(/[^\w\s-]/g, "")] keeps. *)
Definition slug_source_char (c : ascii) : bool :=
  (is_word_char c || is_space c || is_dash c)%bool.

(** The class [[\s_-]]. *)
Definition slug_separator (c : ascii) : bool :=
  (is_space c || N.eqb (N_of_ascii c) 95 || is_dash c)%bool.

(** [s.replace(/[^C]/g, "")]: the characters of the class [C], in order. *)
Fixpoint keep_chars (class : ascii -> bool) (s : string) : string :=
  match s with
  | EmptyString => EmptyString
  | String c s' =>
      if class c then String c (keep_chars class s') else keep_chars class s'
  end.

(** [s.replace(/^-+|-+$/g, "")]: the run of dashes at the start and the run
    at the end are removed. *)
Fixpoint strip_leading (class : ascii -> bool) (s : string) : string :=
  match s with
  | EmptyString => EmptyString
  | String c s' => if class c then strip_leading class s' else s
  end.

Fixpoint strip_trailing (class : ascii -> bool) (s : string) : string :=
  match s with
  | EmptyString => EmptyString
  | String c s' =>
      match strip_trailing class s' with
      | EmptyString => if class c then EmptyString else String c EmptyString
      | t => String c t
      end
  end.

Definition slugify (text : string) : string :=
  strip_trailing is_dash
    (strip_leading is_dash
       (replace_runs slug_separator "-"%char false
          (keep_chars slug_source_char (toLowerCase text)))).

(** The alphabet of a slug: [a-z], [0-9] and the dash. *)
Definition slug_char (c : ascii) : bool :=
  (in_range 97 122 c || in_range 48 57 c || is_dash c)%bool.

(** No two neighbours of [s] are both in [class]; [after] says that the
    character before [s] is in the class. *)
Fixpoint no_neighbours (class : ascii -> bool) (after : bool) (s : string) : bool :=
  match s with
  | EmptyString => true
  | String c s' =>
      (negb (after && class c) && no_neighbours class (class c) s')%bool
  end.

Definition starts_in (class : ascii -> bool) (s : string) : bool :=
  match s with
  | EmptyString => false
  | String c _ => class c
  end.

(** A well-formed slug: only [a-z0-9-], no dash at either end, no two dashes
    in a row. *)
Definition is_slug (s : string) : bool :=
  (every_char slug_char s
   && negb (starts_in is_dash s)
   && negb (ends_in is_dash s)
   && no_neighbours is_dash false s)%bool.

(* ================================================================== *)
(** ** Helpers of [lib/utils.ts]: file names, chunks, truncation *)

(** [s.lastIndexOf(c)] for a one-character [c]: the position of the last
    occurrence, [-1] when there is none.  [i] is the position of the first
    character of [s]. *)
Fixpoint lastIndexOf_from (c : ascii) (i : Z) (s : string) : Z :=
  match s with
  | EmptyString => -1
  | String x s' =>
      let later := lastIndexOf_from c (i + 1) s' in
      if Z.leb 0 later then later
      else if Ascii.eqb x c then i else -1
  end.

Definition lastIndexOf (c : ascii) (s : string) : Z := lastIndexOf_from c 0 s.

(** [x >>> 0]: [ToUint32]. *)
Definition ToUint32 (z : Z) : Z := z mod 2 ^ 32.

(** A relative index of [slice]: counted from the end when negative, and
    clamped to [0 .. len]. *)
Definition relative_index (k len : Z) : Z :=
  if Z.ltb k 0 then Z.max (len + k) 0 else Z.min k len.

Fixpoint drop (n : nat) (s : string) : string :=
  match n, s with
  | O, _ => s
  | S n', String _ s' => drop n' s'
  | S _, EmptyString => EmptyString
  end.

(** [s.slice(start)] *)
Definition slice_from (start : Z) (s : string) : string :=
  drop (Z.to_nat (relative_index start (Z.of_nat (String.length s)))) s.

(** [s.slice(0, stop)] *)
Definition slice_to (stop : Z) (s : string) : string :=
  substring0 (Z.to_nat (relative_index stop (Z.of_nat (String.length s)))) s.

Definition getFileExtension (filename : string) : string :=
  slice_from (ToUint32 (lastIndexOf "."%char filename - 1) + 2) filename.

Definition is_dot (c : ascii) : bool := Ascii.eqb c "."%char.

Definition no_dot (s : string) : bool := every_char (fun c => negb (is_dot c)) s.

(** The object literal [mimeTypes]; like every object literal it inherits
    from [Object.prototype]. *)
Definition mimeTypes : object :=
  [ ("pdf", VStr "application/pdf");
    ("doc", VStr "application/msword");
    ("docx", VStr "application/vnd.openxmlformats-officedocument.wordprocessingml.document");
    ("txt", VStr "text/plain");
    ("jpg", VStr "image/jpeg");
    ("jpeg", VStr "image/jpeg");
    ("png", VStr "image/png");
    ("gif", VStr "image/gif");
    ("bmp", VStr "image/bmp");
    ("tiff", VStr "image/tiff") ].

Definition getMimeType (filename : string) : value :=
  let ext := toLowerCase (getFileExtension filename) in
  js_or (get mimeTypes ext) (VStr "application/octet-stream").

(** [a.slice(start, stop)] on an array. *)
Definition slice {A : Type} (start stop : Z) (a : list A) : list A :=
  let len := Z.of_nat (List.length a) in
  let from := relative_index start len in
  let to := relative_index stop len in
  firstn (Z.to_nat (to - from)) (skipn (Z.to_nat from) a).

(** The loop of [chunk], for an integer [size]:
    [for (i = 0; i < array.length; i += size) chunks.push(array.slice(i, i + size))].
    [fuel] bounds the number of rounds; [None] when it runs out. *)
Fixpoint chunk_from {A : Type} (fuel : nat) (array : list A) (size i : Z)
  : option (list (list A)) :=
  if Z.ltb i (Z.of_nat (List.length array)) then
    match fuel with
    | O => None
    | S fuel' =>
        option_map (cons (slice i (i + size) array))
                   (chunk_from fuel' array size (i + size))
    end
  else Some [].

Definition chunk {A : Type} (fuel : nat) (array : list A) (size : Z)
  : option (list (list A)) :=
  chunk_from fuel array size 0.

(** [truncateText], for an integer [maxLength]. *)
Definition truncateText (text : string) (maxLength : Z) : string :=
  if Z.leb (Z.of_nat (String.length text)) maxLength then text
  else (slice_to maxLength text ++ "...")%string.

(* ================================================================== *)
(** * Properties *)

(** ** Strings *)

Lemma substring0_length (n : nat) (s : string) :
  (String.length (substring0 n s) <= n)%nat.
Proof.
  unfold substring0. revert s.
  induction n as [|n IH]; intros [|c s]; simpl; try lia.
  specialize (IH s). lia.
Qed.

(** *** Trimming does not change the words of a string *)

Lemma is_space_lower (c : ascii) : is_space (lower_unit c) = is_space c.
Proof. destruct c as [[] [] [] [] [] [] [] []]; reflexivity. Qed.

Lemma space_is_not_word (c : ascii) :
  is_space c = true -> negb (is_word_char c) = true.
Proof. destruct c as [[] [] [] [] [] [] [] []]; intros H; try reflexivity; discriminate H. Qed.

Lemma toLowerCase_trimStart (s : string) :
  toLowerCase (trimStart s) = trimStart (toLowerCase s).
Proof.
  induction s as [|c s IH]; [reflexivity|].
  cbn [trimStart toLowerCase]. rewrite is_space_lower.
  destruct (is_space c); [exact IH | reflexivity].
Qed.

Lemma toLowerCase_trimEnd (s : string) :
  toLowerCase (trimEnd s) = trimEnd (toLowerCase s).
Proof.
  induction s as [|c s IH]; [reflexivity|].
  cbn [trimEnd toLowerCase]. rewrite <- IH, is_space_lower.
  destruct (trimEnd s) as [|c' t]; cbn [toLowerCase].
  - destruct (is_space c); reflexivity.
  - reflexivity.
Qed.

Lemma toLowerCase_trim (s : string) : toLowerCase (trim s) = trim (toLowerCase s).
Proof. unfold trim. rewrite toLowerCase_trimEnd, toLowerCase_trimStart. reflexivity. Qed.

Section SplitTrim.
Variable sep : ascii -> bool.
Hypothesis space_separates : forall c, is_space c = true -> sep c = true.

Lemma split_go_not_nil (b : bool) (s : string) : split_go sep b s <> [].
Proof.
  revert b. induction s as [|c s IH]; intros b; cbn [split_go]; [discriminate|].
  destruct (sep c).
  - destruct b; [apply IH | discriminate].
  - destruct (split_go sep false s); discriminate.
Qed.

Lemma pieces_after_run (s : string) :
  filter nonempty (split_go sep true s) = filter nonempty (split_go sep false s).
Proof.
  destruct s as [|c s]; [reflexivity|]. cbn [split_go].
  destruct (sep c); reflexivity.
Qed.

Lemma pieces_trimStart (s : string) :
  filter nonempty (split_go sep false (trimStart s))
  = filter nonempty (split_go sep false s).
Proof.
  induction s as [|c s IH]; [reflexivity|]. cbn [trimStart].
  destruct (is_space c) eqn:Ec; [|reflexivity].
  rewrite IH. cbn [split_go]. rewrite (space_separates c Ec).
  cbn [filter nonempty]. symmetry. apply pieces_after_run.
Qed.

Lemma blank_split_in_run (s : string) :
  trimEnd s = EmptyString -> split_go sep true s = [EmptyString].
Proof.
  induction s as [|c s IH]; [reflexivity|]. cbn [trimEnd split_go].
  destruct (trimEnd s) as [|c' t]; [|discriminate].
  destruct (is_space c) eqn:Ec; [|discriminate].
  intros _. rewrite (space_separates c Ec). apply IH. reflexivity.
Qed.

(** Splitting sees at most one more, empty, last piece before [trimEnd]. *)
Lemma split_trimEnd (s : string) (b : bool) :
  split_go sep b s = split_go sep b (trimEnd s)
  \/ split_go sep b s = split_go sep b (trimEnd s) ++ [EmptyString].
Proof.
  revert b. induction s as [|c s IH]; intros b; [left; reflexivity|].
  pose proof (blank_split_in_run s) as Hblank.
  cbn [trimEnd]. destruct (trimEnd s) as [|c' t] eqn:E.
  - specialize (Hblank eq_refl).
    destruct (is_space c) eqn:Ec.
    + cbn [split_go]. rewrite (space_separates c Ec), Hblank.
      destruct b; [left | right]; reflexivity.
    + cbn [split_go]. destruct (sep c) eqn:Es.
      * rewrite Hblank. left. reflexivity.
      * destruct (IH false) as [-> | ->]; [left | right]; reflexivity.
  - clear Hblank. set (u := String c' t) in *.
    cbn [split_go]. destruct (sep c) eqn:Es.
    + destruct (IH true) as [-> | ->]; destruct b;
        [left | left | right | right]; reflexivity.
    + pose proof (split_go_not_nil false u) as Hne.
      destruct (IH false) as [-> | ->];
        destruct (split_go sep false u) as [|p ps]; try congruence;
        [left | right]; reflexivity.
Qed.

Lemma pieces_trimEnd (s : string) :
  filter nonempty (split_go sep false (trimEnd s))
  = filter nonempty (split_go sep false s).
Proof.
  destruct (split_trimEnd s false) as [-> | ->]; [reflexivity|].
  rewrite filter_app. cbn [filter nonempty]. rewrite app_nil_r. reflexivity.
Qed.
End SplitTrim.

Lemma match_words_trim (s : string) : match_words (trim s) = match_words s.
Proof.
  unfold match_words, split_on, trim.
  rewrite pieces_trimEnd by exact space_is_not_word.
  apply pieces_trimStart. exact space_is_not_word.
Qed.

(** The words of a lower-cased text have no capital letter, so the only
    members of [Object.prototype] they can name are [constructor] and
    [__proto__]. *)
Lemma lower_unit_not_capital (c : ascii) : in_range 65 90 (lower_unit c) = false.
Proof. destruct c as [[] [] [] [] [] [] [] []]; reflexivity. Qed.

Lemma toLowerCase_no_capital (s : string) : has_capital (toLowerCase s) = false.
Proof.
  induction s as [|c s IH]; [reflexivity|].
  cbn [toLowerCase has_capital]. rewrite lower_unit_not_capital, IH. reflexivity.
Qed.

Lemma split_go_no_capital (sep : ascii -> bool) (b : bool) (s : string) :
  has_capital s = false ->
  Forall (fun p => has_capital p = false) (split_go sep b s).
Proof.
  revert b. induction s as [|c s IH]; intros b Hs; cbn [split_go].
  - repeat constructor.
  - cbn [has_capital] in Hs. apply orb_false_iff in Hs. destruct Hs as [Hc Hs].
    destruct (sep c).
    + destruct b; [apply IH, Hs | constructor; [reflexivity | apply IH, Hs]].
    + specialize (IH false Hs).
      destruct (split_go sep false s) as [|p ps].
      * repeat constructor. cbn [has_capital]. rewrite Hc. reflexivity.
      * inversion IH as [|? ? Hp Hps]; subst. constructor; [|exact Hps].
        cbn [has_capital]. rewrite Hc, Hp. reflexivity.
Qed.

Lemma match_words_no_capital (text : string) :
  Forall (fun w => has_capital w = false) (match_words (toLowerCase text)).
Proof.
  unfold match_words, split_on. apply Forall_forall. intros w Hw.
  apply filter_In in Hw. destruct Hw as [Hw _].
  pose proof (split_go_no_capital (fun c => negb (is_word_char c)) false
                (toLowerCase text) (toLowerCase_no_capital text)) as Hall.
  exact (proj1 (Forall_forall _ _) Hall w Hw).
Qed.

(** ** Embedder *)

Lemma ToInt32_congr (x y : Z) :
  x mod 2 ^ 32 = y mod 2 ^ 32 -> ToInt32 x = ToInt32 y.
Proof. unfold ToInt32. intros ->. reflexivity. Qed.

Lemma ToInt32_wraps (z : Z) : exists k, ToInt32 z = z + k * 2 ^ 32.
Proof.
  unfold ToInt32.
  pose proof (Z.div_mod z (2 ^ 32) ltac:(lia)) as Hdm.
  destruct (2 ^ 31 <=? z mod 2 ^ 32).
  - exists (- (z / 2 ^ 32) - 1). lia.
  - exists (- (z / 2 ^ 32)). lia.
Qed.

(** One step of the reducer is one step of the polynomial hash. *)
Lemma hash_step_polynomial (a : Z) (b : ascii) :
  hash_step a b = ToInt32 (a * 31 + charCodeAt b).
Proof.
  unfold hash_step, and32, shl32.
  rewrite Z.land_diag.
  apply ToInt32_congr.
  rewrite Z.shiftl_mul_pow2 by lia.
  destruct (ToInt32_wraps a) as [k1 ->].
  destruct (ToInt32_wraps ((a + k1 * 2 ^ 32) * 2 ^ 5)) as [k2 ->].
  replace ((a + k1 * 2 ^ 32) * 2 ^ 5 + k2 * 2 ^ 32 - a + charCodeAt b)
    with (a * 31 + charCodeAt b + (32 * k1 + k2) * 2 ^ 32) by ring.
  apply Z.mod_add. lia.
Qed.

Lemma hashWord_polynomial (word : string) : hashWord word = hash32 word.
Proof.
  unfold hashWord, hash32.
  generalize 0. induction (list_ascii_of_string word) as [|c l IH]; intros h; simpl.
  - reflexivity.
  - rewrite hash_step_polynomial. apply IH.
Qed.

Lemma bucket_bound (word : string) : (bucket word < 100)%nat.
Proof.
  unfold bucket.
  assert (H : 0 <= Z.rem (Z.abs (hashWord word)) 100 < 100).
  { apply Z.rem_bound_pos; lia. }
  lia.
Qed.

(** The embedding of a fragment is the embedding of the trimmed passage. *)
Lemma createSimpleEmbedding_trim (s : string) :
  createSimpleEmbedding (trim s) = createSimpleEmbedding s.
Proof.
  unfold createSimpleEmbedding. rewrite toLowerCase_trim, match_words_trim. reflexivity.
Qed.

(** *** The frequency table holds counts as long as every word is plain *)

Lemma own_count (o : object) (k : string) (v : value) :
  Forall is_count o -> own o k = Some v -> exists n, v = VNum n /\ 1 <= n.
Proof.
  induction 1 as [|[k' v'] o He Ho IH]; cbn [own]; [discriminate|].
  destruct (String.eqb k k'); [|exact IH].
  intros [= <-]. exact He.
Qed.

Lemma set_own_fresh (o : object) (k : string) (n : Z) :
  own o k = None -> 1 <= n -> Forall is_count o ->
  Forall is_count (set_own o k (VNum n))
  /\ total (set_own o k (VNum n)) = total o + n.
Proof.
  intros Hown Hn. induction 1 as [|[k' v'] o He Ho IH]; cbn [set_own own total fold_right] in *.
  - split; [repeat constructor; exists n; auto | cbn; lia].
  - destruct (String.eqb k k'); [discriminate|].
    destruct (IH Hown) as [IH1 IH2]. split; [constructor; assumption|].
    cbn [total fold_right snd]. fold (total (set_own o k (VNum n))). fold (total o). lia.
Qed.

Lemma set_own_update (o : object) (k : string) (m n : Z) :
  own o k = Some (VNum m) -> 1 <= n -> Forall is_count o ->
  Forall is_count (set_own o k (VNum n))
  /\ total (set_own o k (VNum n)) = total o - m + n.
Proof.
  intros Hown Hn. induction 1 as [|[k' v'] o He Ho IH]; cbn [set_own own] in *;
    [discriminate|].
  destruct (String.eqb k k').
  - injection Hown as ->. split; [constructor; [exists n; auto | assumption]|].
    cbn [total fold_right snd number_of]. lia.
  - destruct (IH Hown) as [IH1 IH2]. split; [constructor; assumption|].
    cbn [total fold_right snd]. fold (total (set_own o k (VNum n))). fold (total o). lia.
Qed.

Lemma plain_word_not_proto (w : string) : plain_word w -> String.eqb w "__proto__" = false.
Proof.
  unfold plain_word, inherited. destruct (String.eqb w "__proto__"); [discriminate | reflexivity].
Qed.

Lemma count_word_step (o : object) (w : string) :
  plain_word w -> Forall is_count o ->
  Forall is_count (count_word o w) /\ total (count_word o w) = total o + 1.
Proof.
  intros Hw Ho. unfold count_word, put, get.
  rewrite (plain_word_not_proto w Hw).
  destruct (own o w) as [v|] eqn:E.
  - destruct (own_count o w v Ho E) as (m & -> & Hm).
    assert (Ht : js_add (js_or (VNum m) (VNum 0)) (VNum 1) = VNum (m + 1)).
    { unfold js_or. cbn [truthy]. destruct (Z.eqb_spec m 0); [lia | reflexivity]. }
    rewrite Ht. destruct (set_own_update o w m (m + 1) E ltac:(lia) Ho) as [H1 H2].
    split; [exact H1 | lia].
  - rewrite Hw. change (js_add (js_or VUndefined (VNum 0)) (VNum 1)) with (VNum 1).
    apply set_own_fresh; [exact E | lia | exact Ho].
Qed.

Lemma countWords_counts (words : list string) (o : object) :
  Forall plain_word words -> Forall is_count o ->
  Forall is_count (fold_left count_word words o)
  /\ total (fold_left count_word words o) = total o + Z.of_nat (List.length words).
Proof.
  intros Hw. revert o. induction Hw as [|w words Hw Hws IH]; intros o Ho.
  - cbn [fold_left List.length]. split; [exact Ho | lia].
  - cbn [fold_left List.length].
    destruct (count_word_step o w Hw Ho) as [H1 H2].
    destruct (IH _ H1) as [H3 H4]. split; [exact H3 | lia].
Qed.

Lemma insert_index_perm (e : string * value) (es : list (string * value)) :
  Permutation (e :: es) (insert_index e es).
Proof.
  induction es as [|e' es IH]; cbn [insert_index]; [apply Permutation_refl|].
  destruct (digits_value (fst e) <=? digits_value (fst e')).
  - apply Permutation_refl.
  - eapply perm_trans; [apply perm_swap|]. apply perm_skip, IH.
Qed.

Lemma sort_index_perm (es : list (string * value)) : Permutation es (sort_index es).
Proof.
  induction es as [|e es IH]; cbn [sort_index fold_right]; [apply perm_nil|].
  eapply perm_trans; [apply perm_skip, IH|]. apply insert_index_perm.
Qed.

Lemma filter_split_perm {A : Type} (f : A -> bool) (l : list A) :
  Permutation l (filter f l ++ filter (fun x => negb (f x)) l).
Proof.
  induction l as [|x l IH]; cbn [filter]; [apply perm_nil|].
  destruct (f x); cbn [negb app].
  - apply perm_skip, IH.
  - apply Permutation_cons_app, IH.
Qed.

Lemma entries_perm (o : object) : Permutation o (entries o).
Proof.
  unfold entries.
  eapply perm_trans; [apply (filter_split_perm (fun e => is_array_index (fst e)))|].
  apply Permutation_app_tail, sort_index_perm.
Qed.

Lemma total_perm (o o' : object) : Permutation o o' -> total o = total o'.
Proof.
  induction 1 as [|e o o' _ IH|e e' o|o1 o2 o3 _ IH1 _ IH2].
  - reflexivity.
  - cbn [total fold_right]. fold (total o). fold (total o'). lia.
  - cbn [total fold_right]. lia.
  - lia.
Qed.

Lemma add_at_number (i : nat) (n : Z) (ns : list Z) :
  (i < List.length ns)%nat -> 0 <= n -> Forall (fun x => 0 <= x) ns ->
  exists ns',
    add_at i (VNum n) (map VNum ns) = map VNum ns'
    /\ List.length ns' = List.length ns
    /\ Forall (fun x => 0 <= x) ns'
    /\ sum_Z ns' = sum_Z ns + n.
Proof.
  intros Hi Hn Hns. revert i Hi.
  induction Hns as [|x ns Hx Hns IH]; intros i Hi; cbn [List.length] in Hi; [lia|].
  destruct i as [|i]; cbn [map add_at].
  - exists ((x + n) :: ns). cbn [map List.length sum_Z fold_right].
    repeat split; [constructor; [lia | exact Hns] | fold (sum_Z ns); lia].
  - destruct (IH i ltac:(lia)) as (ns' & E & Hl & Hf & Hs).
    exists (x :: ns'). rewrite E. cbn [map List.length sum_Z fold_right].
    fold (sum_Z ns'). fold (sum_Z ns).
    repeat split; [lia | constructor; assumption | lia].
Qed.

Lemma accumulate_counts (es : list (string * value)) (ns : list Z) :
  Forall is_count es -> List.length ns = 100%nat -> Forall (fun x => 0 <= x) ns ->
  exists ns',
    fold_left accumulate es (map VNum ns) = map VNum ns'
    /\ List.length ns' = 100%nat
    /\ Forall (fun x => 0 <= x) ns'
    /\ sum_Z ns' = sum_Z ns + total es.
Proof.
  intros Hes. revert ns. induction Hes as [|[k v] es (n & Hv & Hn) Hes IH]; intros ns Hl Hns.
  - exists ns. cbn. repeat split; [exact Hl | exact Hns | lia].
  - cbn [snd] in Hv. subst v. cbn [fold_left]. unfold accumulate at 2. cbn [fst snd].
    destruct (add_at_number (bucket k) n ns) as (ns1 & E & Hl1 & Hf1 & Hs1);
      [rewrite Hl; apply bucket_bound | lia | exact Hns |].
    rewrite E. destruct (IH ns1 ltac:(lia) Hf1) as (ns' & E' & Hl' & Hf' & Hs').
    exists ns'. repeat split; [exact E' | exact Hl' | exact Hf' |].
    cbn [total fold_right snd number_of]. fold (total es). lia.
Qed.

(** For a text none of whose words resolves on [Object.prototype], the
    embedding is a vector of 100 non-negative integers whose sum is the number
    of word tokens of the lower-cased text. *)
Lemma embedding_counts_words (text : string) :
  Forall plain_word (match_words (toLowerCase text)) ->
  exists ns,
    createSimpleEmbedding text = map VNum ns
    /\ List.length ns = 100%nat
    /\ Forall (fun x => 0 <= x) ns
    /\ sum_Z ns = Z.of_nat (List.length (match_words (toLowerCase text))).
Proof.
  intros Hw. unfold createSimpleEmbedding, countWords.
  destruct (countWords_counts _ [] Hw (Forall_nil _)) as [Hc Ht].
  set (o := fold_left count_word (match_words (toLowerCase text)) []) in *.
  destruct (accumulate_counts (entries o) (repeat 0 100)) as (ns & E & Hl & Hf & Hs).
  - eapply Permutation_Forall; [apply entries_perm | exact Hc].
  - apply repeat_length.
  - apply Forall_forall. intros x Hx. apply repeat_spec in Hx. lia.
  - exists ns. split; [|split; [exact Hl | split; [exact Hf|]]].
    + rewrite <- E. f_equal.
    + rewrite Hs, <- (total_perm _ _ (entries_perm o)), Ht.
      replace (sum_Z (repeat 0 100)) with 0 by (vm_compute; reflexivity).
      cbn [total fold_right]. lia.
Qed.

Lemma plain_without_capital (w : string) :
  has_capital w = false -> w <> "constructor" -> w <> "__proto__" -> plain_word w.
Proof.
  intros Hc Hcon Hpro. unfold plain_word, inherited.
  destruct (String.eqb_spec w "__proto__"); [contradiction|].
  destruct (String.eqb_spec w "constructor"); [contradiction|].
  unfold mem_string, prototype_methods. cbn [existsb].
  repeat match goal with
         | |- context [String.eqb w ?name] =>
             destruct (String.eqb_spec w name) as [->|_];
             [try contradiction; vm_compute in Hc; discriminate Hc|]
         end.
  reflexivity.
Qed.

(** C10 holds for every text without the words [constructor] and
    [__proto__]. *)
Lemma embedding_counts_ordinary_words (text : string) :
  Forall (fun w => w <> "constructor" /\ w <> "__proto__")
         (match_words (toLowerCase text)) ->
  exists ns,
    createSimpleEmbedding text = map VNum ns
    /\ List.length ns = 100%nat
    /\ Forall (fun x => 0 <= x) ns
    /\ sum_Z ns = Z.of_nat (List.length (match_words (toLowerCase text))).
Proof.
  intros Hw. apply embedding_counts_words.
  apply Forall_forall. intros w Hin.
  destruct (proj1 (Forall_forall _ _) Hw w Hin) as [H1 H2].
  apply plain_without_capital; [|exact H1 | exact H2].
  exact (proj1 (Forall_forall _ _) (match_words_no_capital text) w Hin).
Qed.

(** C9 (Scenario A).  The embedding of ["Apple Apple Banana"] has 100
    components; bucket [abs(hash32("apple")) % 100] (which is 10) holds 2,
    the distinct bucket [abs(hash32("banana")) % 100] (which is 27) holds 1,
    and every other component is 0; the hash computed by the reducer is the
    polynomial hash wrapped to 32 bits at each step. *)
Theorem scenario_A_embedding :
  createSimpleEmbedding "Apple Apple Banana"
  = two_buckets (bucket "apple") 2 (bucket "banana") 1
  /\ List.length (createSimpleEmbedding "Apple Apple Banana") = 100%nat
  /\ bucket "apple" = Z.to_nat (Z.abs (hash32 "apple") mod 100)
  /\ bucket "banana" = Z.to_nat (Z.abs (hash32 "banana") mod 100)
  /\ bucket "apple" = 10%nat /\ bucket "banana" = 27%nat
  /\ (forall word, hashWord word = hash32 word).
Proof.
  split; [vm_compute; reflexivity|].
  split; [vm_compute; reflexivity|].
  rewrite <- !hashWord_polynomial.
  split; [vm_compute; reflexivity|].
  split; [vm_compute; reflexivity|].
  split; [vm_compute; reflexivity|].
  split; [vm_compute; reflexivity|].
  exact hashWord_polynomial.
Qed.

(** C10, at the word [constructor].  The text has one word token, but the
    frequency table inherits a [constructor] member from [Object.prototype]:
    the count becomes the string ["function Object() { [native code] }1"] and
    bucket 78 of the embedding holds a string, not the number 1.  At the word
    [__proto__] the assignment is swallowed by the prototype accessor and the
    embedding stays all-zero although the text has one token. *)
Theorem embedding_of_constructor :
  match_words (toLowerCase "constructor") = ["constructor"]
  /\ nth (bucket "constructor") (createSimpleEmbedding "constructor") (VNum 0)
     = VStr "0function Object() { [native code] }1"
  /\ forallb is_number (createSimpleEmbedding "constructor") = false
  /\ match_words (toLowerCase "__proto__") = ["__proto__"]
  /\ createSimpleEmbedding "__proto__" = zeros.
Proof. repeat split; vm_compute; reflexivity. Qed.

(** ** Binary64: the sign of a difference and the order of doubles *)

Lemma fexp_eq (x : Z) : fexp prec emax x = Z.max (x - 53) (-1074).
Proof. reflexivity. Qed.

Lemma digits2_bounds (m : positive) :
  2 ^ (Zpos (digits2_pos m) - 1) <= Zpos m < 2 ^ Zpos (digits2_pos m).
Proof.
  induction m as [m IH|m IH|]; simpl digits2_pos.
  - rewrite Pos2Z.inj_succ.
    replace (Z.succ (Zpos (digits2_pos m)) - 1) with (Zpos (digits2_pos m) - 1 + 1) by lia.
    rewrite Z.pow_succ_r, Z.pow_add_r by lia. change (2 ^ 1) with 2. lia.
  - rewrite Pos2Z.inj_succ.
    replace (Z.succ (Zpos (digits2_pos m)) - 1) with (Zpos (digits2_pos m) - 1 + 1) by lia.
    rewrite Z.pow_succ_r, Z.pow_add_r by lia. change (2 ^ 1) with 2. lia.
  - simpl. lia.
Qed.

Lemma shr_1_m (r : shr_record) : 0 <= shr_m r -> shr_m (shr_1 r) = shr_m r / 2.
Proof.
  destruct r as [m b s]. simpl. intros Hm.
  destruct m as [|[p|p|]|p]; simpl; try reflexivity; try lia.
  - apply Z.div_unique with 1; lia.
  - apply Z.div_unique with 0; lia.
Qed.

Lemma iter_shr_1_m (p : positive) (r : shr_record) :
  0 <= shr_m r -> shr_m (SpecFloat.iter_pos shr_1 p r) = shr_m r / 2 ^ Zpos p.
Proof.
  revert r. induction p as [p IH|p IH|]; intros r Hm; simpl SpecFloat.iter_pos.
  - assert (H1 : 0 <= shr_m (shr_1 r)).
    { rewrite shr_1_m by assumption. apply Z.div_pos; lia. }
    assert (H2 : 0 <= shr_m (SpecFloat.iter_pos shr_1 p (shr_1 r))).
    { rewrite IH by assumption. apply Z.div_pos; lia. }
    rewrite IH, IH, shr_1_m by assumption.
    rewrite !Z.div_div by lia. f_equal.
    replace (Zpos p~1) with (1 + Zpos p + Zpos p) by lia.
    rewrite !Z.pow_add_r by lia. change (2 ^ 1) with 2. ring.
  - assert (H2 : 0 <= shr_m (SpecFloat.iter_pos shr_1 p r)).
    { rewrite IH by assumption. apply Z.div_pos; lia. }
    rewrite IH, IH by assumption.
    rewrite !Z.div_div by lia. f_equal.
    replace (Zpos p~0) with (Zpos p + Zpos p) by lia.
    rewrite Z.pow_add_r by lia. reflexivity.
  - rewrite shr_1_m by assumption. reflexivity.
Qed.

Lemma shr_record_of_loc_m (m : Z) (l : location) : shr_m (shr_record_of_loc m l) = m.
Proof. destruct l as [|[| |]]; reflexivity. Qed.

(** A positive mantissa at an exponent not below [emin] stays positive when
    it is shifted to its canonical exponent. *)
Lemma shr_fexp_positive (m e : Z) (l : location) :
  0 < m -> -1074 <= e ->
  0 < shr_m (fst (shr_fexp prec emax m e l))
  /\ -1074 <= snd (shr_fexp prec emax m e l).
Proof.
  intros Hm He. unfold shr_fexp, shr. rewrite fexp_eq.
  destruct m as [|m|m]; try lia. simpl Zdigits2.
  pose proof (digits2_bounds m) as [Hlo _].
  set (d := Zpos (digits2_pos m)) in *.
  destruct (Z.max (d + e - 53) (-1074) - e) as [|n|n] eqn:En; simpl fst; simpl snd;
    rewrite ?shr_record_of_loc_m; try (split; lia).
  rewrite iter_shr_1_m by (rewrite shr_record_of_loc_m; lia).
  rewrite shr_record_of_loc_m.
  split; [|lia].
  assert (Hn : Zpos n <= d - 1) by lia.
  apply Z.div_str_pos. split; [apply Z.pow_pos_nonneg; lia|].
  apply Z.le_trans with (2 ^ (d - 1)); [|assumption].
  apply Z.pow_le_mono_r; lia.
Qed.

Lemma round_nearest_even_ge (m : Z) (l : location) : m <= round_nearest_even m l.
Proof.
  destruct l as [|[| |]]; simpl; try lia.
  destruct (Z.even m); lia.
Qed.

Lemma binary_round_aux_positive (m e : Z) (l : location) :
  0 < m -> -1074 <= e -> positive_result (binary_round_aux prec emax false m e l).
Proof.
  intros Hm He. unfold binary_round_aux.
  pose proof (shr_fexp_positive m e l Hm He) as [H1 H2].
  destruct (shr_fexp prec emax m e l) as [mrs' e']. simpl fst in *. simpl snd in *.
  pose proof (round_nearest_even_ge (shr_m mrs') (loc_of_shr_record mrs')) as Hr.
  pose proof (shr_fexp_positive (round_nearest_even (shr_m mrs') (loc_of_shr_record mrs'))
                                e' loc_Exact ltac:(lia) H2) as [H3 _].
  destruct (shr_fexp prec emax _ e' loc_Exact) as [mrs'' e'']. simpl fst in *.
  destruct (shr_m mrs'') as [|q|q]; try lia.
  destruct (e'' <=? emax - prec); exact I.
Qed.

Lemma binary_round_aux_negative (m e : Z) (l : location) :
  nonpositive_result (binary_round_aux prec emax true m e l).
Proof.
  unfold binary_round_aux.
  destruct (shr_fexp prec emax m e l) as [mrs' e'].
  destruct (shr_fexp prec emax _ e' loc_Exact) as [mrs'' e''].
  destruct (shr_m mrs'') as [|q|q]; try exact I.
  destruct (e'' <=? emax - prec); exact I.
Qed.

Lemma shl_align_exponent (m : positive) (e e' : Z) :
  -1074 <= e -> -1074 <= e' -> -1074 <= snd (shl_align m e e').
Proof.
  intros He He'. unfold shl_align. destruct (e' - e); simpl; lia.
Qed.

Lemma binary_normalize_sign (D e : Z) :
  -1074 <= e ->
  SFltb (S754_zero false) (binary_normalize prec emax D e false) = (0 <? D).
Proof.
  intros He. destruct D as [|m|m]; [reflexivity| |]; unfold binary_normalize, binary_round.
  - pose proof (shl_align_exponent m e (fexp prec emax (Zpos (digits2_pos m) + e)) He
                  ltac:(rewrite fexp_eq; lia)) as Hs.
    destruct (shl_align m e _) as [mz ez]. simpl snd in Hs.
    pose proof (binary_round_aux_positive (Zpos mz) ez loc_Exact ltac:(lia) Hs) as Hp.
    destruct (binary_round_aux prec emax false (Zpos mz) ez loc_Exact) as [[|]|[|]| |[|] ? ?];
      simpl in Hp; try contradiction; reflexivity.
  - destruct (shl_align m e _) as [mz ez].
    pose proof (binary_round_aux_negative (Zpos mz) ez loc_Exact) as Hp.
    destruct (binary_round_aux prec emax true (Zpos mz) ez loc_Exact) as [[|]|[|]| |[|] ? ?];
      simpl in Hp; try contradiction; reflexivity.
Qed.

Lemma valid_finite (s : bool) (m : positive) (e : Z) :
  valid_binary (S754_finite s m e) = true ->
  Z.max (Zpos (digits2_pos m) + e - 53) (-1074) = e.
Proof.
  intros H.
  change (SpecFloat.bounded prec emax m e = true) in H.
  unfold SpecFloat.bounded, SpecFloat.canonical_mantissa in H.
  apply andb_prop in H. destruct H as [H _].
  apply Z.eqb_eq in H. exact H.
Qed.

Lemma shl_align_fst (m : positive) (e ez : Z) :
  ez <= e -> Zpos (fst (shl_align m e ez)) = Zpos m * 2 ^ (e - ez).
Proof.
  intros Hle. unfold shl_align.
  destruct (ez - e) as [|d|d] eqn:Ed; simpl fst; try lia.
  - replace (e - ez) with 0 by lia. lia.
  - change (Pos.iter xO m d) with (shift_pos d m).
    rewrite shift_pos_correct. replace (e - ez) with (Zpos d) by lia.
    rewrite Z.pow_pos_fold. lia.
Qed.

(** Two canonical mantissas: the one at the larger exponent is the larger
    number. *)
Lemma canonical_exponent_order (m1 m2 : positive) (e1 e2 : Z) :
  Z.max (Zpos (digits2_pos m1) + e1 - 53) (-1074) = e1 ->
  Z.max (Zpos (digits2_pos m2) + e2 - 53) (-1074) = e2 ->
  e1 < e2 ->
  Zpos m1 < Zpos m2 * 2 ^ (e2 - e1).
Proof.
  intros H1 H2 Hlt.
  pose proof (digits2_bounds m1) as [_ Hhi1].
  pose proof (digits2_bounds m2) as [Hlo2 _].
  assert (Hd2 : Zpos (digits2_pos m2) = 53) by lia.
  assert (Hd1 : Zpos (digits2_pos m1) <= 53) by lia.
  rewrite Hd2 in Hlo2.
  assert (Hp : 2 ^ 1 <= 2 ^ (e2 - e1)) by (apply Z.pow_le_mono_r; lia).
  assert (Hq : 2 ^ Zpos (digits2_pos m1) <= 2 ^ 53) by (apply Z.pow_le_mono_r; lia).
  change (2 ^ 1) with 2 in Hp.
  change (2 ^ (53 - 1)) with 4503599627370496 in Hlo2.
  change (2 ^ 53) with 9007199254740992 in Hq.
  nia.
Qed.

Lemma SFsub_sign (A B : spec_float) :
  valid_binary A = true -> valid_binary B = true ->
  SFltb (S754_zero false) (SF64sub B A) = SFltb A B.
Proof.
  intros HA HB.
  destruct A as [sa|sa| |sa ma ea], B as [sb|sb| |sb mb eb];
    try reflexivity;
    try (destruct sa; reflexivity);
    try (destruct sb; reflexivity);
    try (destruct sa, sb; reflexivity).
  apply valid_finite in HA, HB.
  unfold SF64sub, SFsub.
  rewrite binary_normalize_sign by lia.
  rewrite !shl_align_fst by lia.
  unfold SFltb, SFcompare.
  destruct (Z.compare_spec ea eb) as [Heq|Hlt|Hgt].
  - subst eb. rewrite Z.min_id, Z.sub_diag, !Z.mul_1_r.
    rewrite Pos.compare_cont_spec. simpl Pos.switch_Eq. 
    destruct sa, sb; cbn [cond_Zopp];
      destruct (Pos.compare_spec ma mb); cbn [CompOpp];
      cbv beta iota; first [apply Z.ltb_lt; lia | apply Z.ltb_ge; lia].
  - pose proof (canonical_exponent_order ma mb ea eb HA HB Hlt) as Hord.
    rewrite Z.min_r by lia. rewrite Z.sub_diag, Z.mul_1_r.
    destruct sa, sb; cbn [cond_Zopp];
      cbv beta iota; first [apply Z.ltb_lt; lia | apply Z.ltb_ge; lia].
  - pose proof (canonical_exponent_order mb ma eb ea HB HA ltac:(lia)) as Hord.
    rewrite Z.min_l by lia. rewrite Z.sub_diag, Z.mul_1_r.
    destruct sa, sb; cbn [cond_Zopp];
      cbv beta iota; first [apply Z.ltb_lt; lia | apply Z.ltb_ge; lia].
Qed.

(** The comparator test [b - a > 0] is the test [a < b], for all doubles,
    infinities and [NaN] included. *)
Lemma sub_positive_iff (a b : float) :
  PrimFloat.ltb 0 (PrimFloat.sub b a) = PrimFloat.ltb a b.
Proof.
  rewrite !ltb_spec, sub_spec.
  change (Prim2SF 0) with (S754_zero false).
  apply SFsub_sign; apply Prim2SF_valid.
Qed.

Lemma SFcompare_antisym (x y : spec_float) :
  SFcompare y x = option_map CompOpp (SFcompare x y).
Proof.
  destruct x as [sx|sx| |sx mx ex], y as [sy|sy| |sy my ey];
    try reflexivity;
    try (destruct sx; reflexivity);
    try (destruct sy; reflexivity);
    try (destruct sx, sy; reflexivity).
  assert (Hp : Pos.compare_cont Eq my mx = CompOpp (Pos.compare_cont Eq mx my)).
  { rewrite Pos.compare_cont_antisym. reflexivity. }
  unfold SFcompare. rewrite (Z.compare_antisym ex ey), Hp.
  destruct sx, sy; try reflexivity;
    destruct (ex ?= ey); try reflexivity;
    destruct (Pos.compare_cont Eq mx my); reflexivity.
Qed.

Lemma not_NaN_spec (x : float) : is_NaN x = false -> Prim2SF x <> S754_nan.
Proof.
  unfold is_NaN. rewrite eqb_spec. intros H E. rewrite E in H. discriminate.
Qed.

Lemma ltb_leb (a b : float) : PrimFloat.ltb a b = true -> PrimFloat.leb a b = true.
Proof.
  rewrite ltb_spec, leb_spec. unfold SFltb, SFleb.
  destruct (SFcompare (Prim2SF a) (Prim2SF b)) as [[| |]|]; congruence.
Qed.

Lemma not_ltb_leb (a b : float) :
  is_NaN a = false -> is_NaN b = false ->
  PrimFloat.ltb a b = false -> PrimFloat.leb b a = true.
Proof.
  intros Ha Hb. apply not_NaN_spec in Ha, Hb.
  rewrite ltb_spec, leb_spec. unfold SFltb, SFleb.
  rewrite (SFcompare_antisym (Prim2SF a) (Prim2SF b)).
  destruct (SFcompare (Prim2SF a) (Prim2SF b)) as [[| |]|] eqn:E; simpl;
    try congruence.
  destruct (Prim2SF a) as [?|?| |? ? ?], (Prim2SF b) as [?|?| |? ? ?];
    simpl in E; congruence.
Qed.

Lemma SFleb_trans (x y z : spec_float) :
  SFleb x y = true -> SFleb y z = true -> SFleb x z = true.
Proof.
  unfold SFleb.
  destruct x as [sx|sx| |sx mx ex], y as [sy|sy| |sy my ey], z as [sz|sz| |sz mz ez];
    cbn [SFcompare]; try discriminate; try reflexivity;
    try (destruct sx; try discriminate; try reflexivity);
    try (destruct sy; try discriminate; try reflexivity);
    try (destruct sz; try discriminate; try reflexivity).
  all: rewrite ?Pos.compare_cont_spec; cbn [Pos.switch_Eq];
    destruct (Z.compare_spec ex ey); destruct (Z.compare_spec ey ez);
    destruct (Z.compare_spec ex ez); try discriminate; try reflexivity; try lia;
    subst;
    destruct (Pos.compare_spec mx my); destruct (Pos.compare_spec my mz);
    destruct (Pos.compare_spec mx mz); cbn [CompOpp];
    try discriminate; try reflexivity; try lia.
Qed.

Lemma leb_trans (a b c : float) :
  PrimFloat.leb a b = true -> PrimFloat.leb b c = true -> PrimFloat.leb a c = true.
Proof. rewrite !leb_spec. apply SFleb_trans. Qed.

(** ** Similarity ranker *)

(** *** Exact arithmetic: the same expressions over the reals *)

Section ExactArithmetic.
Local Open Scope R_scope.

Lemma nth_hd_skipn (i : nat) (b : list R) : nth i b 0 = hd 0 (skipn i b).
Proof.
  revert b. induction i as [|i IH]; intros [|y b]; simpl; try reflexivity. apply IH.
Qed.

Lemma tl_skipn (i : nat) (b : list R) : tl (skipn i b) = skipn (S i) b.
Proof.
  revert b. induction i as [|i IH]; intros b.
  - destruct b; reflexivity.
  - destruct b as [|y b]; [reflexivity|]. apply (IH b).
Qed.

Lemma reduce_from_dot (a b : list R) (i : nat) (acc : R) :
  reduce_from (fun sum val i => add sum (mul val (at_index b i))) i a acc
  = acc + dot_sum a (skipn i b).
Proof.
  revert i acc. induction a as [|x a IH]; intros i acc; simpl.
  - lra.
  - rewrite IH. unfold at_index. simpl undefined_num.
    rewrite nth_hd_skipn, tl_skipn. lra.
Qed.

Lemma dotProduct_exact (a b : list R) : dotProduct a b = dot_sum a b.
Proof.
  unfold dotProduct, reduce. rewrite reduce_from_dot. simpl. lra.
Qed.

Lemma reduce_from_squares (a : list R) (i : nat) (acc : R) :
  reduce_from (fun sum val _ => add sum (mul val val)) i a acc = acc + square_sum a.
Proof.
  revert i acc. induction a as [|x a IH]; intros i acc; simpl.
  - lra.
  - rewrite IH. lra.
Qed.

Lemma magnitude_exact (a : list R) : magnitude a = R_sqrt.sqrt (square_sum a).
Proof.
  unfold magnitude, reduce. rewrite reduce_from_squares. simpl. f_equal. lra.
Qed.

Lemma square_sum_nonneg (a : list R) : 0 <= square_sum a.
Proof. induction a as [|x a IH]; simpl; [lra | nra]. Qed.

Lemma square_sum_cons (b : list R) :
  square_sum b = hd 0 b * hd 0 b + square_sum (tl b).
Proof. destruct b; simpl; lra. Qed.

Lemma dot_sum_self (a : list R) : dot_sum a a = square_sum a.
Proof. induction a as [|x a IH]; simpl; [reflexivity | rewrite IH; reflexivity]. Qed.

Lemma dot_sum_nonneg (a b : list R) :
  Forall (fun x => 0 <= x) a -> Forall (fun x => 0 <= x) b -> 0 <= dot_sum a b.
Proof.
  intros Ha. revert b. induction Ha as [|x a Hx Ha IH]; intros b Hb; simpl.
  - lra.
  - assert (Hh : 0 <= hd 0 b) by (destruct Hb; simpl; lra).
    assert (Ht : Forall (fun x => 0 <= x) (tl b)) by (destruct Hb; simpl; auto).
    specialize (IH _ Ht). nra.
Qed.

(** The Cauchy-Schwarz step: one more coordinate. *)
Lemma cauchy_schwarz_step (x y S A B : R) :
  0 <= A -> 0 <= B -> S * S <= A * B ->
  (x * y + S) * (x * y + S) <= (x * x + A) * (y * y + B).
Proof.
  intros HA HB HS.
  pose proof (Rle_0_sqr x) as Hx. pose proof (Rle_0_sqr y) as Hy.
  pose proof (Rle_0_sqr (x * y)) as Hxy.
  pose proof (Rle_0_sqr (x * x * B - y * y * A)) as Hd.
  unfold Rsqr in Hx, Hy, Hxy, Hd.
  assert (Hu : 0 <= x * x * B + y * y * A).
  { apply Rplus_le_le_0_compat; apply Rmult_le_pos; assumption. }
  assert (Hmid : 2 * (x * y * S) <= x * x * B + y * y * A).
  { destruct (Rle_or_lt (2 * (x * y * S)) (x * x * B + y * y * A)) as [Hle|Hgt];
      [exact Hle|exfalso].
    assert (Hsq : (x * x * B + y * y * A) * (x * x * B + y * y * A)
                  < (2 * (x * y * S)) * (2 * (x * y * S))).
    { apply Rmult_le_0_lt_compat; assumption. }
    assert (H4 : (x * y) * (x * y) * (S * S) <= (x * y) * (x * y) * (A * B)).
    { apply Rmult_le_compat_l; assumption. }
    lra. }
  lra.
Qed.

Lemma cauchy_schwarz (a b : list R) :
  dot_sum a b * dot_sum a b <= square_sum a * square_sum b.
Proof.
  revert b. induction a as [|x a IH]; intros b; simpl.
  - pose proof (square_sum_nonneg b). nra.
  - rewrite (square_sum_cons b).
    apply cauchy_schwarz_step;
      [apply square_sum_nonneg | apply square_sum_nonneg | apply IH].
Qed.
Lemma square_sum_positive (a : list R) :
  Exists (fun x => x <> 0) a -> 0 < square_sum a.
Proof.
  induction 1 as [x a Hx|x a _ IH]; simpl.
  - pose proof (square_sum_nonneg a). nra.
  - pose proof (Rle_0_sqr x) as Hx. unfold Rsqr in Hx. lra.
Qed.

Lemma square_sum_zeros (n : nat) : square_sum (repeat 0 n) = 0.
Proof. induction n as [|n IH]; simpl; [reflexivity | rewrite IH; lra]. Qed.

Lemma is_zero_exact (x : R) : is_zero x = true <-> x = 0.
Proof.
  simpl. destruct (Req_dec_T x 0); split; intros; congruence.
Qed.

Lemma cosine_exact_zero (n : nat) (b : list R) :
  cosineSimilarity (repeat 0 n) b = 0.
Proof.
  unfold cosineSimilarity. rewrite magnitude_exact, square_sum_zeros, sqrt_0.
  replace (is_zero 0) with true by (symmetry; apply is_zero_exact; reflexivity).
  reflexivity.
Qed.

Lemma cosine_exact_bounds (a b : list R) :
  Forall (fun x => 0 <= x) a -> Forall (fun x => 0 <= x) b ->
  0 <= cosineSimilarity a b <= 1.
Proof.
  intros Ha Hb. unfold cosineSimilarity.
  rewrite !magnitude_exact, dotProduct_exact.
  set (mA := R_sqrt.sqrt (square_sum a)). set (mB := R_sqrt.sqrt (square_sum b)).
  destruct (is_zero mA) eqn:EA; [simpl; lra|].
  destruct (is_zero mB) eqn:EB; [simpl; lra|].
  cbn [orb div mul Exact].
  assert (HA : 0 < mA).
  { pose proof (sqrt_pos (square_sum a)) as Hp. fold mA in Hp.
    destruct Hp as [Hp|Hp]; [exact Hp|].
    symmetry in Hp. apply is_zero_exact in Hp. congruence. }
  assert (HB : 0 < mB).
  { pose proof (sqrt_pos (square_sum b)) as Hp. fold mB in Hp.
    destruct Hp as [Hp|Hp]; [exact Hp|].
    symmetry in Hp. apply is_zero_exact in Hp. congruence. }
  assert (HP : 0 < mA * mB) by (apply Rmult_lt_0_compat; assumption).
  pose proof (dot_sum_nonneg a b Ha Hb) as HD.
  pose proof (cauchy_schwarz a b) as HCS.
  pose proof (sqrt_sqrt _ (square_sum_nonneg a)) as HsA. fold mA in HsA.
  pose proof (sqrt_sqrt _ (square_sum_nonneg b)) as HsB. fold mB in HsB.
  assert (Hle : dot_sum a b <= mA * mB).
  { destruct (Rle_or_lt (dot_sum a b) (mA * mB)) as [Hle|Hgt]; [exact Hle|exfalso].
    assert (Hsq : (mA * mB) * (mA * mB) < dot_sum a b * dot_sum a b).
    { apply Rmult_le_0_lt_compat; lra. }
    replace ((mA * mB) * (mA * mB)) with ((mA * mA) * (mB * mB)) in Hsq by ring.
    rewrite HsA, HsB in Hsq. lra. }
  unfold Rdiv. split.
  - apply Rmult_le_pos; [exact HD|]. apply Rlt_le, Rinv_0_lt_compat, HP.
  - apply (Rmult_le_reg_r (mA * mB)); [exact HP|].
    rewrite Rmult_assoc, Rinv_l by lra. lra.
Qed.

Lemma cosine_exact_self (a : list R) :
  Exists (fun x => x <> 0) a -> cosineSimilarity a a = 1.
Proof.
  intros Hnz. apply square_sum_positive in Hnz.
  unfold cosineSimilarity. rewrite !magnitude_exact, dotProduct_exact, dot_sum_self.
  set (mA := R_sqrt.sqrt (square_sum a)).
  assert (HA : 0 < mA) by (apply sqrt_lt_R0; exact Hnz).
  destruct (is_zero mA) eqn:EA.
  - apply is_zero_exact in EA. lra.
  - cbn [orb div mul Exact].
    pose proof (sqrt_sqrt _ (Rlt_le _ _ Hnz)) as Hs. fold mA in Hs.
    rewrite Hs. unfold Rdiv. apply Rinv_r. lra.
Qed.
End ExactArithmetic.

(** *** Doubles *)

Lemma zero_vector_guard (b : list float) :
  cosineSimilarity zero_vector b = 0%float.
Proof.
  unfold cosineSimilarity.
  replace (is_zero (magnitude zero_vector)) with true by (vm_compute; reflexivity).
  reflexivity.
Qed.




(** ** Passage selector *)

Lemma insert_scored_length (x : scored) (l : list scored) :
  List.length (insert_scored x l) = S (List.length l).
Proof.
  induction l as [|y l IH]; simpl; [reflexivity|].
  destruct (PrimFloat.ltb 0 (comparator x y)); simpl; [rewrite IH|]; reflexivity.
Qed.

Lemma sort_length (l : list scored) : List.length (sort l) = List.length l.
Proof.
  induction l as [|x l IH]; simpl; [reflexivity|].
  rewrite insert_scored_length, IH. reflexivity.
Qed.

Lemma insert_scored_perm (x : scored) (l : list scored) :
  Permutation (x :: l) (insert_scored x l).
Proof.
  induction l as [|y l IH]; simpl; [apply Permutation_refl|].
  destruct (PrimFloat.ltb 0 (comparator x y)).
  - eapply perm_trans; [apply perm_swap|]. apply perm_skip, IH.
  - apply Permutation_refl.
Qed.

Lemma sort_perm (l : list scored) : Permutation l (sort l).
Proof.
  induction l as [|x l IH]; simpl; [apply perm_nil|].
  eapply perm_trans; [apply perm_skip, IH|]. apply insert_scored_perm.
Qed.

Lemma sentences_of_spec (documentText s : string) :
  In s (sentences_of documentText)
  <-> In s (split_on is_terminator documentText)
      /\ (31 <= String.length (trim s))%nat.
Proof.
  unfold sentences_of, long_enough. rewrite filter_In, Nat.ltb_lt. reflexivity.
Qed.

(** The selector without its case distinction on an empty sentence list. *)
Lemma findRelevantPassages_ranked (query documentText : string) (topK : nat) :
  sentences_of documentText <> [] ->
  findRelevantPassages query documentText topK
  = map sentence (firstn topK (sort (map (score (createSimpleEmbedding query))
                                         (sentences_of documentText)))).
Proof.
  unfold findRelevantPassages.
  destruct (sentences_of documentText); [congruence | reflexivity].
Qed.

Lemma findRelevantPassages_fallback (query documentText : string) (topK : nat) :
  sentences_of documentText = [] ->
  findRelevantPassages query documentText topK = [substring0 1000 documentText].
Proof. unfold findRelevantPassages. intros ->. reflexivity. Qed.

Lemma findRelevantPassages_length (query documentText : string) (topK : nat) :
  sentences_of documentText <> [] ->
  List.length (findRelevantPassages query documentText topK)
  = Nat.min topK (List.length (sentences_of documentText)).
Proof.
  intros Hne. rewrite findRelevantPassages_ranked by assumption.
  rewrite length_map, length_firstn, sort_length, length_map. reflexivity.
Qed.

(** *** The insertion sort puts the scores in non-increasing order *)

Lemma comparator_test (x y : scored) :
  PrimFloat.ltb 0 (comparator x y) = PrimFloat.ltb (similarity x) (similarity y).
Proof. unfold comparator. apply sub_positive_iff. Qed.

Lemma HdRel_insert_scored (R : scored -> scored -> Prop) (y x : scored) (l : list scored) :
  HdRel R y l -> R y x -> HdRel R y (insert_scored x l).
Proof.
  intros Hl Hx. destruct l as [|z l]; cbn [insert_scored].
  - constructor. exact Hx.
  - destruct (PrimFloat.ltb 0 (comparator x z)); constructor.
    + inversion Hl; assumption.
    + exact Hx.
Qed.

Lemma insert_scored_sorted (x : scored) (l : list scored) :
  not_NaN x -> Forall not_NaN l ->
  Sorted descending l -> Sorted descending (insert_scored x l).
Proof.
  intros Hx Hl Hs. induction Hs as [|y l Hs IH Hhd]; cbn [insert_scored].
  - repeat constructor.
  - inversion Hl as [|? ? Hy Hl']; subst.
    rewrite comparator_test.
    destruct (PrimFloat.ltb (similarity x) (similarity y)) eqn:E.
    + constructor; [apply IH; assumption|].
      apply HdRel_insert_scored; [exact Hhd|].
      unfold descending. apply ltb_leb, E.
    + constructor; [constructor; assumption|].
      constructor. unfold descending. apply not_ltb_leb; assumption.
Qed.

Lemma sort_sorted (l : list scored) :
  Forall not_NaN l -> Sorted descending (sort l).
Proof.
  induction 1 as [|x l Hx Hl IH]; cbn [sort fold_right]; [constructor|].
  apply insert_scored_sorted; [exact Hx | | exact IH].
  eapply Permutation_Forall; [apply sort_perm | exact Hl].
Qed.

Lemma Sorted_firstn {A : Type} (R : A -> A -> Prop) (k : nat) (l : list A) :
  Sorted R l -> Sorted R (firstn k l).
Proof.
  intros Hs. revert k. induction Hs as [|x l Hs IH Hhd]; intros k.
  - destruct k; constructor.
  - destruct k as [|k]; cbn [firstn]; constructor; [apply IH|].
    destruct Hhd as [|y l' Hxy]; [destruct k; constructor|].
    destruct k; constructor. exact Hxy.
Qed.

Lemma Sorted_map_sentence (query : string) (l : list scored) :
  Forall (fun x => similarity x = passage_similarity query (sentence x)) l ->
  Sorted descending l -> Sorted (descending_for query) (map sentence l).
Proof.
  intros Hl Hs. induction Hs as [|x l Hs IH Hhd]; cbn [map]; [constructor|].
  inversion Hl as [|? ? Hx Hl']; subst.
  constructor; [apply IH; exact Hl'|].
  destruct Hhd as [|y l' Hxy]; cbn [map]; constructor.
  inversion Hl' as [|? ? Hy _]; subst.
  unfold descending_for. rewrite <- Hx, <- Hy. exact Hxy.
Qed.

Lemma descending_for_trans (query : string) :
  Relations_1.Transitive (descending_for query).
Proof.
  intros p1 p2 p3 H12 H23. unfold descending_for in *.
  eapply leb_trans; eassumption.
Qed.

Lemma score_similarity (query s : string) :
  similarity (score (createSimpleEmbedding query) s)
  = passage_similarity query (sentence (score (createSimpleEmbedding query) s)).
Proof.
  unfold score, passage_similarity. cbn [similarity sentence].
  rewrite createSimpleEmbedding_trim. reflexivity.
Qed.

Lemma In_firstn {A : Type} (x : A) (k : nat) (l : list A) :
  In x (firstn k l) -> In x l.
Proof.
  revert k. induction l as [|y l IH]; intros [|k]; cbn [firstn In]; try tauto.
  intros [->|Hx]; [left; reflexivity | right; exact (IH k Hx)].
Qed.

Lemma Forall_firstn {A : Type} (P : A -> Prop) (k : nat) (l : list A) :
  Forall P l -> Forall P (firstn k l).
Proof.
  intros H. apply Forall_forall. intros x Hx.
  apply (proj1 (Forall_forall P l) H). eapply In_firstn. exact Hx.
Qed.

(** C5, as stated, fails: the only fragment of [thirty_document] has exactly
    30 characters after trimming, and the selector discards it. *)
Lemma thirty_characters_discarded :
  In "Payment is due within ten days" (split_on is_terminator thirty_document)
  /\ String.length (trim "Payment is due within ten days") = 30%nat
  /\ sentences_of thirty_document = []
  /\ sentences_of thirty_document
     <> filter (fun s => Nat.leb 30 (String.length (trim s)))
               (split_on is_terminator thirty_document).
Proof.
  repeat split; try (vm_compute; reflexivity).
  - vm_compute. left. reflexivity.
  - vm_compute. discriminate.
Qed.

(** C5, amended.  The selector keeps, in document order, exactly the
    fragments of the sentence split whose trimmed length is greater than 30
    (31 or more); a fragment of trimmed length 30 or less is discarded. *)
Theorem passage_threshold (documentText : string) :
  sentences_of documentText
  = filter (fun s => Nat.leb 31 (String.length (trim s)))
           (split_on is_terminator documentText)
  /\ (forall s, In s (sentences_of documentText)
                <-> In s (split_on is_terminator documentText)
                    /\ (30 < String.length (trim s))%nat).
Proof.
  split.
  - unfold sentences_of. apply filter_ext. intros s. reflexivity.
  - intros s. rewrite sentences_of_spec. intuition lia.
Qed.

(** C6, as stated, fails for [k = 0]: a non-empty document with qualifying
    sentences yields the empty sequence. *)
Lemma no_passage_when_topK_is_zero :
  scenario_B_document <> EmptyString
  /\ findRelevantPassages "What payment is due?" scenario_B_document 0 = [].
Proof. split; [discriminate | vm_compute; reflexivity]. Qed.

(** C6, amended.  For every document (empty or not), every query and every
    [k >= 1], the selector returns at least one item; and whenever no fragment
    survives the split and the length filter it returns, for every [k],
    exactly the one-element sequence holding the first 1000 characters of the
    document. *)
Theorem selector_nonempty (query documentText : string) (topK : nat) :
  (1 <= topK)%nat ->
  (1 <= List.length (findRelevantPassages query documentText topK))%nat
  /\ (sentences_of documentText = [] ->
      forall k, findRelevantPassages query documentText k
                = [substring0 1000 documentText]).
Proof.
  intros Hk. split.
  - destruct (sentences_of documentText) as [|s l] eqn:E.
    + rewrite findRelevantPassages_fallback by assumption. simpl. lia.
    + rewrite findRelevantPassages_length by (rewrite E; discriminate).
      rewrite E. simpl. lia.
  - intros E k. apply findRelevantPassages_fallback, E.
Qed.

Lemma selector_nonempty_witness :
  (1 <= List.length (findRelevantPassages "due" "Hi there" 5))%nat
  /\ (sentences_of "Hi there" = [] ->
      forall k, findRelevantPassages "due" "Hi there" k = [substring0 1000 "Hi there"]).
Proof. apply (selector_nonempty "due" "Hi there" 5). lia. Defined.

(** C3, as stated, fails in two ways.  When no fragment qualifies, the result
    for [k = 0] has one item, and that item (["Hi."]) is not a trimmed
    fragment of the sentence split (whose fragments are ["Hi"] and [""]).
    And for the query ["constructor"] every similarity is [NaN] (the
    embedding of that word holds a string): the passages come back in
    document order and the second is not "at most as similar" as the first. *)
Lemma fallback_ignores_topK :
  findRelevantPassages "" "Hi." 0 = ["Hi."]
  /\ ~ (List.length (findRelevantPassages "" "Hi." 0) <= 0)%nat
  /\ split_on is_terminator "Hi." = ["Hi"; ""]
  /\ ~ (exists s, In s (split_on is_terminator "Hi.") /\ "Hi." = trim s)
  /\ findRelevantPassages "constructor" scenario_B_document 2
     = ["John Smith signed the agreement"; "Payment of $500 is due January 1, 2024"]
  /\ is_NaN (passage_similarity "constructor" "John Smith signed the agreement") = true
  /\ ~ descending_for "constructor" "John Smith signed the agreement"
                      "Payment of $500 is due January 1, 2024".
Proof.
  split; [reflexivity|]. split; [cbn; lia|]. split; [reflexivity|].
  split; [intros (s & [<- | [<- | []]] & Heq); discriminate Heq|].
  split; [vm_compute; reflexivity|]. split; [vm_compute; reflexivity|].
  unfold descending_for.
  replace (PrimFloat.leb _ _) with false by (vm_compute; reflexivity).
  discriminate.
Qed.

(** C3, amended.  When at least one fragment of the sentence split has a
    trimmed length above 30, [selectRelevant(q, doc, k)] returns at most [k]
    items, each the trimmed form of such a fragment; and, provided none of
    the similarities is [NaN], the items are in non-increasing order of the
    cosine similarity of their embeddings to [embed(q)]: no item is more
    similar to the query than an item before it. *)
Theorem ranked_passages (query documentText : string) (topK : nat) :
  sentences_of documentText <> [] ->
  (List.length (findRelevantPassages query documentText topK) <= topK)%nat
  /\ Forall (fun p => exists s, In s (split_on is_terminator documentText)
                                /\ (30 < String.length (trim s))%nat
                                /\ p = trim s)
            (findRelevantPassages query documentText topK)
  /\ (Forall (fun s => is_NaN (passage_similarity query s) = false)
             (sentences_of documentText) ->
      StronglySorted (descending_for query)
                     (findRelevantPassages query documentText topK)).
Proof.
  intros Hne.
  split; [|split].
  - rewrite findRelevantPassages_length by assumption. lia.
  - rewrite findRelevantPassages_ranked by assumption.
    apply Forall_forall. intros p Hp.
    apply in_map_iff in Hp. destruct Hp as (x & <- & Hx).
    apply In_firstn in Hx.
    apply (Permutation_in _ (Permutation_sym (sort_perm _))) in Hx.
    apply in_map_iff in Hx. destruct Hx as (s & <- & Hs).
    apply sentences_of_spec in Hs. destruct Hs as [Hin Hlen].
    exists s. repeat split; [exact Hin | lia].
  - intros Hnan.
    rewrite findRelevantPassages_ranked by assumption.
    set (scoreds := map (score (createSimpleEmbedding query)) (sentences_of documentText)).
    assert (Hsim : Forall (fun x => similarity x = passage_similarity query (sentence x))
                          scoreds).
    { apply Forall_forall. intros x Hx.
      apply in_map_iff in Hx. destruct Hx as (s & <- & _). apply score_similarity. }
    assert (Hok : Forall not_NaN scoreds).
    { apply Forall_forall. intros x Hx.
      apply in_map_iff in Hx. destruct Hx as (s & <- & Hs).
      exact (proj1 (Forall_forall _ _) Hnan s Hs). }
    apply Sorted_StronglySorted; [exact (descending_for_trans query)|].
    apply Sorted_map_sentence.
    + apply Forall_firstn. eapply Permutation_Forall; [apply sort_perm | exact Hsim].
    + apply Sorted_firstn, sort_sorted, Hok.
Qed.

Lemma ranked_passages_witness :
  (List.length (findRelevantPassages "What payment is due?" scenario_B_document 2) <= 2)%nat
  /\ Forall (fun p => exists s, In s (split_on is_terminator scenario_B_document)
                                /\ (30 < String.length (trim s))%nat
                                /\ p = trim s)
            (findRelevantPassages "What payment is due?" scenario_B_document 2)
  /\ StronglySorted (descending_for "What payment is due?")
                    (findRelevantPassages "What payment is due?" scenario_B_document 2).
Proof.
  destruct (ranked_passages "What payment is due?" scenario_B_document 2)
    as (Hlen & Hfrom & Hsorted).
  - vm_compute. discriminate.
  - split; [exact Hlen|]. split; [exact Hfrom|]. apply Hsorted.
    replace (sentences_of scenario_B_document)
      with ["John Smith signed the agreement";
            " Payment of $500 is due January 1, 2024";
            " The warranty expires after one year"]
      by (vm_compute; reflexivity).
    repeat constructor; vm_compute; reflexivity.
Defined.

(** C7 (Scenario B).  On the three-sentence document and the query
    ["What payment is due?"], the first passage returned (for the default
    [topK] and for any other [topK >= 1]) is the sentence that contains
    ["$500"]. *)
Theorem scenario_B_top_passage (k : nat) :
  hd_error (findRelevantPassages "What payment is due?" scenario_B_document (S k))
  = Some "Payment of $500 is due January 1, 2024"
  /\ hd_error (findRelevantPassages "What payment is due?" scenario_B_document default_topK)
     = Some "Payment of $500 is due January 1, 2024"
  /\ String.index 0 "$500" "Payment of $500 is due January 1, 2024" = Some 11%nat.
Proof.
  split; [|split; vm_compute; reflexivity].
  rewrite findRelevantPassages_ranked by (vm_compute; discriminate).
  rewrite <- firstn_map.
  replace (map sentence
             (sort (map (score (createSimpleEmbedding "What payment is due?"))
                        (sentences_of scenario_B_document))))
    with ["Payment of $500 is due January 1, 2024";
          "John Smith signed the agreement";
          "The warranty expires after one year"]
    by (vm_compute; reflexivity).
  reflexivity.
Qed.

(** ** Provider chain *)

Section Chain.
Variable extractLegalEntities : string -> list entity.

Lemma basic_summary_header (text : string) :
  exists rest,
    generateBasicSummary extractLegalEntities text
    = (summary_header ++ rest)%string.
Proof. unfold generateBasicSummary. eexists. reflexivity. Qed.

Lemma prefix_append (a b : string) : String.prefix a (a ++ b) = true.
Proof.
  induction a as [|c a IH]; simpl.
  - destruct b; reflexivity.
  - rewrite IH. destruct (ascii_dec c c); [reflexivity | congruence].
Qed.

Lemma summary_without_gemini (env : environment) (text : string) :
  configured (GEMINI_API_KEY env) = None ->
  generateSummary extractLegalEntities env text
  = Return (generateBasicSummary extractLegalEntities text).
Proof. unfold generateSummary. intros ->. reflexivity. Qed.

Lemma chat_without_gemini (env : environment) (message documentText : string) :
  configured (GEMINI_API_KEY env) = None ->
  generateChatResponse env message documentText
  = Return (chat_not_configured message (chat_context message documentText)).
Proof. unfold generateChatResponse. intros ->. reflexivity. Qed.

Lemma openrouter_then_attempts (network : request -> response) (env : environment)
      (req : string -> request) (otherwise : string) (r : request) :
  In r (attempts network (openrouter_then env req otherwise)) ->
  exists key, configured (OPENROUTER_API_KEY env) = Some key /\ r = req key.
Proof.
  unfold openrouter_then, attempts.
  destruct (configured (OPENROUTER_API_KEY env)) as [key|]; simpl.
  - destruct (usable (network (req key))); simpl; intros [<-|[]]; eauto.
  - intros [].
Qed.

Lemma summary_attempts (network : request -> response) (env : environment)
      (text : string) (r : request) :
  In r (attempts network (generateSummary extractLegalEntities env text)) ->
  document_content r = [substring0 6000 text].
Proof.
  unfold generateSummary, attempts.
  destruct (configured (GEMINI_API_KEY env)) as [g|]; simpl; [|intros []].
  destruct (run network _) as [sent a] eqn:E. simpl.
  intros [<-|Hin]; [reflexivity|].
  destruct (usable (network (gemini_summary_request g text))).
  - simpl in E. inversion E; subst. destruct Hin.
  - assert (Hin' : In r (attempts network
              (openrouter_then env (fun key => openrouter_summary_request key text)
                 (generateBasicSummary extractLegalEntities text)))).
    { unfold attempts. rewrite E. exact Hin. }
    apply openrouter_then_attempts in Hin'. destruct Hin' as (key & _ & ->).
    reflexivity.
Qed.

Lemma chat_attempts (network : request -> response) (env : environment)
      (message documentText : string) (r : request) :
  In r (attempts network (generateChatResponse env message documentText)) ->
  document_content r = [chat_context message documentText].
Proof.
  unfold generateChatResponse, attempts.
  destruct (configured (GEMINI_API_KEY env)) as [g|]; simpl; [|intros []].
  destruct (run network _) as [sent a] eqn:E. simpl.
  intros [<-|Hin]; [reflexivity|].
  destruct (usable (network (gemini_chat_request g _ message))).
  - simpl in E. inversion E; subst. destruct Hin.
  - assert (Hin' : In r (attempts network
              (openrouter_then env
                 (fun key => openrouter_chat_request key
                               (chat_context message documentText) message)
                 (chat_context_dump message (chat_context message documentText))))).
    { unfold attempts. rewrite E. exact Hin. }
    apply openrouter_then_attempts in Hin'. destruct Hin' as (key & _ & ->).
    reflexivity.
Qed.
End Chain.

Lemma Forall_attempts {A : Type} (P : request -> Prop) (network : request -> response)
      (c : remote A) :
  (forall r, In r (attempts network c) -> P r) -> Forall P (attempts network c).
Proof. intros Hall. apply Forall_forall. exact Hall. Qed.

(** After a failed attempt on Gemini the chain advances to OpenRouter when
    its key is set, and only then to the local summary. *)
Lemma summary_chain_advances (extractLegalEntities : string -> list entity)
      (network : request -> response) (env : environment) (text g k : string) :
  configured (GEMINI_API_KEY env) = Some g ->
  configured (OPENROUTER_API_KEY env) = Some k ->
  usable (network (gemini_summary_request g text)) = None ->
  attempts network (generateSummary extractLegalEntities env text)
  = [gemini_summary_request g text; openrouter_summary_request k text].
Proof.
  intros Hg Hk Hfail. unfold attempts, generateSummary, openrouter_then.
  rewrite Hg. simpl. rewrite Hfail, Hk. simpl.
  destruct (usable (network (openrouter_summary_request k text))); reflexivity.
Qed.

(** C1, as stated, fails: with [GEMINI_API_KEY] absent and
    [OPENROUTER_API_KEY] present, on a network where every call would
    succeed, neither path sends any request; OpenRouter is not attempted and
    the local fallback is returned. *)
Lemma openrouter_skipped_without_gemini_key :
  configured (GEMINI_API_KEY only_openrouter) = None
  /\ configured (OPENROUTER_API_KEY only_openrouter) = Some "sk-or-v1-key"
  /\ run answering (generateSummary no_entities only_openrouter scenario_B_document)
     = ([], generateBasicSummary no_entities scenario_B_document)
  /\ run answering
         (generateChatResponse only_openrouter "What payment is due?" scenario_B_document)
     = ([], chat_not_configured "What payment is due?"
              (chat_context "What payment is due?" scenario_B_document))
  /\ ~ (exists r,
          In r (attempts answering
                  (generateSummary no_entities only_openrouter scenario_B_document))
          /\ target r = OpenRouter).
Proof.
  repeat split; try reflexivity.
  intros (r & Hin & _). exact Hin.
Qed.

(** C1, amended.  On both paths, when [GEMINI_API_KEY] is absent (undefined
    or empty) the chain does not advance: no remote provider is attempted,
    OpenRouter included, whatever its credential, and the local fallback is
    returned at once: the basic summary for summarisation, the
    "not configured" answer for chat. *)
Theorem gemini_key_gates_the_chain
        (extractLegalEntities : string -> list entity)
        (network : request -> response) (env : environment)
        (text message documentText : string) :
  configured (GEMINI_API_KEY env) = None ->
  run network (generateSummary extractLegalEntities env text)
  = ([], generateBasicSummary extractLegalEntities text)
  /\ run network (generateChatResponse env message documentText)
     = ([], chat_not_configured message (chat_context message documentText)).
Proof.
  intros Hg.
  rewrite summary_without_gemini, chat_without_gemini by assumption.
  split; reflexivity.
Qed.

Lemma gemini_key_gates_the_chain_witness :
  run answering (generateSummary no_entities only_openrouter "A lease.")
  = ([], generateBasicSummary no_entities "A lease.")
  /\ run answering (generateChatResponse only_openrouter "Who?" "A lease.")
     = ([], chat_not_configured "Who?" (chat_context "Who?" "A lease.")).
Proof.
  apply (gemini_key_gates_the_chain no_entities answering only_openrouter
                                    "A lease." "Who?" "A lease.").
  reflexivity.
Defined.

(** C2, as stated, fails on the chat path: for a document that is one run of
    6001 letters, the request sent to Gemini carries 6001 characters of
    document text. *)
Lemma chat_prompt_exceeds_budget :
  exists r,
    In r (attempts unreachable (generateChatResponse both_keys "a" long_document))
    /\ target r = Gemini
    /\ exists d, In d (document_content r) /\ (6000 < String.length d)%nat.
Proof.
  exists (gemini_chat_request "gemini-key" (chat_context "a" long_document) "a").
  split; [left; reflexivity|]. split; [reflexivity|].
  exists (chat_context "a" long_document).
  split; [left; reflexivity|].
  apply Nat.ltb_lt. vm_compute. reflexivity.
Qed.

(** On a long document with both keys set and an unreachable network, both
    summarisation requests are sent and each carries 6000 characters. *)
Lemma long_summary_prompts :
  map (fun r => (target r, map String.length (document_content r)))
      (attempts unreachable (generateSummary no_entities both_keys long_document))
  = [(Gemini, [6000%nat]); (OpenRouter, [6000%nat])].
Proof. vm_compute. reflexivity. Qed.

(** C2, amended.  Every request of the summarisation path carries exactly one
    piece of document text, the first 6000 characters of the text (at most
    6000 characters).  Every request of the chat path carries the context, the
    passages returned by the selector for the default [topK] joined by blank
    lines, without truncation. *)
Theorem prompt_document_content
        (extractLegalEntities : string -> list entity)
        (network : request -> response) (env : environment)
        (text message documentText : string) :
  Forall (fun r => document_content r = [substring0 6000 text])
         (attempts network (generateSummary extractLegalEntities env text))
  /\ (String.length (substring0 6000 text) <= 6000)%nat
  /\ Forall (fun r => document_content r
                      = [join (nl ++ nl)
                              (findRelevantPassages message documentText default_topK)])
            (attempts network (generateChatResponse env message documentText)).
Proof.
  split; [|split].
  - apply Forall_attempts. intros r. apply summary_attempts.
  - apply substring0_length.
  - apply Forall_attempts. intros r. apply chat_attempts.
Qed.

(** C8 (Scenario C).  With every provider credential absent, summarisation
    sends no request and returns, for every document text, the basic summary:
    a string computed from the text and the extracted entities alone, which
    begins with ["DOCUMENT ANALYSIS SUMMARY"]. *)
Theorem summary_without_credentials
        (extractLegalEntities : string -> list entity)
        (network : request -> response) (env : environment) (text : string) :
  configured (GEMINI_API_KEY env) = None ->
  configured (OPENROUTER_API_KEY env) = None ->
  attempts network (generateSummary extractLegalEntities env text) = []
  /\ result network (generateSummary extractLegalEntities env text)
     = generateBasicSummary extractLegalEntities text
  /\ String.prefix "DOCUMENT ANALYSIS SUMMARY"
       (result network (generateSummary extractLegalEntities env text)) = true.
Proof.
  intros Hg _. unfold attempts, result.
  rewrite summary_without_gemini by assumption. cbn [run fst snd].
  split; [reflexivity|]. split; [reflexivity|].
  destruct (basic_summary_header extractLegalEntities text) as [rest ->].
  apply (prefix_append summary_header).
Qed.

Lemma summary_without_credentials_witness :
  attempts answering (generateSummary no_entities no_keys scenario_B_document) = []
  /\ result answering (generateSummary no_entities no_keys scenario_B_document)
     = generateBasicSummary no_entities scenario_B_document
  /\ String.prefix "DOCUMENT ANALYSIS SUMMARY"
       (result answering (generateSummary no_entities no_keys scenario_B_document)) = true.
Proof.
  apply (summary_without_credentials no_entities answering no_keys scenario_B_document);
    reflexivity.
Defined.

(** ** Provider chain: order, credentials and outcome *)

Lemma usable_nonempty (r : response) (s : string) :
  usable r = Some s -> s <> EmptyString.
Proof.
  destruct r as [|[|] [t|]]; cbn [usable]; try discriminate.
  destruct t; cbn [nonempty]; [discriminate|]. intros [= <-]. discriminate.
Qed.

Lemma run_openrouter_then (network : request -> response) (env : environment)
      (req : string -> request) (otherwise : string) :
  run network (openrouter_then env req otherwise)
  = match configured (OPENROUTER_API_KEY env) with
    | Some key =>
        ([req key],
         match usable (network (req key)) with Some s => s | None => otherwise end)
    | None => ([], otherwise)
    end.
Proof.
  unfold openrouter_then. destruct (configured (OPENROUTER_API_KEY env)) as [key|];
    [|reflexivity].
  cbn [run]. destruct (usable (network (req key))); reflexivity.
Qed.

(** The run of a two-provider chain, spelled out. *)
Lemma run_chain (network : request -> response) (env : environment)
      (first : string -> request) (second : string -> request)
      (without_key otherwise : string) :
  run network
      match configured (GEMINI_API_KEY env) with
      | None => Return without_key
      | Some g =>
          Fetch (first g) (fun r =>
            match usable r with
            | Some s => Return s
            | None => openrouter_then env second otherwise
            end)
      end
  = match configured (GEMINI_API_KEY env) with
    | None => ([], without_key)
    | Some g =>
        match usable (network (first g)) with
        | Some s => ([first g], s)
        | None =>
            match configured (OPENROUTER_API_KEY env) with
            | Some k =>
                ([first g; second k],
                 match usable (network (second k)) with
                 | Some s => s
                 | None => otherwise
                 end)
            | None => ([first g], otherwise)
            end
        end
    end.
Proof.
  destruct (configured (GEMINI_API_KEY env)) as [g|]; [|reflexivity].
  cbn [run]. destruct (usable (network (first g))); [reflexivity|].
  rewrite run_openrouter_then.
  destruct (configured (OPENROUTER_API_KEY env)); reflexivity.
Qed.

Lemma run_generateSummary (extractLegalEntities : string -> list entity)
      (network : request -> response) (env : environment) (text : string) :
  run network (generateSummary extractLegalEntities env text)
  = match configured (GEMINI_API_KEY env) with
    | None => ([], generateBasicSummary extractLegalEntities text)
    | Some g =>
        match usable (network (gemini_summary_request g text)) with
        | Some s => ([gemini_summary_request g text], s)
        | None =>
            match configured (OPENROUTER_API_KEY env) with
            | Some k =>
                ([gemini_summary_request g text; openrouter_summary_request k text],
                 match usable (network (openrouter_summary_request k text)) with
                 | Some s => s
                 | None => generateBasicSummary extractLegalEntities text
                 end)
            | None => ([gemini_summary_request g text],
                       generateBasicSummary extractLegalEntities text)
            end
        end
    end.
Proof.
  unfold generateSummary.
  apply (run_chain network env (fun g => gemini_summary_request g text)
                   (fun k => openrouter_summary_request k text)).
Qed.

Lemma run_generateChatResponse (network : request -> response) (env : environment)
      (message documentText : string) :
  let context := chat_context message documentText in
  run network (generateChatResponse env message documentText)
  = match configured (GEMINI_API_KEY env) with
    | None => ([], chat_not_configured message context)
    | Some g =>
        match usable (network (gemini_chat_request g context message)) with
        | Some s => ([gemini_chat_request g context message], s)
        | None =>
            match configured (OPENROUTER_API_KEY env) with
            | Some k =>
                ([gemini_chat_request g context message;
                  openrouter_chat_request k context message],
                 match usable (network (openrouter_chat_request k context message)) with
                 | Some s => s
                 | None => chat_context_dump message context
                 end)
            | None => ([gemini_chat_request g context message],
                       chat_context_dump message context)
            end
        end
    end.
Proof.
  intros context. unfold generateChatResponse. fold context.
  apply (run_chain network env (fun g => gemini_chat_request g context message)
                   (fun k => openrouter_chat_request k context message)).
Qed.

(** X1.  One attempt per provider, in priority order: on both paths the
    providers contacted are none, Gemini alone, or Gemini and then
    OpenRouter; no provider is contacted twice and OpenRouter never comes
    first. *)
Theorem chain_contacts_in_order
        (extractLegalEntities : string -> list entity)
        (network : request -> response) (env : environment)
        (text message documentText : string) :
  In (map target (attempts network (generateSummary extractLegalEntities env text)))
     [[]; [Gemini]; [Gemini; OpenRouter]]
  /\ In (map target (attempts network (generateChatResponse env message documentText)))
        [[]; [Gemini]; [Gemini; OpenRouter]].
Proof.
  unfold attempts. rewrite run_generateSummary.
  pose proof (run_generateChatResponse network env message documentText) as Hc.
  cbv zeta in Hc. rewrite Hc. clear Hc.
  split.
  - destruct (configured (GEMINI_API_KEY env)); [|cbn; auto].
    destruct (usable _); [cbn; auto|].
    destruct (configured (OPENROUTER_API_KEY env)); cbn; auto.
  - destruct (configured (GEMINI_API_KEY env)); [|cbn; auto].
    destruct (usable _); [cbn; auto|].
    destruct (configured (OPENROUTER_API_KEY env)); cbn; auto.
Qed.

(** X2.  Every request carries the key of the provider it is sent to, as set
    (and non-empty) in the environment: the Gemini key never goes to
    OpenRouter, nor the OpenRouter key to Gemini. *)
Theorem requests_carry_their_own_key
        (extractLegalEntities : string -> list entity)
        (network : request -> response) (env : environment)
        (text message documentText : string) :
  Forall (fun r => key_of env (target r) = Some (credential r)
                   /\ credential r <> EmptyString)
         (attempts network (generateSummary extractLegalEntities env text)
          ++ attempts network (generateChatResponse env message documentText)).
Proof.
  assert (Hkey : forall key k, configured key = Some k -> key = Some k /\ k <> EmptyString).
  { intros [k'|] k; cbn [configured]; [|discriminate].
    destruct k'; cbn [nonempty]; [discriminate|]. intros [= <-]. split; [reflexivity | discriminate]. }
  unfold attempts. rewrite run_generateSummary.
  pose proof (run_generateChatResponse network env message documentText) as Hc.
  cbv zeta in Hc. rewrite Hc. clear Hc.
  destruct (configured (GEMINI_API_KEY env)) as [g|] eqn:Eg; [|constructor].
  apply Hkey in Eg.
  destruct (configured (OPENROUTER_API_KEY env)) as [k|] eqn:Ek;
    [apply Hkey in Ek|];
    destruct (usable (network (gemini_summary_request g text)));
    destruct (usable (network (gemini_chat_request g _ message)));
    cbn [fst app]; repeat constructor; cbn [target credential key_of];
    tauto.
Qed.

(** X3.  The answer of a chain is the text of the first provider, in order,
    that returns a usable text; when none does (or no key is set) it is the
    local answer: the basic summary for summarisation, and for chat the
    "not configured" text or the context dump. *)
Theorem chain_answer
        (extractLegalEntities : string -> list entity)
        (network : request -> response) (env : environment)
        (text message documentText : string) :
  chain_outcome network (generateBasicSummary extractLegalEntities text)
                (attempts network (generateSummary extractLegalEntities env text))
                (result network (generateSummary extractLegalEntities env text))
  /\ chain_outcome network (chat_local_answer env message documentText)
                   (attempts network (generateChatResponse env message documentText))
                   (result network (generateChatResponse env message documentText)).
Proof.
  unfold attempts, result, chat_local_answer. rewrite run_generateSummary.
  pose proof (run_generateChatResponse network env message documentText) as Hc.
  cbv zeta in Hc. rewrite Hc. clear Hc.
  set (context := chat_context message documentText).
  unfold chain_outcome, failed.
  destruct (configured (GEMINI_API_KEY env)) as [g|];
    [|split; left; split; [constructor | reflexivity | constructor | reflexivity]].
  split.
  - destruct (usable (network (gemini_summary_request g text))) as [s|] eqn:E1; cbn [fst snd].
    + right. exists [], (gemini_summary_request g text). repeat split; [constructor | exact E1].
    + destruct (configured (OPENROUTER_API_KEY env)) as [k|]; cbn [fst snd].
      * destruct (usable (network (openrouter_summary_request k text))) as [s|] eqn:E2.
        -- right. exists [gemini_summary_request g text], (openrouter_summary_request k text).
           repeat split; [repeat constructor; exact E1 | exact E2].
        -- left. split; [repeat constructor; assumption | reflexivity].
      * left. split; [repeat constructor; assumption | reflexivity].
  - destruct (usable (network (gemini_chat_request g context message))) as [s|] eqn:E1;
      cbn [fst snd].
    + right. exists [], (gemini_chat_request g context message).
      repeat split; [constructor | exact E1].
    + destruct (configured (OPENROUTER_API_KEY env)) as [k|]; cbn [fst snd].
      * destruct (usable (network (openrouter_chat_request k context message))) as [s|] eqn:E2.
        -- right. exists [gemini_chat_request g context message],
                         (openrouter_chat_request k context message).
           repeat split; [repeat constructor; exact E1 | exact E2].
        -- left. split; [repeat constructor; assumption | reflexivity].
      * left. split; [repeat constructor; assumption | reflexivity].
Qed.


(** X5.  A provider that answers with a success status but no text, or an
    empty text, counts as a failed provider: two networks that agree on the
    usable text of every request lead to the same requests and the same
    answer.  In particular HTTP 200 with an empty text acts like an
    unreachable network. *)
Theorem empty_payload_is_failure
        (extractLegalEntities : string -> list entity)
        (network network' : request -> response) (env : environment)
        (text message documentText : string) :
  (forall r, usable (network r) = usable (network' r)) ->
  run network (generateSummary extractLegalEntities env text)
  = run network' (generateSummary extractLegalEntities env text)
  /\ run network (generateChatResponse env message documentText)
     = run network' (generateChatResponse env message documentText).
Proof.
  intros Hsame. rewrite !run_generateSummary.
  pose proof (run_generateChatResponse network env message documentText) as Hc.
  pose proof (run_generateChatResponse network' env message documentText) as Hc'.
  cbv zeta in Hc, Hc'. rewrite Hc, Hc'. clear Hc Hc'.
  split; destruct (configured (GEMINI_API_KEY env)) as [g|]; try reflexivity;
    destruct (configured (OPENROUTER_API_KEY env)) as [k|];
    rewrite !Hsame; reflexivity.
Qed.

Lemma empty_payload_is_failure_witness :
  run empty_answers (generateSummary no_entities both_keys scenario_B_document)
  = run unreachable (generateSummary no_entities both_keys scenario_B_document)
  /\ run empty_answers (generateChatResponse both_keys "Who?" scenario_B_document)
     = run unreachable (generateChatResponse both_keys "Who?" scenario_B_document).
Proof.
  apply (empty_payload_is_failure no_entities empty_answers unreachable both_keys
                                  scenario_B_document "Who?" scenario_B_document).
  intros r. reflexivity.
Defined.
(** ** The chat endpoint *)

Lemma run_bind {A B : Type} (network : request -> response) (c : remote A)
      (f : A -> remote B) :
  run network (bind c f)
  = (fst (run network c) ++ fst (run network (f (snd (run network c)))),
     snd (run network (f (snd (run network c))))).
Proof.
  induction c as [a|r k IH]; cbn [bind run].
  - cbn [fst snd app]. destruct (run network (f a)); reflexivity.
  - rewrite IH. destruct (run network (k (network r))) as [sent a]. cbn [fst snd app].
    reflexivity.
Qed.

Lemma missing_spec (v : json) :
  missing v = false <-> exists s, v = JString s /\ s <> EmptyString.
Proof.
  destruct v as [| | b | x | s |]; unfold missing; cbn [json_falsy not_a_string];
    rewrite ?orb_true_r; try (split; [discriminate | intros (s' & [=] & _)]).
  destruct s as [|c s]; cbn [nonempty negb orb].
  - split; [discriminate | intros (s' & [= <-] & Hne); congruence].
  - split; [intros _; eexists; split; [reflexivity | discriminate] | reflexivity].
Qed.

(** X6.  The chat endpoint contacts a provider only when both [message] and
    [documentText] are non-empty strings.  Any other body is answered without
    any remote call: status 400 with "No message provided" or "No document
    context available" (the message is checked first), or, when the body
    cannot be read, status 200 with the apology and the model label
    "fallback". *)
Theorem chat_POST_guards (network : request -> response) (env : environment)
        (body : chat_body) :
  (forall m d, body <> Fields (JString m) (JString d)
               \/ m = EmptyString \/ d = EmptyString) ->
  fst (run network (ChatRoute.POST env body)) = []
  /\ match body with
     | Unreadable =>
         snd (run network (ChatRoute.POST env body))
         = Answered 200 chat_apology "fallback"
     | Fields message documentText =>
         snd (run network (ChatRoute.POST env body))
         = Rejected 400 (if missing message then "No message provided"
                         else "No document context available")
     end.
Proof.
  intros Hbad. destruct body as [|message documentText]; [split; reflexivity|].
  unfold ChatRoute.POST.
  destruct (missing message) eqn:Em; [split; reflexivity|].
  destruct (missing documentText) eqn:Ed; [split; reflexivity|].
  exfalso.
  apply missing_spec in Em, Ed.
  destruct Em as (m & -> & Hm), Ed as (d & -> & Hd).
  destruct (Hbad m d) as [H|[H|H]]; congruence.
Qed.

Lemma chat_POST_guards_witness :
  fst (run answering (ChatRoute.POST both_keys (Fields (JString "Who signed?") (JString ""))))
  = []
  /\ snd (run answering (ChatRoute.POST both_keys (Fields (JString "Who signed?") (JString ""))))
     = Rejected 400 "No document context available".
Proof.
  apply (chat_POST_guards answering both_keys
           (Fields (JString "Who signed?") (JString ""))).
  intros m d. destruct d; [right; right; reflexivity|].
  left. discriminate.
Defined.

(** X7.  For a non-empty message and document the chat endpoint sends exactly
    the requests of [generateChatResponse] and answers with status 200 and the
    answer of the chain, which is never empty.  The [model] field of the
    reply is always "gemini-2.0-flash", also when the text comes from
    OpenRouter or from the local fallback. *)
Theorem chat_POST_answers (network : request -> response) (env : environment)
        (message documentText : string) :
  message <> EmptyString -> documentText <> EmptyString ->
  run network (ChatRoute.POST env (Fields (JString message) (JString documentText)))
  = (attempts network (generateChatResponse env message documentText),
     Answered 200 (result network (generateChatResponse env message documentText))
              "gemini-2.0-flash")
  /\ result network (generateChatResponse env message documentText) <> EmptyString.
Proof.
  intros Hm Hd. split.
  - unfold ChatRoute.POST.
    assert (Em : missing (JString message) = false).
    { apply missing_spec. eauto. }
    assert (Ed : missing (JString documentText) = false).
    { apply missing_spec. eauto. }
    rewrite Em, Ed. cbn [string_of_json]. rewrite run_bind. cbn [run fst snd].
    rewrite app_nil_r. reflexivity.
  - unfold result.
    pose proof (run_generateChatResponse network env message documentText) as Hc.
    cbv zeta in Hc. rewrite Hc. clear Hc.
    assert (Hn : forall m c, chat_not_configured m c <> EmptyString) by (intros; discriminate).
    assert (Hx : forall m c, chat_context_dump m c <> EmptyString) by (intros; discriminate).
    destruct (configured (GEMINI_API_KEY env)) as [g|]; [|apply Hn].
    destruct (usable (network (gemini_chat_request g _ message))) as [s|] eqn:E1;
      [exact (usable_nonempty _ _ E1)|].
    destruct (configured (OPENROUTER_API_KEY env)) as [k|]; [|apply Hx].
    cbn [snd].
    destruct (usable (network (openrouter_chat_request k _ message))) as [s|] eqn:E2;
      [exact (usable_nonempty _ _ E2) | apply Hx].
Qed.

Lemma chat_POST_answers_witness :
  run only_openrouter_answers
      (ChatRoute.POST both_keys (Fields (JString "Who signed?") (JString "John Smith signed.")))
  = (attempts only_openrouter_answers
       (generateChatResponse both_keys "Who signed?" "John Smith signed."),
     Answered 200
       (result only_openrouter_answers
          (generateChatResponse both_keys "Who signed?" "John Smith signed."))
       "gemini-2.0-flash")
  /\ result only_openrouter_answers
       (generateChatResponse both_keys "Who signed?" "John Smith signed.") <> EmptyString.
Proof.
  apply (chat_POST_answers only_openrouter_answers both_keys
                           "Who signed?" "John Smith signed."); discriminate.
Defined.

(** On that network the text comes from OpenRouter and the label still names
    Gemini. *)
Lemma label_names_gemini_for_openrouter_text :
  snd (run only_openrouter_answers
         (ChatRoute.POST both_keys
            (Fields (JString "Who signed?") (JString "John Smith signed."))))
  = Answered 200 "From OpenRouter." "gemini-2.0-flash".
Proof. vm_compute. reflexivity. Qed.
(** ** Suggested questions *)

Section Unique.
Context {A : Type}.
Variable same : A -> A -> bool.
Hypothesis same_spec : forall x y, same x y = true <-> x = y.

Lemma existsb_same (x : A) (seen : list A) :
  existsb (same x) seen = true <-> In x seen.
Proof.
  rewrite existsb_exists. split.
  - intros (y & Hy & Hxy). apply same_spec in Hxy. subst. exact Hy.
  - intros Hx. exists x. split; [exact Hx | apply same_spec; reflexivity].
Qed.

Lemma unique_from_In (x : A) (seen xs : list A) :
  In x (unique_from same seen xs) <-> In x xs /\ ~ In x seen.
Proof.
  revert seen. induction xs as [|y xs IH]; intros seen; cbn [unique_from In].
  - tauto.
  - destruct (existsb (same y) seen) eqn:E.
    + apply existsb_same in E. rewrite IH. split.
      * intros [H1 H2]. auto.
      * intros [[->|H1] H2]; [contradiction | auto].
    + assert (Hy : ~ In y seen).
      { intros H. apply existsb_same in H. congruence. }
      cbn [In]. rewrite IH. cbn [In]. split.
      * intros [->|[H1 H2]]; [auto|]. split; [auto | tauto].
      * intros [[->|H1] H2]; [auto|].
        destruct (existsb (same x) [y]) eqn:Exy.
        -- apply existsb_same in Exy. destruct Exy as [->|[]]. auto.
        -- right. split; [exact H1|]. intros [->|H]; [|contradiction].
           assert (Hin : In x [x]) by (left; reflexivity).
           apply existsb_same in Hin. congruence.
Qed.

Lemma unique_from_NoDup (seen xs : list A) : NoDup (unique_from same seen xs).
Proof.
  revert seen. induction xs as [|y xs IH]; intros seen; cbn [unique_from].
  - constructor.
  - destruct (existsb (same y) seen); [apply IH|].
    constructor; [|apply IH].
    rewrite unique_from_In. cbn [In]. tauto.
Qed.

Lemma unique_from_length (seen xs : list A) :
  (List.length (unique_from same seen xs) <= List.length xs)%nat.
Proof.
  revert seen. induction xs as [|y xs IH]; intros seen; cbn [unique_from List.length].
  - lia.
  - destruct (existsb (same y) seen); cbn [List.length];
      [specialize (IH seen) | specialize (IH (y :: seen))]; lia.
Qed.

(** A duplicate-free prefix that is new to the set comes out unchanged, in
    front. *)
Lemma unique_from_prefix (pre rest seen : list A) :
  NoDup pre -> (forall x, In x pre -> ~ In x seen) ->
  exists tail, unique_from same seen (pre ++ rest) = pre ++ tail.
Proof.
  intros Hnd. revert seen. induction Hnd as [|y pre Hy Hnd IH]; intros seen Hnew.
  - exists (unique_from same seen rest). reflexivity.
  - cbn [app unique_from].
    destruct (existsb (same y) seen) eqn:E.
    + apply existsb_same in E. exfalso. apply (Hnew y); [left; reflexivity | exact E].
    + destruct (IH (y :: seen)) as [tail Ht].
      * intros x Hx [->|Hs]; [contradiction|]. apply (Hnew x); [right; exact Hx | exact Hs].
      * exists tail. rewrite Ht. reflexivity.
Qed.

(** Without duplicates nothing is removed: the set keeps the list as it is. *)
Lemma unique_from_NoDup_id (xs seen : list A) :
  NoDup xs -> (forall x, In x xs -> ~ In x seen) -> unique_from same seen xs = xs.
Proof.
  intros Hnd Hnew. destruct (unique_from_prefix xs [] seen Hnd Hnew) as [tail Ht].
  rewrite app_nil_r in Ht.
  pose proof (unique_from_length seen xs) as Hl. rewrite Ht, length_app in Hl.
  destruct tail; [rewrite app_nil_r in Ht; exact Ht | cbn [List.length] in Hl; lia].
Qed.
End Unique.

Lemma first_candidates (text : string) (entities : list entity) :
  exists rest,
    candidate_questions text entities
    = [ "What is the main purpose of this document?";
        "What are the key terms and conditions?" ] ++ rest.
Proof. unfold candidate_questions. eexists. reflexivity. Qed.

(** X8.  [generateSuggestedQuestions] returns between 2 and 6 questions,
    without duplicates, and the first two are always the two general
    questions. *)
Theorem suggested_questions_shape (text : string) (entities : list entity) :
  (2 <= List.length (generateSuggestedQuestions text entities) <= 6)%nat
  /\ NoDup (generateSuggestedQuestions text entities)
  /\ firstn 2 (generateSuggestedQuestions text entities)
     = [ "What is the main purpose of this document?";
         "What are the key terms and conditions?" ].
Proof.
  unfold generateSuggestedQuestions, unique_strings.
  destruct (first_candidates text entities) as [rest ->].
  destruct (unique_from_prefix String.eqb String.eqb_eq
              [ "What is the main purpose of this document?";
                "What are the key terms and conditions?" ] rest [])
    as [tail Ht].
  { repeat constructor; cbn [In]; intuition discriminate. }
  { intros x _ []. }
  pose proof (unique_from_NoDup String.eqb String.eqb_eq [] 
                ([ "What is the main purpose of this document?";
                   "What are the key terms and conditions?" ] ++ rest)) as Hnd.
  rewrite Ht in *. cbn [app] in *.
  split; [|split].
  - rewrite length_firstn. cbn [List.length]. lia.
  - clear Ht. set (l := _ :: _ :: tail) in *. clearbody l.
    rewrite <- (firstn_skipn 6 l) in Hnd. apply NoDup_app_remove_r in Hnd. exact Hnd.
  - reflexivity.
Qed.

(** X9.  When the document has at least one PERSON and one ORGANIZATION
    entity, the six questions are exactly the two general ones, the two about
    the parties and the two about the organizations; the questions about
    dates, amounts and the topic of the document (contract, lease,
    employment, privacy, liability) are cut off by the limit of six. *)
Theorem party_questions_fill_the_list (text : string) (entities : list entity)
        (person organization : entity) (persons organizations : list entity) :
  with_label PERSON entities = person :: persons ->
  with_label ORGANIZATION entities = organization :: organizations ->
  generateSuggestedQuestions text entities
  = [ "What is the main purpose of this document?";
      "What are the key terms and conditions?";
      "Who are the main parties involved in this document?";
      responsibilities_of (entity_text person);
      "What organizations are mentioned in this document?";
      role_of (entity_text organization) ].
Proof.
  intros Hp Ho. unfold generateSuggestedQuestions, unique_strings, candidate_questions.
  rewrite Hp, Ho. cbn [entity_questions].
  set (six := [ "What is the main purpose of this document?";
                "What are the key terms and conditions?";
                "Who are the main parties involved in this document?";
                responsibilities_of (entity_text person);
                "What organizations are mentioned in this document?";
                role_of (entity_text organization) ]).
  match goal with
  | |- firstn 6 (unique_from _ [] (?a ++ ?b ++ ?c ++ ?rest)) = _ =>
      change (a ++ b ++ c ++ rest) with (six ++ rest);
      destruct (unique_from_prefix String.eqb String.eqb_eq six rest []) as [tail Ht]
  end.
  - unfold six, responsibilities_of, role_of.
    repeat (constructor; [cbn [In]; intros H;
                          repeat (destruct H as [H|H]; [cbn in H; discriminate H|]);
                          exact H|]).
    constructor.
  - intros x _ [].
  - rewrite Ht. reflexivity.
Qed.

Lemma party_questions_fill_the_list_witness :
  generateSuggestedQuestions "This lease agreement covers data." sample_entities
  = [ "What is the main purpose of this document?";
      "What are the key terms and conditions?";
      "Who are the main parties involved in this document?";
      responsibilities_of "John Smith";
      "What organizations are mentioned in this document?";
      role_of "Acme Holdings" ].
Proof.
  apply (party_questions_fill_the_list
           "This lease agreement covers data." sample_entities
           sample_person sample_organization [] []); reflexivity.
Defined.
(** ** What the embedding holds *)

Lemma set_own_bucket_fresh (i : nat) (o : object) (k : string) (n : Z) :
  own o k = None ->
  bucket_total i (set_own o k (VNum n))
  = bucket_total i o + (if Nat.eqb (bucket k) i then n else 0).
Proof.
  unfold bucket_total. induction o as [|[k' v'] o IH]; cbn [set_own own filter fst].
  - intros _. destruct (Nat.eqb (bucket k) i); cbn; lia.
  - destruct (String.eqb k k'); [discriminate|]. intros Hown.
    cbn [filter fst]. destruct (Nat.eqb (bucket k') i); cbn [total fold_right snd];
      fold (total (filter (fun e => Nat.eqb (bucket (fst e)) i) (set_own o k (VNum n))));
      fold (total (filter (fun e => Nat.eqb (bucket (fst e)) i) o));
      rewrite (IH Hown); lia.
Qed.

Lemma set_own_bucket_update (i : nat) (o : object) (k : string) (m n : Z) :
  own o k = Some (VNum m) ->
  bucket_total i (set_own o k (VNum n))
  = bucket_total i o + (if Nat.eqb (bucket k) i then n - m else 0).
Proof.
  unfold bucket_total. induction o as [|[k' v'] o IH]; cbn [set_own own filter fst];
    [discriminate|].
  destruct (String.eqb_spec k k') as [<-|Hne].
  - intros [= ->]. cbn [filter fst].
    destruct (Nat.eqb (bucket k) i); cbn [total fold_right snd number_of]; lia.
  - intros Hown. cbn [filter fst].
    destruct (Nat.eqb (bucket k') i); cbn [total fold_right snd];
      fold (total (filter (fun e => Nat.eqb (bucket (fst e)) i) (set_own o k (VNum n))));
      fold (total (filter (fun e => Nat.eqb (bucket (fst e)) i) o));
      rewrite (IH Hown); lia.
Qed.

Lemma count_word_bucket (i : nat) (o : object) (w : string) :
  plain_word w -> Forall is_count o ->
  bucket_total i (count_word o w)
  = bucket_total i o + (if Nat.eqb (bucket w) i then 1 else 0).
Proof.
  intros Hw Ho. unfold count_word, put, get.
  rewrite (plain_word_not_proto w Hw).
  destruct (own o w) as [v|] eqn:E.
  - destruct (own_count o w v Ho E) as (m & -> & Hm).
    assert (Ht : js_add (js_or (VNum m) (VNum 0)) (VNum 1) = VNum (m + 1)).
    { unfold js_or. cbn [truthy]. destruct (Z.eqb_spec m 0); [lia | reflexivity]. }
    rewrite Ht, (set_own_bucket_update i o w m (m + 1) E).
    destruct (Nat.eqb (bucket w) i); lia.
  - rewrite Hw. change (js_add (js_or VUndefined (VNum 0)) (VNum 1)) with (VNum 1).
    apply set_own_bucket_fresh, E.
Qed.

Lemma countWords_buckets (i : nat) (words : list string) (o : object) :
  Forall plain_word words -> Forall is_count o ->
  bucket_total i (fold_left count_word words o)
  = bucket_total i o + bucket_count i words.
Proof.
  intros Hw. revert o. induction Hw as [|w words Hw Hws IH]; intros o Ho.
  - cbn [fold_left]. unfold bucket_count. cbn. lia.
  - cbn [fold_left].
    destruct (count_word_step o w Hw Ho) as [H1 _].
    rewrite (IH _ H1), (count_word_bucket i o w Hw Ho).
    unfold bucket_count. cbn [filter].
    destruct (Nat.eqb (bucket w) i); cbn [List.length]; lia.
Qed.

Lemma bucket_total_perm (i : nat) (o o' : object) :
  Permutation o o' -> bucket_total i o = bucket_total i o'.
Proof.
  intros Hp. unfold bucket_total. apply total_perm.
  induction Hp as [|e o o' _ IH|e e' o|o1 o2 o3 _ IH1 _ IH2]; cbn [filter].
  - constructor.
  - destruct (Nat.eqb (bucket (fst e)) i); [apply perm_skip|]; exact IH.
  - destruct (Nat.eqb (bucket (fst e)) i), (Nat.eqb (bucket (fst e')) i);
      try apply perm_swap; apply Permutation_refl.
  - eapply perm_trans; eassumption.
Qed.

Lemma add_at_nth (i : nat) (n : Z) (ns : list Z) :
  (i < List.length ns)%nat ->
  exists ns',
    add_at i (VNum n) (map VNum ns) = map VNum ns'
    /\ List.length ns' = List.length ns
    /\ forall j, nth j ns' 0 = nth j ns 0 + (if Nat.eqb i j then n else 0).
Proof.
  revert i. induction ns as [|x ns IH]; intros i Hi; cbn [List.length] in Hi; [lia|].
  destruct i as [|i]; cbn [map add_at].
  - exists ((x + n) :: ns). repeat split.
    intros [|j]; cbn [nth Nat.eqb]; lia.
  - destruct (IH i ltac:(lia)) as (ns' & E & Hl & Hn).
    exists (x :: ns'). rewrite E. cbn [map List.length]. repeat split; [lia|].
    intros [|j]; cbn [nth Nat.eqb]; [lia | apply Hn].
Qed.

Lemma accumulate_buckets (es : list (string * value)) (ns : list Z) :
  Forall is_count es -> List.length ns = 100%nat ->
  exists ns',
    fold_left accumulate es (map VNum ns) = map VNum ns'
    /\ List.length ns' = 100%nat
    /\ forall j, nth j ns' 0 = nth j ns 0 + bucket_total j es.
Proof.
  intros Hes. revert ns. induction Hes as [|[k v] es (n & Hv & Hn) Hes IH]; intros ns Hl.
  - exists ns. repeat split; [exact Hl|]. intros j. unfold bucket_total. cbn. lia.
  - cbn [snd] in Hv. subst v. cbn [fold_left]. unfold accumulate at 2. cbn [fst snd].
    destruct (add_at_nth (bucket k) n ns) as (ns1 & E & Hl1 & Hn1);
      [rewrite Hl; apply bucket_bound|].
    rewrite E. destruct (IH ns1 ltac:(lia)) as (ns' & E' & Hl' & Hn').
    exists ns'. repeat split; [exact E' | exact Hl'|].
    intros j. rewrite Hn', Hn1. unfold bucket_total. cbn [filter fst].
    set (rest := filter (fun e => Nat.eqb (bucket (fst e)) j) es).
    destruct (Nat.eqb (bucket k) j); [|lia].
    change (total ((k, VNum n) :: rest)) with (n + total rest). lia.
Qed.

Lemma embedding_buckets (text : string) :
  Forall plain_word (match_words (toLowerCase text)) ->
  createSimpleEmbedding text
  = map (fun i => VNum (bucket_count i (match_words (toLowerCase text)))) (seq 0 100).
Proof.
  intros Hw. unfold createSimpleEmbedding, countWords.
  destruct (countWords_counts _ [] Hw (Forall_nil _)) as [Hc _].
  pose proof (fun i => countWords_buckets i _ [] Hw (Forall_nil _)) as Hb.
  set (words := match_words (toLowerCase text)) in *.
  set (o := fold_left count_word words []) in *.
  destruct (accumulate_buckets (entries o) (repeat 0 100)) as (ns & E & Hl & Hn).
  - eapply Permutation_Forall; [apply entries_perm | exact Hc].
  - apply repeat_length.
  - change zeros with (map VNum (repeat 0 100)). rewrite E.
    rewrite <- (map_map (fun i => bucket_count i words) VNum). f_equal.
    apply (nth_ext _ _ 0 0).
    + rewrite Hl, length_map, length_seq. reflexivity.
    + intros j Hj. rewrite Hl in Hj.
      rewrite Hn, nth_repeat, <- (bucket_total_perm j _ _ (entries_perm o)), Hb.
      rewrite (nth_indep (map (fun i => bucket_count i words) (seq 0 100))
                         0 (bucket_count 0 words))
        by (rewrite length_map, length_seq; exact Hj).
      rewrite (map_nth (fun i => bucket_count i words)), seq_nth by exact Hj.
      unfold bucket_total. cbn [filter total fold_right plus]. lia.
Qed.

(** X10.  For a text none of whose words is [constructor] or [__proto__],
    component [i] of the embedding is the number of word tokens of the
    lower-cased text whose bucket is [i]: words that share a bucket add up,
    and nothing else is stored. *)
Theorem embedding_is_bucket_histogram (text : string) :
  Forall (fun w => w <> "constructor" /\ w <> "__proto__")
         (match_words (toLowerCase text)) ->
  createSimpleEmbedding text
  = map (fun i => VNum (bucket_count i (match_words (toLowerCase text)))) (seq 0 100).
Proof.
  intros Hw. apply embedding_buckets.
  apply Forall_forall. intros w Hin.
  destruct (proj1 (Forall_forall _ _) Hw w Hin) as [H1 H2].
  apply plain_without_capital; [|exact H1 | exact H2].
  exact (proj1 (Forall_forall _ _) (match_words_no_capital text) w Hin).
Qed.

Lemma embedding_is_bucket_histogram_witness :
  createSimpleEmbedding "Payment of $500 is due. Payment is late!"
  = map (fun i => VNum (bucket_count i
                          (match_words (toLowerCase "Payment of $500 is due. Payment is late!"))))
        (seq 0 100).
Proof.
  apply (embedding_is_bucket_histogram "Payment of $500 is due. Payment is late!").
  replace (match_words (toLowerCase "Payment of $500 is due. Payment is late!"))
    with ["payment"; "of"; "500"; "is"; "due"; "payment"; "is"; "late"]
    by (vm_compute; reflexivity).
  repeat constructor; discriminate.
Defined.

Lemma add_at_length (i : nat) (freq : value) (embedding : list value) :
  List.length (add_at i freq embedding) = List.length embedding.
Proof.
  revert i. induction embedding as [|x xs IH]; intros [|i]; cbn [add_at List.length];
    try reflexivity.
  rewrite IH. reflexivity.
Qed.

Lemma ToInt32_range (z : Z) : - 2 ^ 31 <= ToInt32 z < 2 ^ 31.
Proof.
  unfold ToInt32.
  pose proof (Z.mod_pos_bound z (2 ^ 32) ltac:(lia)) as Hm.
  destruct (Z.leb_spec (2 ^ 31) (z mod 2 ^ 32)); lia.
Qed.

(** X11.  For every text, also one that holds [constructor], the embedding
    has exactly 100 components; the hash of every word is a signed 32-bit
    integer and its bucket index lies in [0 .. 99], so no write ever falls
    outside the array. *)
Theorem embedding_stays_in_bounds (text word : string) :
  List.length (createSimpleEmbedding text) = 100%nat
  /\ - 2 ^ 31 <= hashWord word < 2 ^ 31
  /\ (bucket word < 100)%nat.
Proof.
  split; [|split].
  - unfold createSimpleEmbedding.
    generalize (entries (countWords (match_words (toLowerCase text)))).
    intros es.
    assert (H : forall v, List.length v = 100%nat ->
                          List.length (fold_left accumulate es v) = 100%nat).
    { induction es as [|e es IH]; intros v Hv; cbn [fold_left]; [exact Hv|].
      apply IH. unfold accumulate. rewrite add_at_length. exact Hv. }
    apply H. reflexivity.
  - rewrite hashWord_polynomial. unfold hash32.
    destruct (list_ascii_of_string word) as [|c l] using rev_ind.
    + cbn. lia.
    + rewrite fold_left_app. cbn [fold_left]. apply ToInt32_range.
  - apply bucket_bound.
Qed.

Lemma lower_unit_idempotent (c : ascii) : lower_unit (lower_unit c) = lower_unit c.
Proof. destruct c as [[] [] [] [] [] [] [] []]; reflexivity. Qed.

Lemma toLowerCase_idempotent (s : string) : toLowerCase (toLowerCase s) = toLowerCase s.
Proof.
  induction s as [|c s IH]; [reflexivity|].
  cbn [toLowerCase]. rewrite lower_unit_idempotent, IH. reflexivity.
Qed.

(** X12.  The embedding does not see letter case or surrounding white space:
    a text, its lower-cased form and its trimmed form have the same
    embedding. *)
Theorem embedding_ignores_case_and_margins (text : string) :
  createSimpleEmbedding (toLowerCase text) = createSimpleEmbedding text
  /\ createSimpleEmbedding (trim text) = createSimpleEmbedding text.
Proof.
  split.
  - unfold createSimpleEmbedding. rewrite toLowerCase_idempotent. reflexivity.
  - apply createSimpleEmbedding_trim.
Qed.

(** ** Similarity ranker: symmetry on doubles *)

Lemma SFmul_comm (x y : spec_float) : SF64mul x y = SF64mul y x.
Proof.
  unfold SF64mul.
  destruct x as [sx|sx| |sx mx ex], y as [sy|sy| |sy my ey]; cbn [SFmul];
    rewrite ?(xorb_comm sx sy); try reflexivity.
  rewrite (Pos.mul_comm mx my), (Z.add_comm ex ey). reflexivity.
Qed.

Lemma mul_comm_double (x y : float) : PrimFloat.mul x y = PrimFloat.mul y x.
Proof. apply Prim2SF_inj. rewrite !mul_spec. apply SFmul_comm. Qed.

Lemma nth_middle_float (pre : list float) (y : float) (post : list float) :
  nth (List.length pre) (pre ++ y :: post) nan = y.
Proof. induction pre as [|p pre IH]; [reflexivity | exact IH]. Qed.

Lemma reduce_from_dot_swap (a b pre_a pre_b : list float) (acc : float) :
  List.length a = List.length b -> List.length pre_a = List.length pre_b ->
  reduce_from (fun sum val i => PrimFloat.add sum (PrimFloat.mul val (nth i (pre_b ++ b) nan)))
              (List.length pre_a) a acc
  = reduce_from (fun sum val i => PrimFloat.add sum (PrimFloat.mul val (nth i (pre_a ++ a) nan)))
                (List.length pre_a) b acc.
Proof.
  revert b pre_a pre_b acc.
  induction a as [|x a IH]; intros [|y b] pre_a pre_b acc Hl Hp; cbn [List.length] in Hl;
    try discriminate; [reflexivity|].
  cbn [reduce_from].
  rewrite Hp at 2. rewrite (nth_middle_float pre_b y b).
  rewrite (nth_middle_float pre_a x a).
  rewrite (mul_comm_double y x).
  specialize (IH b (pre_a ++ [x]) (pre_b ++ [y]) (PrimFloat.add acc (PrimFloat.mul x y))
                 ltac:(lia) ltac:(rewrite !length_app; cbn [List.length]; lia)).
  rewrite <- !app_assoc, length_app in IH. cbn [app List.length] in IH.
  rewrite Nat.add_1_r in IH. exact IH.
Qed.

Lemma dotProduct_comm (a b : list float) :
  List.length a = List.length b -> dotProduct a b = dotProduct b a.
Proof.
  intros Hl. unfold dotProduct, reduce, at_index.
  exact (reduce_from_dot_swap a b [] [] zero Hl eq_refl).
Qed.



(** ** Passage selector: ties, shape and provenance of the passages *)

Lemma SFcompare_Eq_join (x y v : spec_float) :
  SFcompare x v = Some Eq -> SFcompare y v = Some Eq -> SFcompare x y = Some Eq.
Proof.
  destruct x as [sx|sx| |sx mx ex], y as [sy|sy| |sy my ey], v as [sv|sv| |sv mv ev];
    cbn [SFcompare]; try discriminate; try reflexivity;
    try (destruct sx; try discriminate; try reflexivity);
    try (destruct sy; try discriminate; try reflexivity);
    try (destruct sv; try discriminate; try reflexivity).
  all: rewrite ?Pos.compare_cont_spec; cbn [Pos.switch_Eq];
    destruct (Z.compare_spec ex ev); destruct (Z.compare_spec ey ev);
    destruct (Z.compare_spec ex ey); try discriminate; try reflexivity; try lia;
    subst;
    destruct (Pos.compare_spec mx mv); destruct (Pos.compare_spec my mv);
    destruct (Pos.compare_spec mx my); cbn [CompOpp];
    try discriminate; try reflexivity; try lia.
Qed.

Lemma equal_scores_not_less (a b v : float) :
  PrimFloat.eqb a v = true -> PrimFloat.eqb b v = true -> PrimFloat.ltb a b = false.
Proof.
  rewrite !eqb_spec, ltb_spec. unfold SFeqb, SFltb. intros Ha Hb.
  assert (Ea : SFcompare (Prim2SF a) (Prim2SF v) = Some Eq).
  { destruct (SFcompare (Prim2SF a) (Prim2SF v)) as [[| |]|]; congruence. }
  assert (Eb : SFcompare (Prim2SF b) (Prim2SF v) = Some Eq).
  { destruct (SFcompare (Prim2SF b) (Prim2SF v)) as [[| |]|]; congruence. }
  rewrite (SFcompare_Eq_join _ _ _ Ea Eb). reflexivity.
Qed.

Lemma insert_scored_scoring (v : float) (x : scored) (l : list scored) :
  scoring v (insert_scored x l) = scoring v (x :: l).
Proof.
  unfold scoring. induction l as [|y l IH]; [reflexivity|].
  cbn [insert_scored]. rewrite comparator_test.
  destruct (PrimFloat.ltb (similarity x) (similarity y)) eqn:Elt; [|reflexivity].
  cbn [filter] in *. rewrite IH.
  destruct (PrimFloat.eqb (similarity y) v) eqn:Ey;
    destruct (PrimFloat.eqb (similarity x) v) eqn:Ex; try reflexivity.
  rewrite (equal_scores_not_less _ _ _ Ex Ey) in Elt. discriminate.
Qed.

Lemma sort_scoring (v : float) (l : list scored) : scoring v (sort l) = scoring v l.
Proof.
  induction l as [|x l IH]; [reflexivity|].
  cbn [sort fold_right]. rewrite insert_scored_scoring.
  unfold scoring in *. cbn [filter]. fold (sort l). rewrite IH. reflexivity.
Qed.



Lemma every_char_trimStart (p : ascii -> bool) (s : string) :
  every_char p s = true -> every_char p (trimStart s) = true.
Proof.
  induction s as [|c s IH]; [reflexivity|]. cbn [trimStart].
  destruct (is_space c); [|auto]. cbn [every_char]. intros H.
  apply andb_prop in H. apply IH, H.
Qed.

Lemma every_char_trimEnd (p : ascii -> bool) (s : string) :
  every_char p s = true -> every_char p (trimEnd s) = true.
Proof.
  induction s as [|c s IH]; [reflexivity|]. cbn [trimEnd every_char]. intros H.
  apply andb_prop in H. destruct H as [Hc Hs]. specialize (IH Hs).
  destruct (trimEnd s) as [|c' t].
  - destruct (is_space c); [reflexivity|]. cbn [every_char]. rewrite Hc. reflexivity.
  - cbn [every_char] in *. rewrite Hc, IH. reflexivity.
Qed.

Lemma split_go_avoids_separators (sep : ascii -> bool) (b : bool) (s : string) :
  Forall (fun p => every_char (fun c => negb (sep c)) p = true) (split_go sep b s).
Proof.
  revert b. induction s as [|c s IH]; intros b; cbn [split_go].
  - repeat constructor.
  - destruct (sep c) eqn:Ec.
    + destruct b; [apply IH | constructor; [reflexivity | apply IH]].
    + specialize (IH false). destruct (split_go sep false s) as [|p ps].
      * repeat constructor. cbn [every_char]. rewrite Ec. reflexivity.
      * inversion IH as [|? ? Hp Hps]; subst. constructor; [|exact Hps].
        cbn [every_char]. rewrite Ec, Hp. reflexivity.
Qed.

Lemma trimEnd_idempotent (s : string) : trimEnd (trimEnd s) = trimEnd s.
Proof.
  induction s as [|c s IH]; [reflexivity|]. cbn [trimEnd].
  destruct (trimEnd s) as [|c' t] eqn:E.
  - destruct (is_space c) eqn:Ec; [reflexivity|]. cbn [trimEnd]. rewrite Ec. reflexivity.
  - cbn [trimEnd]. cbn [trimEnd] in IH. rewrite IH. reflexivity.
Qed.

Lemma trimStart_trimEnd (s : string) :
  trimStart s = s -> trimStart (trimEnd s) = trimEnd s.
Proof.
  destruct s as [|c s]; [reflexivity|]. cbn [trimStart trimEnd].
  destruct (is_space c) eqn:Ec.
  - intros H. exfalso.
    assert (Hl : (String.length (trimStart s) <= String.length s)%nat).
    { clear. induction s as [|c s IH]; cbn [trimStart]; [lia|].
      destruct (is_space c); cbn [String.length]; lia. }
    rewrite H in Hl. cbn [String.length] in Hl. lia.
  - intros _. destruct (trimEnd s); cbn [trimStart]; rewrite Ec; reflexivity.
Qed.

Lemma trimStart_idempotent (s : string) : trimStart (trimStart s) = trimStart s.
Proof.
  induction s as [|c s IH]; [reflexivity|]. cbn [trimStart].
  destruct (is_space c) eqn:Ec; [exact IH|]. cbn [trimStart]. rewrite Ec. reflexivity.
Qed.

Lemma trim_idempotent (s : string) : trim (trim s) = trim s.
Proof.
  unfold trim.
  rewrite (trimStart_trimEnd (trimStart s) (trimStart_idempotent s)).
  apply trimEnd_idempotent.
Qed.

(** X15.  Whenever some fragment qualifies, every passage returned is free
    of sentence terminators ([.], [!], [?]), has no white space at either
    end and has at least 31 characters. *)
Theorem passages_are_well_formed (query documentText : string) (topK : nat) :
  sentences_of documentText <> [] ->
  Forall well_formed_passage (findRelevantPassages query documentText topK).
Proof.
  intros Hne. rewrite findRelevantPassages_ranked by assumption.
  apply Forall_forall. intros p Hp.
  apply in_map_iff in Hp. destruct Hp as (x & <- & Hx).
  apply In_firstn in Hx.
  apply (Permutation_in _ (Permutation_sym (sort_perm _))) in Hx.
  apply in_map_iff in Hx. destruct Hx as (s & <- & Hs).
  apply sentences_of_spec in Hs. destruct Hs as [Hin Hlen].
  cbn [sentence score]. repeat split.
  - unfold trim. apply every_char_trimEnd, every_char_trimStart.
    exact (proj1 (Forall_forall _ _)
                 (split_go_avoids_separators is_terminator false documentText) s Hin).
  - apply trim_idempotent.
  - exact Hlen.
Qed.

Lemma passages_are_well_formed_witness :
  Forall well_formed_passage
         (findRelevantPassages "What payment is due?" scenario_B_document 5).
Proof.
  apply (passages_are_well_formed "What payment is due?" scenario_B_document 5).
  vm_compute. discriminate.
Defined.

Lemma sentence_of_score (q : list value) (l : list string) :
  map sentence (map (score q) l) = map trim l.
Proof. rewrite map_map. reflexivity. Qed.

(** X16.  Whenever some fragment qualifies, the selector returns exactly
    [min(topK, n)] passages, where [n] is the number of qualifying fragments,
    and these passages together with the ones cut off are a rearrangement of
    the trimmed qualifying fragments: no passage is made up, repeated or lost
    before the cut, and for [topK >= n] all of them are returned. *)
Theorem passages_rearrange_the_fragments (query documentText : string) (topK : nat) :
  sentences_of documentText <> [] ->
  List.length (findRelevantPassages query documentText topK)
  = Nat.min topK (List.length (sentences_of documentText))
  /\ exists cut_off,
       Permutation (findRelevantPassages query documentText topK ++ cut_off)
                   (map trim (sentences_of documentText))
       /\ List.length cut_off = (List.length (sentences_of documentText) - topK)%nat.
Proof.
  intros Hne. split; [apply findRelevantPassages_length, Hne|].
  rewrite findRelevantPassages_ranked by assumption.
  set (scoreds := map (score (createSimpleEmbedding query)) (sentences_of documentText)).
  exists (map sentence (skipn topK (sort scoreds))). split.
  - rewrite <- map_app, firstn_skipn.
    rewrite <- (sentence_of_score (createSimpleEmbedding query)). fold scoreds.
    apply Permutation_map, Permutation_sym, sort_perm.
  - rewrite length_map, length_skipn, sort_length. unfold scoreds.
    rewrite length_map. reflexivity.
Qed.

Lemma passages_rearrange_the_fragments_witness :
  List.length (findRelevantPassages "What payment is due?" scenario_B_document 2)
  = Nat.min 2 (List.length (sentences_of scenario_B_document))
  /\ exists cut_off,
       Permutation (findRelevantPassages "What payment is due?" scenario_B_document 2
                    ++ cut_off)
                   (map trim (sentences_of scenario_B_document))
       /\ List.length cut_off = (List.length (sentences_of scenario_B_document) - 2)%nat.
Proof.
  apply (passages_rearrange_the_fragments "What payment is due?" scenario_B_document 2).
  vm_compute. discriminate.
Defined.

(** ** Entity de-duplication *)

Lemma label_eqb_spec (a b : label) : label_eqb a b = true <-> a = b.
Proof. destruct a, b; cbn; split; intros H; try reflexivity; discriminate. Qed.

Lemma same_entity_spec (e entity : entity) :
  same_entity e entity = true <-> entity_key e = entity_key entity.
Proof.
  unfold same_entity, entity_key. rewrite andb_true_iff, String.eqb_eq, label_eqb_spec.
  split; [intros [-> ->]; reflexivity | intros H; inversion H; auto].
Qed.

Lemma same_entity_refl (e : entity) : same_entity e e = true.
Proof. apply same_entity_spec. reflexivity. Qed.

Section FirstIndex.
Context {A : Type}.
Variable p : A -> bool.

Lemma findIndex_from_bound (i : nat) (self : list A) :
  findIndex_from p i self = -1
  \/ Z.of_nat i <= findIndex_from p i self < Z.of_nat (i + List.length self).
Proof.
  revert i. induction self as [|x self IH]; intros i; cbn [findIndex_from List.length].
  - left. reflexivity.
  - destruct (p x); [right; lia|]. destruct (IH (S i)) as [H|H]; [left; exact H | right; lia].
Qed.

Lemma findIndex_from_app (i : nat) (pre rest : list A) :
  findIndex_from p i (pre ++ rest)
  = if existsb p pre then findIndex_from p i pre
    else findIndex_from p (i + List.length pre) rest.
Proof.
  revert i. induction pre as [|x pre IH]; intros i; cbn [app existsb findIndex_from List.length].
  - rewrite Nat.add_0_r. reflexivity.
  - destruct (p x); cbn [orb]; [reflexivity|].
    rewrite IH. replace (S i + List.length pre)%nat with (i + S (List.length pre))%nat by lia.
    reflexivity.
Qed.

Lemma first_index_test (pre : list A) (x : A) (post : list A) :
  p x = true ->
  Z.eqb (Z.of_nat (List.length pre)) (findIndex p (pre ++ x :: post)) = negb (existsb p pre).
Proof.
  intros Hx. unfold findIndex. rewrite findIndex_from_app.
  destruct (existsb p pre) eqn:E; cbn [negb].
  - apply Z.eqb_neq. destruct (findIndex_from_bound 0 pre) as [H|H]; lia.
  - cbn [findIndex_from Nat.add]. rewrite Hx. apply Z.eqb_refl.
Qed.

End FirstIndex.

Lemma filter_from_In {A : Type} (p : A -> nat -> bool) (i : nat) (l : list A) (x : A) :
  In x (filter_from p i l) -> In x l.
Proof.
  revert i. induction l as [|y l IH]; intros i; cbn [filter_from]; [auto|].
  destruct (p y i); cbn [In]; intros H; [destruct H as [H|H]|]; eauto.
Qed.

Lemma pushed_after_cons (entities pre : list entity) (x : entity) (l : list entity) :
  entities = pre ++ x :: l ->
  pushed_after entities pre (x :: l)
  = if existsb (fun e => same_entity e x) pre
    then pushed_after entities (pre ++ [x]) l
    else x :: pushed_after entities (pre ++ [x]) l.
Proof.
  intros ->. unfold pushed_after. cbn [filter_from].
  rewrite (first_index_test (fun e => same_entity e x) pre x l (same_entity_refl x)).
  rewrite length_app, Nat.add_1_r.
  destruct (existsb (fun e => same_entity e x) pre); reflexivity.
Qed.

Lemma existsb_same_entity (x : entity) (pre : list entity) :
  existsb (fun e => same_entity e x) pre = true <-> In (entity_key x) (map entity_key pre).
Proof.
  rewrite existsb_exists, in_map_iff. split; intros (e & H1 & H2).
  - exists e. split; [apply same_entity_spec in H2; exact H2 | exact H1].
  - exists e. split; [exact H2 | apply same_entity_spec; exact H1].
Qed.

Lemma pushed_after_keys (entities pre l : list entity) :
  entities = pre ++ l ->
  NoDup (map entity_key (pushed_after entities pre l))
  /\ (forall e, In e (pushed_after entities pre l) -> ~ In (entity_key e) (map entity_key pre))
  /\ (forall e, In e l ->
        In (entity_key e) (map entity_key pre)
        \/ In (entity_key e) (map entity_key (pushed_after entities pre l))).
Proof.
  revert pre. induction l as [|x l IH]; intros pre Hent.
  - repeat split; [constructor | intros e [] | intros e []].
  - rewrite (pushed_after_cons entities pre x l Hent).
    destruct (IH (pre ++ [x])) as (Hnd & Hfresh & Hall).
    { rewrite <- app_assoc. exact Hent. }
    assert (Hfresh' : forall e, In e (pushed_after entities (pre ++ [x]) l) ->
                               ~ In (entity_key e) (map entity_key pre)
                               /\ entity_key e <> entity_key x).
    { intros e He. specialize (Hfresh e He). rewrite map_app, in_app_iff in Hfresh.
      cbn [map In] in Hfresh. split; [tauto|]. intros Heq. apply Hfresh. right. left.
      symmetry. exact Heq. }
    assert (Hall' : forall e, In e l ->
                      In (entity_key e) (map entity_key pre) \/ entity_key e = entity_key x
                      \/ In (entity_key e) (map entity_key (pushed_after entities (pre ++ [x]) l))).
    { intros e He. destruct (Hall e He) as [H|H]; [|tauto].
      rewrite map_app, in_app_iff in H. cbn [map In] in H. intuition auto. }
    destruct (existsb (fun e => same_entity e x) pre) eqn:E.
    + apply existsb_same_entity in E. repeat split.
      * exact Hnd.
      * intros e He. apply Hfresh', He.
      * intros e [<-|He]; [left; exact E|].
        destruct (Hall' e He) as [H|[H|H]]; [left; exact H | left; rewrite H; exact E | right; exact H].
    + assert (Hx : ~ In (entity_key x) (map entity_key pre)).
      { intros H. apply existsb_same_entity in H. congruence. }
      repeat split.
      * cbn [map]. constructor; [|exact Hnd].
        intros H. apply in_map_iff in H. destruct H as (e & Hk & He).
        apply (proj2 (Hfresh' e He)). exact Hk.
      * intros e [<-|He]; [exact Hx | apply Hfresh', He].
      * intros e [<-|He]; [right; left; reflexivity|].
        destruct (Hall' e He) as [H|[H|H]];
          [left; exact H | right; left; symmetry; exact H | right; right; exact H].
Qed.

Lemma first_pushed_spec (entities : list entity) :
  first_pushed entities = pushed_after entities [] entities.
Proof. reflexivity. Qed.

Lemma insert_entity_perm (x : entity) (l : list entity) :
  Permutation (insert_entity x l) (x :: l).
Proof.
  induction l as [|y l IH]; cbn [insert_entity]; [apply Permutation_refl|].
  destruct (Z.ltb 0 (by_start x y)); [|apply Permutation_refl].
  eapply perm_trans; [apply perm_skip, IH | apply perm_swap].
Qed.

Lemma sort_entities_perm (l : list entity) : Permutation (sort_entities l) l.
Proof.
  induction l as [|x l IH]; [apply Permutation_refl|].
  cbn [sort_entities fold_right]. fold (sort_entities l).
  eapply perm_trans; [apply insert_entity_perm | apply perm_skip, IH].
Qed.

Lemma insert_entity_sorted (x : entity) (l : list entity) :
  Sorted starts_ascend l -> Sorted starts_ascend (insert_entity x l).
Proof.
  induction l as [|y l IH]; intros Hs; cbn [insert_entity].
  - repeat constructor.
  - destruct (Z.ltb 0 (by_start x y)) eqn:E.
    + apply Z.ltb_lt in E. unfold by_start in E.
      inversion Hs as [|? ? Hl Hy]; subst. constructor; [apply IH, Hl|].
      destruct l as [|z l]; cbn [insert_entity].
      * constructor. unfold starts_ascend. lia.
      * destruct (Z.ltb 0 (by_start x z)); constructor.
        -- inversion Hy; assumption.
        -- unfold starts_ascend. lia.
    + apply Z.ltb_ge in E. unfold by_start in E.
      constructor; [exact Hs|]. constructor. unfold starts_ascend. lia.
Qed.

Lemma sort_entities_sorted (l : list entity) : Sorted starts_ascend (sort_entities l).
Proof.
  induction l as [|x l IH]; [constructor|].
  cbn [sort_entities fold_right]. apply insert_entity_sorted, IH.
Qed.

Lemma uniqueEntities_perm (entities : list entity) :
  Permutation (uniqueEntities entities) (first_pushed entities).
Proof. apply sort_entities_perm. Qed.

Lemma unique_entities_facts (entities : list entity) :
  NoDup (map entity_key (uniqueEntities entities))
  /\ (forall e, In e (uniqueEntities entities) -> In e entities)
  /\ (forall e, In e entities ->
        exists e', In e' (uniqueEntities entities)
                   /\ entity_text e' = entity_text e /\ entity_label e' = entity_label e).
Proof.
  destruct (pushed_after_keys entities [] entities eq_refl) as (Hnd & _ & Hall).
  rewrite <- first_pushed_spec in Hnd, Hall.
  pose proof (uniqueEntities_perm entities) as Hperm.
  split; [|split].
  - apply (Permutation_NoDup (Permutation_sym (Permutation_map entity_key Hperm)) Hnd).
  - intros e He. apply (Permutation_in _ Hperm) in He.
    exact (filter_from_In _ _ _ _ He).
  - intros e He. destruct (Hall e He) as [[]|H].
    apply in_map_iff in H. destruct H as (e' & Hk & He').
    exists e'. split; [apply (Permutation_in _ (Permutation_sym Hperm)), He'|].
    unfold entity_key in Hk. inversion Hk. auto.
Qed.

(** X17.  The entity list handed out by the extractor is ordered by start
    position, holds no two entities with the same text and label, holds only
    entities that were found, and holds one entity for every text and label
    that was found. *)
Theorem unique_entities_distinct_and_ordered (entities : list entity) :
  Sorted starts_ascend (uniqueEntities entities)
  /\ NoDup (map entity_key (uniqueEntities entities))
  /\ (forall e, In e (uniqueEntities entities) -> In e entities)
  /\ (forall e, In e entities ->
        exists e', In e' (uniqueEntities entities)
                   /\ entity_text e' = entity_text e /\ entity_label e' = entity_label e).
Proof.
  split; [apply sort_entities_sorted | apply unique_entities_facts].
Qed.

Lemma pushed_after_keeps (entities pre l mid : list entity) (e : entity) (post : list entity) :
  entities = pre ++ l -> l = mid ++ e :: post ->
  ~ In (entity_key e) (map entity_key (pre ++ mid)) ->
  In e (pushed_after entities pre l).
Proof.
  revert pre l. induction mid as [|m mid IH]; intros pre l Hent -> Hfresh.
  - cbn [app] in *. rewrite (pushed_after_cons entities pre e post Hent).
    rewrite app_nil_r in Hfresh.
    destruct (existsb (fun x => same_entity x e) pre) eqn:E.
    + apply existsb_same_entity in E. contradiction.
    + left. reflexivity.
  - cbn [app] in Hent |- *. rewrite (pushed_after_cons entities pre m _ Hent).
    assert (Hin : In e (pushed_after entities (pre ++ [m]) (mid ++ e :: post))).
    { apply (IH (pre ++ [m]) _).
      - rewrite <- app_assoc. exact Hent.
      - reflexivity.
      - rewrite <- app_assoc. exact Hfresh. }
    destruct (existsb (fun x => same_entity x m) pre); [exact Hin | right; exact Hin].
Qed.

(** X18.  Of several entities with the same text and label the one pushed
    first is kept, with its own positions: an entity that no earlier element
    of [entities] matches in text and label is in the result. *)
Theorem first_pushed_entity_is_kept (pre : list entity) (e : entity) (post : list entity) :
  ~ In (entity_key e) (map entity_key pre) ->
  In e (uniqueEntities (pre ++ e :: post)).
Proof.
  intros Hfresh.
  apply (Permutation_in _ (Permutation_sym (uniqueEntities_perm _))).
  rewrite first_pushed_spec.
  apply (pushed_after_keeps (pre ++ e :: post) [] (pre ++ e :: post) pre e post
                            eq_refl eq_refl).
  exact Hfresh.
Qed.

Lemma first_pushed_entity_is_kept_witness :
  In {| entity_text := "Acme Corp"; entity_label := ORGANIZATION;
        entity_start := 40; entity_end := 49 |}
     (uniqueEntities pushed_entities)
  /\ List.length (uniqueEntities pushed_entities) = 2%nat.
Proof.
  split; [|reflexivity].
  apply (first_pushed_entity_is_kept [] _ (tl pushed_entities)).
  intros [].
Defined.

Lemma NoDup_texts_of (l : label) (entities : list entity) :
  NoDup (map entity_key entities) -> NoDup (texts_of l entities).
Proof.
  unfold texts_of. induction entities as [|e entities IH]; intros Hnd; [constructor|].
  cbn [map] in Hnd. inversion Hnd as [|? ? Hfresh Hrest]; subst.
  cbn [filter]. destruct (label_eqb (entity_label e) l) eqn:E; [|apply IH, Hrest].
  cbn [map]. constructor; [|apply IH, Hrest].
  intros Hin. apply in_map_iff in Hin. destruct Hin as (e' & Ht & He').
  apply filter_In in He'. destruct He' as [He' El'].
  apply label_eqb_spec in E, El'. apply Hfresh. apply in_map_iff.
  exists e'. split; [|exact He']. unfold entity_key. congruence.
Qed.

(** X19.  De-duplication loses no name: for every label the texts listed
    after it are the texts found for that label, each of them once. *)
Theorem unique_entities_keep_every_name (l : label) (entities : list entity) :
  NoDup (texts_of l (uniqueEntities entities))
  /\ forall t, In t (texts_of l (uniqueEntities entities)) <-> In t (texts_of l entities).
Proof.
  destruct (unique_entities_facts entities) as (Hnd & Hsub & Hall).
  split; [apply NoDup_texts_of, Hnd|].
  intros t. unfold texts_of. rewrite !in_map_iff. split; intros (e & Ht & He).
  - apply filter_In in He. destruct He as [He El].
    exists e. split; [exact Ht|]. apply filter_In. split; [apply Hsub, He | exact El].
  - apply filter_In in He. destruct He as [He El].
    destruct (Hall e He) as (e' & He' & Htext & Hlabel).
    exists e'. split; [congruence|]. apply filter_In. split; [exact He'|].
    rewrite Hlabel. exact El.
Qed.

(** ** Document upload *)

Lemma trimEnd_keeps_head (c : ascii) (s : string) :
  is_space c = false -> trimEnd (String c s) <> EmptyString.
Proof.
  intros Hc. cbn [trimEnd]. destruct (trimEnd s); [rewrite Hc|]; discriminate.
Qed.

Lemma trim_keeps_head (c : ascii) (s : string) :
  is_space c = false -> trim (String c s) <> EmptyString.
Proof.
  intros Hc. unfold trim. cbn [trimStart]. rewrite Hc. apply trimEnd_keeps_head, Hc.
Qed.

Lemma file_analysis_not_blank (f : file) (method : string) :
  trim (file_analysis f method) <> EmptyString.
Proof.
  unfold file_analysis, unlines. cbn [String.concat String.append].
  apply trim_keeps_head. reflexivity.
Qed.

Lemma blank_spec (text : string) : blank text = false -> trim text <> EmptyString.
Proof.
  unfold blank. intros H. apply orb_false_elim in H. destruct H as [_ H].
  apply Nat.eqb_neq in H. intros E. rewrite E in H. apply H. reflexivity.
Qed.

Lemma run_analyse (extractLegalEntities : string -> list entity) (tools : extractors)
      (network : request -> response) (env : environment) (f : file)
      (extracted method : string) :
  let text := if blank extracted then file_analysis f method else extracted in
  run network (DocumentRoute.analyse extractLegalEntities env f extracted method)
  = (attempts network (generateSummary extractLegalEntities env text),
     Analysed
       {| entities := extractLegalEntities text;
          summary := result network (generateSummary extractLegalEntities env text);
          fullText := text;
          processingMethod := method;
          suggestedQuestions := generateSuggestedQuestions text (extractLegalEntities text);
          info := {| info_name := file_name f; info_type := file_type f;
                     info_size := file_size f; textLength := String.length text |} |}).
Proof.
  intros text. unfold DocumentRoute.analyse. fold text. rewrite run_bind.
  cbn [run fst snd]. rewrite app_nil_r. reflexivity.
Qed.

(** X20.  An upload without a file, with an empty [file] field or with a
    file of more than 10 MiB (10485760 bytes) is answered at once: nothing is
    created or written on disk and no provider is contacted.  The answer is
    status 400, except when the form cannot be read, which gives the
    error-recovery analysis. *)
Theorem upload_turned_away_without_effect
        (extractLegalEntities : string -> list entity) (tools : extractors)
        (network : request -> response) (env : environment) (d : disk) (u : upload) :
  turned_away u ->
  fst (DocumentRoute.POST extractLegalEntities tools env d u) = []
  /\ run network (snd (DocumentRoute.POST extractLegalEntities tools env d u))
     = ([], match u with
            | NoForm => Analysed error_recovery
            | FileEntry _ => Refused 400 "File too large. Maximum size is 10MB."
            | _ => Refused 400 "No file provided"
            end).
Proof.
  destruct u as [| |s|f]; cbn [turned_away DocumentRoute.POST]; intros H.
  - split; reflexivity.
  - split; reflexivity.
  - subst s. split; reflexivity.
  - apply Z.ltb_lt in H. rewrite H. split; reflexivity.
Qed.

Lemma upload_turned_away_without_effect_witness :
  fst (DocumentRoute.POST no_entities no_tools both_keys working_disk (FileEntry huge_file)) = []
  /\ run unreachable
         (snd (DocumentRoute.POST no_entities no_tools both_keys working_disk
                                  (FileEntry huge_file)))
     = ([], Refused 400 "File too large. Maximum size is 10MB.").
Proof.
  apply (upload_turned_away_without_effect no_entities no_tools unreachable both_keys
                                           working_disk (FileEntry huge_file)).
  reflexivity.
Defined.

(** X21.  A file of an unsupported type is refused with status 400 only
    after it has been stored: the handler creates the directory when it is
    missing, writes the whole content under the name sent by the client, and
    then answers "Unsupported file type"; no provider is contacted. *)
Theorem unsupported_file_is_stored_then_refused
        (extractLegalEntities : string -> list entity) (tools : extractors)
        (network : request -> response) (env : environment) (d : disk) (f : file) :
  file_size f <= size_limit ->
  (uploads_exists d || mkdir_succeeds d)%bool = true ->
  writeFile_succeeds d = true ->
  DocumentRoute.extract tools f = Unsupported ->
  fst (DocumentRoute.POST extractLegalEntities tools env d (FileEntry f))
  = (if uploads_exists d then [] else [Mkdir])
    ++ [WriteFile (file_name f) (file_content f)]
  /\ run network (snd (DocumentRoute.POST extractLegalEntities tools env d (FileEntry f)))
     = ([], Refused 400 (unsupported_type f)).
Proof.
  intros Hsize Hdir Hwrite Hext. cbn [DocumentRoute.POST].
  apply Z.ltb_ge in Hsize. rewrite Hsize, Hdir, Hwrite, Hext. cbn [negb].
  split; reflexivity.
Qed.

Lemma unsupported_file_is_stored_then_refused_witness :
  fst (DocumentRoute.POST no_entities no_tools both_keys working_disk (FileEntry archive_file))
  = [Mkdir; WriteFile "bundle.zip" "PK34"]
  /\ run answering
         (snd (DocumentRoute.POST no_entities no_tools both_keys working_disk
                                  (FileEntry archive_file)))
     = ([], Refused 400 (unsupported_type archive_file)).
Proof.
  apply (unsupported_file_is_stored_then_refused no_entities no_tools answering both_keys
                                                 working_disk archive_file);
    [unfold size_limit; cbn [file_size archive_file]; lia | reflexivity ..].
Defined.

(** X22.  Whatever is uploaded and whatever the disk and the providers do,
    the handler answers.  A refusal has status 400 and comes without any
    provider call.  An analysis never has a blank [fullText]; it is either
    the error-recovery analysis, sent without any provider call, or the
    analysis of an uploaded file: then its entities, questions and summary
    are those of [fullText], [textLength] is the length of [fullText], the
    file information repeats name, type and size of the upload, and the
    requests sent are those of [generateSummary] on [fullText]. *)
Theorem upload_reply
        (extractLegalEntities : string -> list entity) (tools : extractors)
        (network : request -> response) (env : environment) (d : disk) (u : upload) :
  let sent := attempts network (snd (DocumentRoute.POST extractLegalEntities tools env d u)) in
  match result network (snd (DocumentRoute.POST extractLegalEntities tools env d u)) with
  | Refused status _ => status = 400 /\ sent = []
  | Analysed a =>
      trim (fullText a) <> EmptyString
      /\ ((a = error_recovery /\ sent = [])
          \/ exists f,
               u = FileEntry f
               /\ entities a = extractLegalEntities (fullText a)
               /\ suggestedQuestions a
                  = generateSuggestedQuestions (fullText a) (entities a)
               /\ summary a
                  = result network (generateSummary extractLegalEntities env (fullText a))
               /\ sent = attempts network (generateSummary extractLegalEntities env (fullText a))
               /\ info a = {| info_name := file_name f; info_type := file_type f;
                              info_size := file_size f;
                              textLength := String.length (fullText a) |})
  end.
Proof.
  assert (Hrec : trim (fullText error_recovery) <> EmptyString) by (vm_compute; discriminate).
  unfold attempts, result.
  destruct u as [| |s|f]; cbn [DocumentRoute.POST].
  - cbn. split; [exact Hrec | left; split; reflexivity].
  - cbn. split; reflexivity.
  - destruct (String.eqb s EmptyString); cbn [snd run fst].
    + split; reflexivity.
    + split; [exact Hrec | left; split; reflexivity].
  - destruct (Z.ltb size_limit (file_size f)); [cbn; split; reflexivity|].
    destruct (negb (uploads_exists d || mkdir_succeeds d));
      [cbn [snd run fst]; split; [exact Hrec | left; split; reflexivity]|].
    destruct (negb (writeFile_succeeds d));
      [cbn [snd run fst]; split; [exact Hrec | left; split; reflexivity]|].
    destruct (DocumentRoute.extract tools f) as [|extracted method];
      [cbn; split; reflexivity|].
    cbn [snd]. rewrite (run_analyse extractLegalEntities tools). cbn [fst snd fullText].
    split.
    + destruct (blank extracted) eqn:E; [apply file_analysis_not_blank | apply blank_spec, E].
    + right. exists f. cbn [entities suggestedQuestions summary info fullText].
      repeat split.
Qed.

(** ** Basic summary: the reported word count *)

Lemma length_nonempty_empty (pieces : list string) :
  List.length pieces
  = (List.length (filter nonempty pieces) + count_empty pieces)%nat.
Proof.
  unfold count_empty. induction pieces as [|p pieces IH]; [reflexivity|].
  cbn [filter List.length]. destruct (nonempty p); cbn [negb List.length]; lia.
Qed.

Lemma count_empty_cons (p : string) (ps : list string) :
  count_empty (p :: ps) = (Nat.b2n (negb (nonempty p)) + count_empty ps)%nat.
Proof. unfold count_empty. cbn [filter]. destruct (nonempty p); reflexivity. Qed.

Lemma split_go_margins (sep : ascii -> bool) (s : string) :
  (forall b, exists p ps, split_go sep b s = p :: ps)
  /\ nonempty (hd EmptyString (split_go sep false s))
     = match s with EmptyString => false | String c _ => negb (sep c) end
  /\ count_empty (split_go sep true s)
     = match s with EmptyString => 1%nat | _ => Nat.b2n (ends_in sep s) end
  /\ count_empty (split_go sep false s)
     = match s with
       | EmptyString => 1%nat
       | String c _ => (Nat.b2n (sep c) + Nat.b2n (ends_in sep s))%nat
       end.
Proof.
  induction s as [|c s (Hne & Hhd & Htrue & Hfalse)].
  - repeat split; intros; cbn; eauto.
  - assert (Hne' : forall b, exists p ps, split_go sep b (String c s) = p :: ps).
    { intros b. cbn [split_go]. destruct (sep c).
      - destruct b; [apply Hne | eauto].
      - destruct (Hne false) as (p & ps & ->). eauto. }
    split; [exact Hne'|].
    assert (Hlast : ends_in sep (String c s)
                    = match s with EmptyString => sep c | _ => ends_in sep s end).
    { destruct s; reflexivity. }
    rewrite Hlast. cbn [split_go]. destruct (sep c) eqn:Ec; cbn [negb Nat.b2n].
    + rewrite count_empty_cons, Htrue. cbn [hd nonempty negb Nat.b2n].
      destruct s; repeat split; lia.
    + destruct (Hne false) as (p & ps & Hp). rewrite Hp in Hhd, Hfalse |- *.
      cbn [hd nonempty] in *. rewrite count_empty_cons in Hfalse |- *.
      rewrite Hhd in Hfalse. cbn [nonempty negb Nat.b2n].
      destruct s as [|c' s]; [cbn [negb Nat.b2n] in *; repeat split; lia|].
      destruct (sep c'); cbn [negb Nat.b2n] in *; repeat split; lia.
Qed.

Lemma split_count (text : string) :
  List.length (split_on is_space text)
  = (List.length (words_of text) + margin_pieces text)%nat.
Proof.
  unfold split_on, words_of, split_on. rewrite length_nonempty_empty. f_equal.
  destruct (split_go_margins is_space text) as (_ & _ & _ & H). rewrite H.
  unfold margin_pieces. destruct text as [|c s]; reflexivity.
Qed.

Lemma words_of_spec (text : string) :
  Forall (fun w => w <> EmptyString /\ every_char (fun c => negb (is_space c)) w = true)
         (words_of text).
Proof.
  unfold words_of, split_on. apply Forall_forall. intros w Hw.
  apply filter_In in Hw. destruct Hw as [Hin Hne]. split.
  - intros ->. discriminate.
  - exact (proj1 (Forall_forall _ _) (split_go_avoids_separators is_space false text) w Hin).
Qed.

Lemma append_assoc (a b c : string) : ((a ++ b) ++ c = a ++ (b ++ c))%string.
Proof. induction a as [|x a IH]; [reflexivity|]. cbn [String.append]. rewrite IH. reflexivity. Qed.

(** X23.  The basic summary opens with its header and the line
    [Document Length: n words, ...], where [n] is the number of words (the
    non-empty runs of characters without white space) plus one for white
    space at the start of the text and one for white space at its end; the
    empty text is reported as 1 word, so [n] is never 0. *)
Theorem basic_summary_word_count
        (extractLegalEntities : string -> list entity) (text : string) :
  let n := (List.length (words_of text) + margin_pieces text)%nat in
  String.prefix (summary_header ++ nl ++ nl ++ "Document Length: "
                 ++ string_of_nat n ++ " words, ")
                (generateBasicSummary extractLegalEntities text) = true
  /\ (1 <= n)%nat
  /\ Forall (fun w => w <> EmptyString
                      /\ every_char (fun c => negb (is_space c)) w = true)
            (words_of text).
Proof.
  intros n. split; [|split].
  - unfold generateBasicSummary. rewrite split_count. fold n.
    set (p := (summary_header ++ nl ++ nl ++ "Document Length: "
               ++ string_of_nat n ++ " words, ")%string).
    match goal with
    | |- String.prefix p ?s = true =>
        assert (H : exists rest, s = (p ++ rest)%string)
    end.
    { unfold p. eexists. rewrite !append_assoc. reflexivity. }
    destruct H as (rest & ->). apply prefix_append.
  - unfold n, margin_pieces. destruct text as [|c s]; [cbn; lia|].
    unfold words_of, split_on. cbn [split_go starts_with_space].
    destruct (is_space c); cbn [Nat.b2n]; [lia|].
    destruct (split_go_margins is_space s) as (Hne & _).
    destruct (Hne false) as (p0 & ps & ->). cbn [filter nonempty List.length]. lia.
  - apply words_of_spec.
Qed.

(** ** Page and routes together *)

Lemma trim_nonempty (s : string) : trim s <> EmptyString -> s <> EmptyString.
Proof. intros H ->. apply H. reflexivity. Qed.

Lemma analysed_text_not_blank
      (extractLegalEntities : string -> list entity) (tools : extractors)
      (network : request -> response) (env : environment) (d : disk) (u : upload)
      (a : analysis) :
  result network (snd (DocumentRoute.POST extractLegalEntities tools env d u)) = Analysed a ->
  trim (fullText a) <> EmptyString.
Proof.
  assert (Hrec : trim (fullText error_recovery) <> EmptyString) by (vm_compute; discriminate).
  assert (Hcase : forall r : document_reply,
             r = Analysed error_recovery \/ (exists s e, r = Refused s e) ->
             r = Analysed a -> trim (fullText a) <> EmptyString).
  { intros r [->|(s & e & ->)] [=]; subst; exact Hrec. }
  unfold result.
  destruct u as [| |s|f]; cbn [DocumentRoute.POST].
  - apply Hcase. left. reflexivity.
  - apply Hcase. right. cbn. eauto.
  - destruct (String.eqb s EmptyString); apply Hcase; cbn; eauto.
  - destruct (Z.ltb size_limit (file_size f)); [apply Hcase; cbn; eauto|].
    destruct (negb (uploads_exists d || mkdir_succeeds d)); [apply Hcase; cbn; eauto|].
    destruct (negb (writeFile_succeeds d)); [apply Hcase; cbn; eauto|].
    destruct (DocumentRoute.extract tools f) as [|extracted method];
      [apply Hcase; cbn; eauto|].
    cbn [snd]. rewrite (run_analyse extractLegalEntities tools). cbn [snd].
    intros [= <-]. cbn [fullText].
    destruct (blank extracted) eqn:E; [apply file_analysis_not_blank | apply blank_spec, E].
Qed.

Lemma run_chat_POST (network : request -> response) (env : environment)
      (message documentText : string) :
  message <> EmptyString -> documentText <> EmptyString ->
  run network (ChatRoute.POST env (Fields (JString message) (JString documentText)))
  = (attempts network (generateChatResponse env message documentText),
     Answered 200 (result network (generateChatResponse env message documentText))
              "gemini-2.0-flash").
Proof.
  intros Hm Hd. unfold ChatRoute.POST.
  assert (Em : missing (JString message) = false) by (apply missing_spec; eauto).
  assert (Ed : missing (JString documentText) = false) by (apply missing_spec; eauto).
  rewrite Em, Ed. cbn [string_of_json]. rewrite run_bind. cbn [run fst snd].
  rewrite app_nil_r. reflexivity.
Qed.

(** X24.  Page and routes together.  After an upload the page posts a chat
    request only when the upload was analysed (not refused) and the input is
    not blank; the request then carries the input and the [fullText] of the
    analysis, and the chat route never rejects it: whatever was uploaded, it
    passes both guards and is answered with status 200 from the chain run on
    that text. *)
Theorem page_chat_is_never_rejected
        (extractLegalEntities : string -> list entity) (tools : extractors)
        (upload_network chat_network : request -> response)
        (upload_env chat_env : environment) (d : disk) (u : upload)
        (chatInput : string) :
  let reply :=
    result upload_network
           (snd (DocumentRoute.POST extractLegalEntities tools upload_env d u)) in
  match handleChatSubmit chatInput (analysis_after reply) with
  | None => trim chatInput = EmptyString \/ exists status error, reply = Refused status error
  | Some body =>
      exists a,
        reply = Analysed a
        /\ body = Fields (JString chatInput) (JString (fullText a))
        /\ run chat_network (ChatRoute.POST chat_env body)
           = (attempts chat_network (generateChatResponse chat_env chatInput (fullText a)),
              Answered 200
                       (result chat_network
                               (generateChatResponse chat_env chatInput (fullText a)))
                       "gemini-2.0-flash")
  end.
Proof.
  intros reply.
  pose proof (analysed_text_not_blank extractLegalEntities tools upload_network
                                      upload_env d u) as Htext.
  fold reply in Htext. destruct reply as [status error|a]; cbn [analysis_after handleChatSubmit].
  - right. eauto.
  - destruct (String.eqb (trim chatInput) EmptyString) eqn:E.
    + left. apply String.eqb_eq, E.
    + exists a. split; [reflexivity|]. split; [reflexivity|].
      apply run_chat_POST.
      * apply trim_nonempty. apply String.eqb_neq, E.
      * apply trim_nonempty, (Htext a eq_refl).
Qed.

(** ** [slugify] *)

Lemma slug_source_lower (c : ascii) :
  slug_source_char (lower_unit c) = true ->
  (slug_separator (lower_unit c) || slug_char (lower_unit c))%bool = true.
Proof. destruct c as [[] [] [] [] [] [] [] []]; intros H; try reflexivity; discriminate H. Qed.

Lemma keep_chars_lower (s : string) :
  every_char (fun c => (slug_separator c || slug_char c)%bool)
             (keep_chars slug_source_char (toLowerCase s)) = true.
Proof.
  induction s as [|c s IH]; [reflexivity|]. cbn [toLowerCase keep_chars].
  destruct (slug_source_char (lower_unit c)) eqn:E; [|exact IH].
  cbn [every_char]. rewrite (slug_source_lower c E), IH. reflexivity.
Qed.

Lemma dash_is_separator (c : ascii) : slug_separator c = false -> is_dash c = false.
Proof.
  unfold slug_separator. intros H. apply orb_false_elim in H. apply H.
Qed.

Lemma replace_runs_slug (b : bool) (s : string) :
  every_char (fun c => (slug_separator c || slug_char c)%bool) s = true ->
  every_char slug_char (replace_runs slug_separator "-" b s) = true
  /\ no_neighbours is_dash b (replace_runs slug_separator "-" b s) = true.
Proof.
  revert b. induction s as [|c s IH]; intros b H; [split; reflexivity|].
  cbn [every_char] in H. apply andb_prop in H. destruct H as [Hc Hs].
  cbn [replace_runs]. destruct (slug_separator c) eqn:E.
  - destruct (IH true Hs) as [H1 H2]. destruct b; [split; assumption|].
    cbn [every_char no_neighbours]. rewrite H1.
    change (is_dash "-") with true. rewrite H2. split; reflexivity.
  - cbn [orb] in Hc. pose proof (dash_is_separator c E) as Hdash.
    destruct (IH false Hs) as [H1 H2]. rename Hc into Hslug.
    cbn [every_char no_neighbours]. rewrite Hslug, H1, Hdash, H2, andb_false_r.
    split; reflexivity.
Qed.

Section Strip.
Variable class : ascii -> bool.

Lemma every_char_strip_leading (p : ascii -> bool) (s : string) :
  every_char p s = true -> every_char p (strip_leading class s) = true.
Proof.
  induction s as [|c s IH]; [reflexivity|]. cbn [strip_leading].
  destruct (class c); [|auto]. cbn [every_char]. intros H.
  apply andb_prop in H. apply IH, H.
Qed.

Lemma every_char_strip_trailing (p : ascii -> bool) (s : string) :
  every_char p s = true -> every_char p (strip_trailing class s) = true.
Proof.
  induction s as [|c s IH]; [reflexivity|]. cbn [strip_trailing every_char]. intros H.
  apply andb_prop in H. destruct H as [Hc Hs]. specialize (IH Hs).
  destruct (strip_trailing class s) as [|c' t].
  - destruct (class c); [reflexivity|]. cbn [every_char]. rewrite Hc. reflexivity.
  - cbn [every_char] in *. rewrite Hc, IH. reflexivity.
Qed.

Lemma no_neighbours_weaken (after : bool) (s : string) :
  no_neighbours class after s = true -> no_neighbours class false s = true.
Proof.
  destruct s as [|c s]; [reflexivity|]. cbn [no_neighbours andb negb].
  intros H. apply andb_prop in H. apply H.
Qed.

Lemma no_neighbours_strip_leading (after : bool) (s : string) :
  no_neighbours class after s = true ->
  no_neighbours class false (strip_leading class s) = true.
Proof.
  revert after. induction s as [|c s IH]; intros after H; [reflexivity|].
  cbn [strip_leading]. destruct (class c) eqn:E.
  - cbn [no_neighbours] in H. apply andb_prop in H. apply (IH (class c)), H.
  - apply (no_neighbours_weaken after), H.
Qed.

Lemma no_neighbours_strip_trailing (after : bool) (s : string) :
  no_neighbours class after s = true ->
  no_neighbours class after (strip_trailing class s) = true.
Proof.
  revert after. induction s as [|c s IH]; intros after H; [reflexivity|].
  cbn [no_neighbours] in H. apply andb_prop in H. destruct H as [Hc Hs].
  specialize (IH _ Hs). cbn [strip_trailing].
  destruct (strip_trailing class s) as [|c' t].
  - destruct (class c) eqn:E; [reflexivity|]. cbn [no_neighbours].
    rewrite E, andb_false_r. reflexivity.
  - cbn [no_neighbours] in *. rewrite Hc, IH. reflexivity.
Qed.

Lemma strip_leading_start (s : string) : starts_in class (strip_leading class s) = false.
Proof.
  induction s as [|c s IH]; [reflexivity|]. cbn [strip_leading].
  destruct (class c) eqn:E; [exact IH | exact E].
Qed.

Lemma strip_trailing_start (s : string) :
  starts_in class s = false -> starts_in class (strip_trailing class s) = false.
Proof.
  destruct s as [|c s]; [reflexivity|]. cbn [starts_in strip_trailing]. intros H.
  destruct (strip_trailing class s); [rewrite H|]; exact H.
Qed.

Lemma strip_trailing_end (s : string) : ends_in class (strip_trailing class s) = false.
Proof.
  induction s as [|c s IH]; [reflexivity|]. cbn [strip_trailing].
  destruct (strip_trailing class s) as [|c' t] eqn:E.
  - destruct (class c) eqn:Ec; [reflexivity | exact Ec].
  - exact IH.
Qed.

Lemma strip_leading_id (s : string) : starts_in class s = false -> strip_leading class s = s.
Proof.
  destruct s as [|c s]; [reflexivity|]. cbn [starts_in strip_leading]. intros ->. reflexivity.
Qed.

Lemma strip_trailing_id (s : string) : ends_in class s = false -> strip_trailing class s = s.
Proof.
  induction s as [|c s IH]; [reflexivity|]. intros H. cbn [strip_trailing].
  destruct s as [|c' s].
  - cbn in H |- *. rewrite H. reflexivity.
  - rewrite (IH H). reflexivity.
Qed.

End Strip.

Lemma slug_char_fixed (c : ascii) :
  slug_char c = true -> lower_unit c = c /\ slug_source_char c = true
                        /\ slug_separator c = is_dash c.
Proof.
  destruct c as [[] [] [] [] [] [] [] []]; intros H; try discriminate H;
    repeat split; reflexivity.
Qed.

Lemma slug_lower_keep (s : string) :
  every_char slug_char s = true ->
  keep_chars slug_source_char (toLowerCase s) = s.
Proof.
  induction s as [|c s IH]; [reflexivity|]. cbn [every_char]. intros H.
  apply andb_prop in H. destruct H as [Hc Hs].
  destruct (slug_char_fixed c Hc) as (Hl & Hk & _).
  cbn [toLowerCase keep_chars]. rewrite Hl, Hk, (IH Hs). reflexivity.
Qed.

Lemma slug_replace_runs (after : bool) (s : string) :
  every_char slug_char s = true -> no_neighbours is_dash after s = true ->
  replace_runs slug_separator "-" false s = s.
Proof.
  revert after. induction s as [|c s IH]; intros after Hchars Hn; [reflexivity|].
  cbn [every_char] in Hchars. apply andb_prop in Hchars. destruct Hchars as [Hc Hs].
  cbn [no_neighbours] in Hn. apply andb_prop in Hn. destruct Hn as [_ Hn].
  destruct (slug_char_fixed c Hc) as (_ & _ & Hsep).
  cbn [replace_runs]. rewrite Hsep. destruct (is_dash c) eqn:Ed.
  - assert (Ec : c = "-"%char).
    { revert Ed. clear. destruct c as [[] [] [] [] [] [] [] []]; intros H;
        try discriminate H; reflexivity. }
    subst c. f_equal.
    destruct s as [|c' s]; [reflexivity|].
    cbn [no_neighbours andb] in Hn. apply andb_prop in Hn. destruct Hn as [Hc' Hn'].
    apply negb_true_iff in Hc'.
    cbn [every_char] in Hs. apply andb_prop in Hs. destruct Hs as [Hsc Hss].
    destruct (slug_char_fixed c' Hsc) as (_ & _ & Hsep').
    cbn [replace_runs]. rewrite Hsep', Hc'. f_equal.
    specialize (IH false). cbn [replace_runs every_char no_neighbours] in IH.
    rewrite Hsep', Hc', Hsc, Hss in IH. cbn [andb negb] in IH.
    rewrite Hc' in Hn'. specialize (IH eq_refl Hn'). injection IH as IH. exact IH.
  - f_equal. apply (IH false Hs Hn).
Qed.

Lemma slugify_is_slug (text : string) : is_slug (slugify text) = true.
Proof.
  unfold is_slug, slugify.
  destruct (replace_runs_slug false _ (keep_chars_lower text)) as [Hchars Hn].
  set (r := replace_runs slug_separator "-" false
                         (keep_chars slug_source_char (toLowerCase text))) in *.
  rewrite (every_char_strip_trailing is_dash _ _
             (every_char_strip_leading is_dash _ _ Hchars)).
  rewrite (strip_trailing_start is_dash _ (strip_leading_start is_dash r)).
  rewrite (strip_trailing_end is_dash).
  rewrite (no_neighbours_strip_trailing is_dash _ _
             (no_neighbours_strip_leading is_dash _ _ Hn)).
  reflexivity.
Qed.

Lemma is_slug_spec (s : string) :
  is_slug s = true <->
  every_char slug_char s = true /\ starts_in is_dash s = false
  /\ ends_in is_dash s = false /\ no_neighbours is_dash false s = true.
Proof.
  unfold is_slug. rewrite !andb_true_iff, !negb_true_iff. tauto.
Qed.

Lemma slugify_fixes_slugs (s : string) : is_slug s = true -> slugify s = s.
Proof.
  intros H. apply is_slug_spec in H. destruct H as (Hc & Hs & He & Hn).
  unfold slugify. rewrite (slug_lower_keep s Hc), (slug_replace_runs false s Hc Hn).
  rewrite (strip_leading_id is_dash s Hs). apply (strip_trailing_id is_dash s He).
Qed.

(** X25.  Every result of [slugify] is a well-formed slug: it consists of
    [a-z], [0-9] and [-] only, neither starts nor ends with a dash and holds
    no two dashes in a row.  The well-formed slugs are exactly the strings
    that [slugify] leaves as they are, so applying it twice gives the same as
    applying it once. *)
Theorem slugify_gives_a_slug (text slug : string) :
  (every_char slug_char (slugify text) = true
   /\ starts_in is_dash (slugify text) = false
   /\ ends_in is_dash (slugify text) = false
   /\ no_neighbours is_dash false (slugify text) = true)
  /\ (is_slug slug = true <-> slugify slug = slug)
  /\ slugify (slugify text) = slugify text.
Proof.
  split; [apply is_slug_spec, slugify_is_slug|]. split.
  - split; [apply slugify_fixes_slugs|]. intros <-. apply slugify_is_slug.
  - apply slugify_fixes_slugs, slugify_is_slug.
Qed.

(** ** [getFileExtension] and [getMimeType] *)

Lemma lastIndexOf_from_absent (c : ascii) (i : Z) (s : string) :
  every_char (fun x => negb (Ascii.eqb x c)) s = true -> lastIndexOf_from c i s = -1.
Proof.
  revert i. induction s as [|x s IH]; intros i H; [reflexivity|].
  cbn [every_char] in H. apply andb_prop in H. destruct H as [Hx Hs].
  cbn [lastIndexOf_from]. rewrite (IH (i + 1) Hs). apply negb_true_iff in Hx.
  rewrite Hx. reflexivity.
Qed.

Lemma lastIndexOf_from_last (c : ascii) (i : Z) (stem ext : string) :
  0 <= i ->
  every_char (fun x => negb (Ascii.eqb x c)) ext = true ->
  lastIndexOf_from c i (stem ++ String c ext) = i + Z.of_nat (String.length stem).
Proof.
  intros Hi Hext. revert i Hi.
  induction stem as [|x stem IH]; intros i Hi; cbn [String.append lastIndexOf_from String.length].
  - rewrite (lastIndexOf_from_absent c (i + 1) ext Hext).
    change (Z.leb 0 (-1)) with false. cbv iota.
    rewrite Ascii.eqb_refl. cbn [Z.of_nat]. lia.
  - rewrite (IH (i + 1)) by lia.
    destruct (Z.leb_spec 0 (i + 1 + Z.of_nat (String.length stem))); lia.
Qed.

Lemma drop_all (n : nat) (s : string) : (String.length s <= n)%nat -> drop n s = EmptyString.
Proof.
  revert s. induction n as [|n IH]; intros [|c s] H; cbn [String.length] in H;
    try reflexivity; try lia.
  cbn [drop]. apply IH. lia.
Qed.

Lemma drop_append (stem rest : string) : drop (String.length stem) (stem ++ rest) = rest.
Proof. induction stem as [|c stem IH]; [destruct rest; reflexivity | exact IH]. Qed.

Lemma length_append (a b : string) :
  String.length (a ++ b) = (String.length a + String.length b)%nat.
Proof. induction a as [|c a IH]; [reflexivity|]. cbn [String.append String.length]. lia. Qed.

Lemma slice_from_beyond (start : Z) (s : string) :
  Z.of_nat (String.length s) <= start -> slice_from start s = EmptyString.
Proof.
  intros H. unfold slice_from, relative_index.
  destruct (Z.ltb_spec start 0); [lia|]. apply drop_all. lia.
Qed.

(** X26.  For a file name of fewer than 2^32 characters, [getFileExtension]
    returns what follows the last dot when that dot is not the first
    character, and the empty string when the name has no dot or its only dot
    is the first character (a name such as [.bashrc]). *)
Theorem file_extension_cases (filename : string) :
  Z.of_nat (String.length filename) < 2 ^ 32 ->
  (no_dot filename = true -> getFileExtension filename = EmptyString)
  /\ (forall rest, filename = String "." rest -> no_dot rest = true ->
        getFileExtension filename = EmptyString)
  /\ (forall stem ext, filename = (stem ++ String "." ext)%string ->
        stem <> EmptyString -> no_dot ext = true ->
        getFileExtension filename = ext).
Proof.
  intros Hlen. unfold getFileExtension, lastIndexOf, no_dot, is_dot. repeat split.
  - intros Hno. rewrite (lastIndexOf_from_absent "." 0 filename Hno).
    apply slice_from_beyond. change (ToUint32 (-1 - 1)) with (2 ^ 32 - 2). lia.
  - intros rest -> Hno.
    pose proof (lastIndexOf_from_last "." 0 EmptyString rest (Z.le_refl 0) Hno) as Hlast.
    cbn [String.append String.length Z.of_nat] in Hlast. rewrite Hlast.
    apply slice_from_beyond. change (ToUint32 (0 + 0 - 1)) with (2 ^ 32 - 1). lia.
  - intros stem ext -> Hstem Hno.
    rewrite (lastIndexOf_from_last "." 0 stem ext (Z.le_refl 0) Hno).
    rewrite length_append in Hlen. cbn [String.length] in Hlen.
    assert (Hpos : (1 <= String.length stem)%nat).
    { destruct stem; [congruence | cbn [String.length]; lia]. }
    unfold ToUint32. rewrite Z.mod_small by lia.
    unfold slice_from, relative_index. rewrite length_append. cbn [String.length].
    destruct (Z.ltb_spec (0 + Z.of_nat (String.length stem) - 1 + 2) 0); [lia|].
    replace (Z.to_nat (Z.min (0 + Z.of_nat (String.length stem) - 1 + 2)
                             (Z.of_nat (String.length stem + S (String.length ext)))))
      with (String.length (stem ++ ".")) by (rewrite length_append; cbn [String.length]; lia).
    replace (stem ++ String "." ext)%string with ((stem ++ ".") ++ ext)%string.
    + apply drop_append.
    + rewrite append_assoc. reflexivity.
Qed.

Lemma file_extension_cases_witness :
  getFileExtension "lease.v2.pdf" = "pdf" /\ getFileExtension ".bashrc" = EmptyString.
Proof.
  split.
  - apply (proj2 (proj2 (file_extension_cases "lease.v2.pdf" ltac:(cbn; lia)))
                 "lease.v2" "pdf"); [reflexivity | discriminate | reflexivity].
  - apply (proj1 (proj2 (file_extension_cases ".bashrc" ltac:(cbn; lia))) "bashrc");
      reflexivity.
Defined.

Lemma own_In (o : object) (k : string) (v : value) : own o k = Some v -> In (k, v) o.
Proof.
  induction o as [|[k' v'] o IH]; cbn [own]; [discriminate|].
  destruct (String.eqb_spec k k') as [->|Hne].
  - intros [= ->]. left. reflexivity.
  - intros H. right. apply IH, H.
Qed.

(** X27.  [getMimeType] returns a non-empty string, the entry of the table
    for the lower-cased extension or ["application/octet-stream"], for every
    file name but those whose extension reads [constructor] or [__proto__] in
    any letter case: for these the lookup finds the member inherited from
    [Object.prototype], and the result is the function [Object] or the
    prototype object, not a string. *)
Theorem mime_type_cases (filename : string) :
  let ext := toLowerCase (getFileExtension filename) in
  (ext = "constructor" -> getMimeType filename = VNative "Object")
  /\ (ext = "__proto__" -> getMimeType filename = VObjectPrototype)
  /\ (ext <> "constructor" -> ext <> "__proto__" ->
      exists mime,
        getMimeType filename = VStr mime /\ mime <> EmptyString
        /\ (In (ext, VStr mime) mimeTypes
            \/ (own mimeTypes ext = None /\ mime = "application/octet-stream"))).
Proof.
  intros ext. unfold getMimeType. fold ext. repeat split.
  - intros ->. reflexivity.
  - intros ->. reflexivity.
  - intros Hc Hp. unfold get. destruct (own mimeTypes ext) as [v|] eqn:E.
    + apply own_In in E.
      assert (Hall : Forall (fun e => exists mime, snd e = VStr mime /\ mime <> EmptyString)
                            mimeTypes).
      { repeat constructor; eexists; (split; [reflexivity | discriminate]). }
      destruct (proj1 (Forall_forall _ _) Hall _ E) as (mime & Hv & Hne).
      cbn [snd] in Hv. subst v. exists mime. split; [|split; [exact Hne | left; exact E]].
      unfold js_or. cbn [truthy]. destruct mime; [congruence | reflexivity].
    + assert (Hplain : inherited ext = VUndefined).
      { apply plain_without_capital; [apply toLowerCase_no_capital | exact Hc | exact Hp]. }
      rewrite Hplain. exists "application/octet-stream".
      split; [reflexivity|]. split; [discriminate | right; split; reflexivity].
Qed.

(** ** [chunk] *)

Lemma slice_chunk {A : Type} (array : list A) (size i : Z) :
  1 <= size -> 0 <= i < Z.of_nat (List.length array) ->
  slice i (i + size) array = firstn (Z.to_nat size) (skipn (Z.to_nat i) array).
Proof.
  intros Hs Hi. unfold slice, relative_index.
  destruct (Z.ltb_spec i 0); [lia|]. destruct (Z.ltb_spec (i + size) 0); [lia|].
  rewrite (Z.min_l i) by lia.
  destruct (Z.le_ge_cases (i + size) (Z.of_nat (List.length array))) as [H1|H1].
  - rewrite Z.min_l by lia. f_equal. lia.
  - rewrite Z.min_r by lia.
    rewrite !firstn_all2; [reflexivity | |]; rewrite length_skipn; lia.
Qed.

Lemma skipn_add {A : Type} (array : list A) (size i : Z) :
  0 <= size -> 0 <= i ->
  skipn (Z.to_nat (i + size)) array = skipn (Z.to_nat size) (skipn (Z.to_nat i) array).
Proof.
  intros Hs Hi. rewrite skipn_skipn. f_equal. lia.
Qed.

Lemma chunk_from_spec {A : Type} (array : list A) (size : Z) (fuel : nat) :
  1 <= size ->
  forall i, 0 <= i ->
    (List.length (skipn (Z.to_nat i) array) <= fuel)%nat ->
    exists chunks,
      chunk_from fuel array size i = Some chunks
      /\ List.concat chunks = skipn (Z.to_nat i) array
      /\ Forall (fun c => 1 <= Z.of_nat (List.length c) <= size) chunks
      /\ Forall (fun c => Z.of_nat (List.length c) = size) (removelast chunks)
      /\ Z.of_nat (List.length chunks)
         = (Z.of_nat (List.length (skipn (Z.to_nat i) array)) + size - 1) / size.
Proof.
  intros Hs. induction fuel as [|fuel IH]; intros i Hi Hfuel.
  - exists []. rewrite length_skipn in Hfuel.
    assert (Hdone : Z.ltb i (Z.of_nat (List.length array)) = false) by (apply Z.ltb_ge; lia).
    destruct array; cbn [chunk_from]; cbn [chunk_from] in Hdone; rewrite ?Hdone;
      (split; [reflexivity|]); (split; [|split; [constructor|split; [constructor|]]]).
    + rewrite skipn_nil. reflexivity.
    + rewrite skipn_nil. cbn [List.length]. symmetry. apply Z.div_small. lia.
    + symmetry. apply length_zero_iff_nil. rewrite length_skipn. lia.
    + replace (List.length (skipn (Z.to_nat i) (a :: array))) with 0%nat
        by (rewrite length_skipn; lia).
      cbn [List.length]. symmetry. apply Z.div_small. lia.
  - cbn [chunk_from]. destruct (Z.ltb_spec i (Z.of_nat (List.length array))) as [Hlt|Hge].
    + set (rest := skipn (Z.to_nat i) array) in *.
      assert (Hrest : Z.of_nat (List.length rest) = Z.of_nat (List.length array) - i).
      { unfold rest. rewrite length_skipn. lia. }
      destruct (IH (i + size)) as (chunks & Hrun & Hcat & Hsizes & Hfull & Hcount).
      { lia. }
      { rewrite length_skipn. lia. }
      rewrite Hrun. cbn [option_map].
      rewrite (slice_chunk array size i Hs (conj Hi Hlt)). fold rest.
      rewrite (skipn_add array size i) in Hcat, Hcount by lia. fold rest in Hcat, Hcount.
      exists (firstn (Z.to_nat size) rest :: chunks).
      split; [reflexivity|]. split; [|split; [|split]].
      * cbn [List.concat]. rewrite Hcat. apply firstn_skipn.
      * constructor; [|exact Hsizes]. rewrite length_firstn. lia.
      * destruct chunks as [|c chunks]; [constructor|].
        change (removelast (firstn (Z.to_nat size) rest :: c :: chunks))
          with (firstn (Z.to_nat size) rest :: removelast (c :: chunks)).
        constructor; [|exact Hfull].
        assert (Hnonempty : skipn (Z.to_nat size) rest <> []).
        { rewrite <- Hcat. inversion Hsizes as [|? ? Hc _]; subst.
          destruct c; [cbn [List.length] in Hc; lia | discriminate]. }
        rewrite length_firstn.
        assert (Z.to_nat size < List.length rest)%nat.
        { destruct (Nat.lt_ge_cases (Z.to_nat size) (List.length rest)) as [|Hle]; [assumption|].
          exfalso. apply Hnonempty. apply skipn_all2. exact Hle. }
        lia.
      * cbn [List.length]. rewrite Nat2Z.inj_succ, Hcount, length_skipn.
        destruct (Z.le_ge_cases size (Z.of_nat (List.length rest))) as [Hbig|Hsmall].
        -- replace (Z.of_nat (List.length rest) + size - 1)
             with (Z.of_nat (List.length rest - Z.to_nat size) + size - 1 + 1 * size) by lia.
           rewrite Z.div_add by lia. lia.
        -- replace (Z.of_nat (List.length rest - Z.to_nat size)) with 0 by lia.
           rewrite (Z.div_small (0 + size - 1)) by lia.
           change (Z.succ 0) with 1.
           apply (Z.div_unique_pos _ _ 1 (Z.of_nat (List.length rest) - 1)); lia.
    + exists []. assert (Hnil : skipn (Z.to_nat i) array = []).
      { apply skipn_all2. lia. }
      rewrite Hnil. split; [reflexivity|]. split; [reflexivity|].
      split; [constructor|]. split; [constructor|].
      cbn [List.length]. symmetry. apply Z.div_small. lia.
Qed.

(** X28.  For a size of at least 1, [chunk] terminates (as many rounds as the
    array has elements are always enough) and its chunks, put together in
    order, are the array; every chunk holds between 1 and [size] elements,
    every chunk but the last holds exactly [size], and there are
    [ceil(length / size)] chunks. *)
Theorem chunk_splits_the_array {A : Type} (array : list A) (size : Z) (fuel : nat) :
  1 <= size -> (List.length array <= fuel)%nat ->
  exists chunks,
    chunk fuel array size = Some chunks
    /\ List.concat chunks = array
    /\ Forall (fun c => 1 <= Z.of_nat (List.length c) <= size) chunks
    /\ Forall (fun c => Z.of_nat (List.length c) = size) (removelast chunks)
    /\ Z.of_nat (List.length chunks) = (Z.of_nat (List.length array) + size - 1) / size.
Proof.
  intros Hs Hfuel.
  exact (chunk_from_spec array size fuel Hs 0 (Z.le_refl 0) Hfuel).
Qed.

Lemma chunk_splits_the_array_witness :
  exists chunks,
    chunk 5 [1; 2; 3; 4; 5] 2 = Some chunks
    /\ List.concat chunks = [1; 2; 3; 4; 5]
    /\ Forall (fun c => 1 <= Z.of_nat (List.length c) <= 2) chunks
    /\ Forall (fun c => Z.of_nat (List.length c) = 2) (removelast chunks)
    /\ Z.of_nat (List.length chunks) = (Z.of_nat (List.length [1; 2; 3; 4; 5]) + 2 - 1) / 2.
Proof.
  apply (chunk_splits_the_array [1; 2; 3; 4; 5] 2 5); [lia | cbn; lia].
Defined.

Lemma chunk_from_stuck {A : Type} (array : list A) (size : Z) (fuel : nat) (i : Z) :
  size <= 0 -> array <> [] -> i <= 0 -> chunk_from fuel array size i = None.
Proof.
  intros Hs Hne. revert i. induction fuel as [|fuel IH]; intros i Hi.
  - destruct array as [|a array]; [congruence|].
    cbn [chunk_from]. destruct (Z.ltb_spec i (Z.of_nat (List.length (a :: array))));
      [reflexivity | cbn [List.length] in *; lia].
  - cbn [chunk_from].
    destruct (Z.ltb_spec i (Z.of_nat (List.length array))) as [_|Hge].
    + rewrite (IH (i + size)) by lia. reflexivity.
    + destruct array; [congruence | cbn [List.length] in Hge; lia].
Qed.

(** X29.  For a size of 0 or less and an array that is not empty, [chunk]
    never returns: the loop index never reaches the length of the array, so
    no number of rounds is enough. *)
Theorem chunk_never_returns {A : Type} (array : list A) (size : Z) (fuel : nat) :
  size <= 0 -> array <> [] -> chunk fuel array size = None.
Proof.
  intros Hs Hne. apply chunk_from_stuck; [exact Hs | exact Hne | lia].
Qed.

Lemma chunk_never_returns_witness : chunk 1000 [1; 2; 3] 0 = None.
Proof. apply (chunk_never_returns [1; 2; 3] 0 1000); [lia | discriminate]. Defined.

(** ** [truncateText] *)

Lemma substring0_short (n : nat) (s : string) :
  (n <= String.length s)%nat -> String.length (substring0 n s) = n.
Proof.
  unfold substring0. revert s.
  induction n as [|n IH]; intros [|c s] H; cbn [String.length] in H; try reflexivity; try lia.
  cbn [String.substring String.length]. rewrite IH by lia. reflexivity.
Qed.

(** X30.  A text longer than a limit of 0 or more is cut to its first
    [maxLength] characters followed by three dots, so the result has
    [maxLength + 3] characters and exceeds the limit; a text within the limit
    is returned as it is. *)
Theorem truncated_text_exceeds_the_limit (text : string) (maxLength : Z) :
  0 <= maxLength ->
  if Z.leb (Z.of_nat (String.length text)) maxLength
  then truncateText text maxLength = text
  else truncateText text maxLength
       = (substring0 (Z.to_nat maxLength) text ++ "...")%string
       /\ Z.of_nat (String.length (truncateText text maxLength)) = maxLength + 3.
Proof.
  intros Hm. unfold truncateText.
  destruct (Z.leb_spec (Z.of_nat (String.length text)) maxLength) as [Hle|Hgt];
    [reflexivity|].
  unfold slice_to, relative_index. destruct (Z.ltb_spec maxLength 0); [lia|].
  rewrite Z.min_l by lia. split; [reflexivity|].
  rewrite length_append, substring0_short by lia. cbn [String.length]. lia.
Qed.

Lemma truncated_text_exceeds_the_limit_witness :
  truncateText "hello" 4 = "hell..."
  /\ Z.of_nat (String.length (truncateText "hello" 4)) = 4 + 3.
Proof. apply (truncated_text_exceeds_the_limit "hello" 4). lia. Defined.
